(** * VariTTS: the residual coupling flow of [ResidualCouplingBlock.py]

    A shallow embedding of the three modules of the file
    ([ResidualCouplingBlock], [Flip], [ResidualCouplingLayer]) and the
    properties of the flow stack.

    Tensors of rank three are nested lists [[B][C][T]] of floating-point
    values.  The arithmetic is a parameter: the program is defined over any
    type of values with the operations it uses ([Arith]), and its
    properties are proved from the laws of IEEE 754 arithmetic that every
    format satisfies ([Format]), none of which asks a rounded operation to
    be exact.  The examples run in exact arithmetic ([real_format]), in
    exact arithmetic with infinities ([xreal_format]) and in single
    precision ([binary32]).  The tensor library rejects operands whose sizes do not fit;
    those checks are part of the model ([result]).  The transform network
    ([WaveNet]) is an injected callable: it is a field of the layer, it may
    fail, and it may read and write a hidden state of its own ([World]).
    What the constructors of the library draw at random is an argument of
    the constructors here ([LayerInit]). *)

From Stdlib Require Import String.
From Stdlib Require Import List Arith NArith ZArith Bool Lia.
From Stdlib Require Import Reals Lra.
From Stdlib Require Import SpecFloat FunctionalExtensionality.
Import ListNotations.

Set Implicit Arguments.

(** ** Floating-point arithmetic *)

(** The values of a floating-point format (finite numbers, infinities,
    not-a-number) and the operations of the program on them: [+], [-], [*],
    unary [-] and [torch.exp]. *)
Record Arith : Type := {
  F : Type;
  fzero : F;
  fone : F;
  is_finite : F -> bool;
  fadd : F -> F -> F;
  fsub : F -> F -> F;
  fmul : F -> F -> F;
  fneg : F -> F;
  fexp : F -> F
}.

Arguments is_finite {_} _.
Arguments fadd {_} _ _.
Arguments fsub {_} _ _.
Arguments fmul {_} _ _.
Arguments fneg {_} _.
Arguments fexp {_} _.

(** An arithmetic with the laws of IEEE 754 that the proofs use.  Values
    are compared as numbers, so the two zeros of IEEE 754 are one value, and
    so are the not-a-numbers.  Multiplying by one, adding or subtracting
    zero and negating zero are exact; a finite number times zero is zero;
    [exp 0 = 1]; and a sum or a product that is a finite number has finite
    operands.  Nothing is assumed of the rounding of other results, nor of
    overflow. *)
Record Format : Type := {
  arith :> Arith;
  finite_zero : is_finite (fzero arith) = true;
  finite_one : is_finite (fone arith) = true;
  fmul_one_r : forall x : F arith, fmul x (fone arith) = x;
  fmul_zero_r : forall x : F arith,
    is_finite x = true -> fmul x (fzero arith) = fzero arith;
  fmul_zero_l : forall x : F arith,
    is_finite x = true -> fmul (fzero arith) x = fzero arith;
  fadd_zero_l : forall x : F arith, fadd (fzero arith) x = x;
  fadd_zero_r : forall x : F arith, fadd x (fzero arith) = x;
  fsub_zero_r : forall x : F arith, fsub x (fzero arith) = x;
  fneg_zero : fneg (fzero arith) = fzero arith;
  fexp_zero : fexp (fzero arith) = fone arith;
  fadd_finite : forall x y : F arith,
    is_finite (fadd x y) = true -> is_finite x = true /\ is_finite y = true;
  fmul_finite : forall x y : F arith,
    is_finite (fmul x y) = true -> is_finite x = true /\ is_finite y = true
}.

(** Exact arithmetic on the real numbers: every value is finite and no
    operation rounds. *)
Definition real_arith : Arith :=
  {| F := R; fzero := 0%R; fone := 1%R; is_finite := fun _ => true;
     fadd := Rplus; fsub := Rminus; fmul := Rmult; fneg := Ropp;
     fexp := exp |}.

Definition real_format : Format.
Proof.
  refine {| arith := real_arith |}; simpl;
    intros; try reflexivity; try (split; reflexivity); try lra.
  apply exp_0.
Defined.

(** The real numbers with the two infinities and not-a-number. *)
Inductive xreal : Type :=
| Xfin (r : R)
| Xinf (negative : bool)
| Xnan.

Definition xfinite (x : xreal) : bool :=
  match x with
  | Xfin _ => true
  | _ => false
  end.

(** An infinity times the finite number [r]: not-a-number when [r] is zero,
    else the infinity of the product of the signs. *)
Definition xinf_times (negative : bool) (r : R) : xreal :=
  if Req_dec_T r 0 then Xnan
  else if Rlt_dec 0 r then Xinf negative else Xinf (negb negative).

Definition xmul (x y : xreal) : xreal :=
  match x, y with
  | Xnan, _ | _, Xnan => Xnan
  | Xfin a, Xfin b => Xfin (a * b)
  | Xinf s, Xfin b => xinf_times s b
  | Xfin a, Xinf s => xinf_times s a
  | Xinf s, Xinf s' => Xinf (xorb s s')
  end.

Definition xadd (x y : xreal) : xreal :=
  match x, y with
  | Xnan, _ | _, Xnan => Xnan
  | Xfin a, Xfin b => Xfin (a + b)
  | Xinf s, Xfin _ => Xinf s
  | Xfin _, Xinf s => Xinf s
  | Xinf s, Xinf s' => if Bool.eqb s s' then Xinf s else Xnan
  end.

Definition xneg (x : xreal) : xreal :=
  match x with
  | Xfin a => Xfin (- a)
  | Xinf s => Xinf (negb s)
  | Xnan => Xnan
  end.

Definition xsub (x y : xreal) : xreal := xadd x (xneg y).

Definition xexp (x : xreal) : xreal :=
  match x with
  | Xfin a => Xfin (exp a)
  | Xinf false => Xinf false
  | Xinf true => Xfin 0
  | Xnan => Xnan
  end.

(** Exact arithmetic on the extended real numbers: no operation rounds or
    overflows, and the infinities and not-a-number behave as in
    IEEE 754. *)
Definition xreal_arith : Arith :=
  {| F := xreal; fzero := Xfin 0; fone := Xfin 1; is_finite := xfinite;
     fadd := xadd; fsub := xsub; fmul := xmul; fneg := xneg;
     fexp := xexp |}.

Definition xreal_format : Format.
Proof.
  refine {| arith := xreal_arith |}; try reflexivity.
  - intros [a|s|]; simpl; try reflexivity.
    + f_equal. lra.
    + unfold xinf_times. destruct (Req_dec_T 1 0); [lra|].
      destruct (Rlt_dec 0 1); [reflexivity|lra].
  - intros [a|s|]; simpl; try discriminate. intros _. f_equal. lra.
  - intros [a|s|]; simpl; try discriminate. intros _. f_equal. lra.
  - intros [a|s|]; simpl; try reflexivity. f_equal. lra.
  - intros [a|s|]; simpl; try reflexivity. f_equal. lra.
  - intros [a|s|]; unfold xsub; simpl; try reflexivity. f_equal. lra.
  - simpl. f_equal. lra.
  - simpl. f_equal. apply exp_0.
  - intros [a|s|] [b|s'|]; simpl; try discriminate; auto.
    destruct (Bool.eqb s s'); discriminate.
  - intros [a|s|] [b|s'|]; simpl; try discriminate; auto;
      unfold xinf_times; destruct (Req_dec_T _ 0); try discriminate;
      destruct (Rlt_dec 0 _); discriminate.
Defined.

(** ** Single precision *)

(** IEEE 754 binary32, the default type of the elements of a tensor: 24 bits
    of precision and exponents below 128, every operation rounded to the
    nearest value, ties to even.  [torch.exp] is a function of the library
    that the format does not define: it is a parameter here. *)
Definition b32_one : spec_float := S754_finite false 8388608 (-23).

Definition b32_finite (x : spec_float) : bool :=
  match x with
  | S754_zero _ | S754_finite _ _ _ => true
  | S754_infinity _ | S754_nan => false
  end.

Definition binary32 (exp32 : spec_float -> spec_float) : Arith :=
  {| F := spec_float; fzero := S754_zero false; fone := b32_one;
     is_finite := b32_finite;
     fadd := SFadd 24 128; fsub := SFsub 24 128; fmul := SFmul 24 128;
     fneg := SFopp; fexp := exp32 |}.

(** The real number that a finite value stands for. *)
Definition b32_value (x : spec_float) : R :=
  match x with
  | S754_finite s m e =>
      ((if s then -1 else 1) * IZR (Zpos m) * powerRZ 2 e)%R
  | _ => 0%R
  end.

(** ** Tensors *)

Abbreviation Vec fmt := (list (F fmt)) (only parsing).
Abbreviation Mat fmt := (list (list (F fmt))) (only parsing).
Abbreviation Tensor fmt := (list (list (list (F fmt)))) (only parsing).

(** Element [x[b, c, t]]; zero outside the tensor. *)
Definition get {fmt : Arith} (x : Tensor fmt) (b c t : nat) : F fmt :=
  nth t (nth c (nth b x []) []) (fzero fmt).

Definition mshape {A} (C T : nat) (m : list (list A)) : Prop :=
  length m = C /\ Forall (fun r : list A => length r = T) m.

(** [shape B C T x]: [x] is a tensor of size [[B, C, T]]. *)
Definition shape {A} (B C T : nat) (x : list (list (list A))) : Prop :=
  length x = B /\ Forall (mshape C T) x.

Definition has_mshape {A} (C T : nat) (m : list (list A)) : bool :=
  (length m =? C) && forallb (fun r : list A => length r =? T) m.

Definition has_shape {A} (B C T : nat) (x : list (list (list A))) : bool :=
  (length x =? B) && forallb (has_mshape C T) x.

(** Every element of the tensor is a finite number. *)
Definition all_finite {fmt : Arith} (x : Tensor fmt) : Prop :=
  Forall (Forall (Forall (fun v : F fmt => is_finite v = true))) x.

(** ** Errors *)

Inductive error : Type :=
| AssertionError (msg : string)
| RuntimeError (msg : string).

Definition result (A : Type) : Type := (error + A)%type.

Definition rbind {A B} (r : result A) (k : A -> result B) : result B :=
  match r with
  | inl e => inl e
  | inr a => k a
  end.

Fixpoint mapM {A B} (f : A -> result B) (xs : list A) : result (list B) :=
  match xs with
  | [] => inr []
  | x :: xs' =>
      rbind (f x) (fun y => rbind (mapM f xs') (fun ys => inr (y :: ys)))
  end.

Definition size_mismatch {A} : result A :=
  inl (RuntimeError "The size of tensor a must match the size of tensor b").

Fixpoint zipM {A B C} (f : A -> B -> result C) (xs : list A) (ys : list B)
  : result (list C) :=
  match xs, ys with
  | [], [] => inr []
  | x :: xs', y :: ys' =>
      rbind (f x y) (fun z => rbind (zipM f xs' ys') (fun zs => inr (z :: zs)))
  | _, _ => size_mismatch
  end.

Fixpoint zipWith {A B C} (f : A -> B -> C) (xs : list A) (ys : list B)
  : list C :=
  match xs, ys with
  | x :: xs', y :: ys' => f x y :: zipWith f xs' ys'
  | _, _ => []
  end.

(** One axis of the library's broadcasting rule: equal sizes are paired,
    a size of one is repeated, anything else is an error. *)
Definition broadcast {A B C} (f : A -> B -> result C)
  (xs : list A) (ys : list B) : result (list C) :=
  if length xs =? length ys then zipM f xs ys
  else match xs, ys with
       | [x], _ => mapM (f x) ys
       | _, [y] => mapM (fun x => f x y) xs
       | _, _ => size_mismatch
       end.

(** An elementwise binary operator on two tensors of rank three. *)
Definition pointwise {A} (f : A -> A -> A) (a b : list (list (list A)))
  : result (list (list (list A))) :=
  broadcast (broadcast (broadcast (fun u v => inr (f u v)))) a b.

Definition tmap {A} (f : A -> A) (x : list (list (list A)))
  : list (list (list A)) :=
  map (map (map f)) x.

Definition torch_exp {fmt : Arith} (x : Tensor fmt) : Tensor fmt :=
  tmap (@fexp fmt) x.
Definition torch_neg {fmt : Arith} (x : Tensor fmt) : Tensor fmt :=
  tmap (@fneg fmt) x.
Definition torch_zeros_like {fmt : Arith} (x : Tensor fmt) : Tensor fmt :=
  tmap (fun _ => fzero fmt) x.
Definition torch_zeros (fmt : Arith) (n : nat) : Vec fmt :=
  repeat (fzero fmt) n.

(** [torch.flip(x, [1])]: the channels of every batch element in reverse. *)
Definition torch_flip1 {A} (x : list (list (list A))) : list (list (list A)) :=
  map (@rev (list A)) x.

(** [torch.split(x, [n] * 2, 1)]: the sizes must add up to the channel
    axis. *)
Definition torch_split2 {A} (x : list (list (list A))) (n : nat)
  : result (list (list (list A)) * list (list (list A))) :=
  rbind
    (mapM (fun m : list (list A) =>
             if length m =? n + n then inr (firstn n m, skipn n m)
             else inl (RuntimeError
                         "split_with_sizes expects split_sizes to sum exactly to the size of the dimension"))
       x)
    (fun ps => inr (map fst ps, map snd ps)).

(** The rows of a batch element all have the length of the first one. *)
Definition same_time_axis {A} (m : list (list A)) : bool :=
  forallb (fun r : list A => length r =? length (hd [] m)) m.

(** [torch.cat([a, b], 1)]: the batch axes and the time axes must agree. *)
Definition torch_cat1 {A} (a b : list (list (list A)))
  : result (list (list (list A))) :=
  zipM (fun ma mb : list (list A) =>
          if same_time_axis (ma ++ mb) then inr (ma ++ mb)
          else inl (RuntimeError
                      "Sizes of tensors must match except in dimension 1"))
    a b.

Definition vsum {fmt : Arith} (v : Vec fmt) : F fmt :=
  fold_right (@fadd fmt) (fzero fmt) v.

(** [torch.sum(x, [1, 2])]: one number per batch element.  The order in
    which the library adds the elements is not specified; here it is rows
    first, each from its last element. *)
Definition torch_sum12 {fmt : Arith} (x : Tensor fmt) : Vec fmt :=
  map (fun m : Mat fmt => vsum (map (@vsum fmt) m)) x.

(** ** Convolution of kernel size one *)

Record Conv1d (fmt : Arith) : Type := {
  in_channels : nat;
  out_channels : nat;
  weight : list (list (F fmt));
  bias : list (F fmt)
}.

(** [sum_i w[i] * rows[i]], a vector of length [T]. *)
Definition lincomb {fmt : Arith} (T : nat) (w : Vec fmt) (rows : Mat fmt)
  : Vec fmt :=
  fold_right
    (fun (p : F fmt * Vec fmt) acc =>
       zipWith (@fadd fmt) (map (fmul (fst p)) (snd p)) acc)
    (repeat (fzero fmt) T) (combine w rows).

(** One batch element: [out[o] = bias[o] + sum_i weight[o][i] * m[i]]; the
    number of time steps is read off the first channel. *)
Definition conv1d_sample {fmt : Arith} (c : Conv1d fmt) (m : Mat fmt)
  : Mat fmt :=
  let T := length (hd [] m) in
  zipWith (fun w b => map (fadd b) (lincomb T w m)) (weight c) (bias c).

(** [nn.Conv1d.forward]: the channel axis must have [in_channels] channels
    and, the kernel being of size one, the time axis must not be empty. *)
Definition conv1d {fmt : Arith} (c : Conv1d fmt) (x : Tensor fmt)
  : result (Tensor fmt) :=
  mapM (fun m : Mat fmt =>
          if negb (length m =? in_channels c) then
            inl (RuntimeError "expected input to have in_channels channels")
          else if length (hd [] m) =? 0 then
            inl (RuntimeError
                   "Kernel size can't be greater than actual input size")
          else inr (conv1d_sample c m))
    x.

(** The parameter tensors of [nn.Conv1d(n_in, n_out, 1)] with the given
    initial values. *)
Definition Conv1d_new {fmt : Arith} (n_in n_out : nat)
  (w : nat -> nat -> F fmt) (b : nat -> F fmt) : Conv1d fmt :=
  {| in_channels := n_in;
     out_channels := n_out;
     weight := map (fun o => map (w o) (seq 0 n_in)) (seq 0 n_out);
     bias := map b (seq 0 n_out) |}.

(** [nn.Conv1d(n_in, n_out, 1)]: the parameter tensors cannot be allocated
    with a negative size. *)
Definition nn_Conv1d {fmt : Arith} (n_in n_out : Z)
  (w : nat -> nat -> F fmt) (b : nat -> F fmt) : result (Conv1d fmt) :=
  if (n_in <? 0)%Z || (n_out <? 0)%Z then
    inl (RuntimeError "Trying to create tensor with negative dimension")
  else inr (Conv1d_new (Z.to_nat n_in) (Z.to_nat n_out) w b).

(** ** Calls that may fail and may touch the state of the injected network *)

Definition M (World A : Type) : Type := World -> result A * World.

Definition ret {World A} (a : A) : M World A := fun w => (inr a, w).

Definition lift {World A} (r : result A) : M World A := fun w => (r, w).

Definition bind {World A B} (m : M World A) (k : A -> M World B)
  : M World B :=
  fun w =>
    match m w with
    | (inr a, w') => k a w'
    | (inl e, w') => (inl e, w')
    end.

Declare Scope flow_scope.
Delimit Scope flow_scope with flow.
Notation "x <- m ;; k" := (bind m (fun x => k))
  (at level 61, m at next level, right associativity) : flow_scope.
Notation "' p <- m ;; k" := (bind m (fun x => match x with p => k end))
  (at level 61, p pattern, m at next level, right associativity) : flow_scope.
Open Scope flow_scope.

Fixpoint foldM {World A X} (f : X -> A -> M World X) (l : list A) (x : X)
  : M World X :=
  match l with
  | [] => ret x
  | a :: l' => x' <- f x a ;; foldM f l' x'
  end.

(** What a flow returns: the tensor and the log-determinant when
    [reverse=False], the tensor alone when [reverse=True]. *)
Definition flow_ret (fmt : Arith) (reverse : bool) : Type :=
  if reverse then Tensor fmt else (Tensor fmt * Vec fmt)%type.

(** The tensor of a flow's return value. *)
Definition ret_x {fmt : Arith} {reverse : bool}
  : flow_ret fmt reverse -> Tensor fmt :=
  match reverse return flow_ret fmt reverse -> Tensor fmt with
  | true => fun x => x
  | false => fun p => fst p
  end.

(** ** class Flip *)

Definition Flip_forward {fmt : Arith} (x : Tensor fmt) (reverse : bool)
  : flow_ret fmt reverse :=
  let x := torch_flip1 x in
  match reverse return flow_ret fmt reverse with
  | false =>
      let logdet := torch_zeros fmt (length x) in
      (x, logdet)
  | true => x
  end.

Section Model.

Variable fmt : Arith.
Variable World : Type.

(** The injected transform network: [enc(h, x_mask, g=g)]. *)
Definition Network : Type :=
  Tensor fmt -> Tensor fmt -> option (Tensor fmt) -> M World (Tensor fmt).

(** ** class ResidualCouplingLayer *)

(** The attributes of a constructed layer.  The two convolutions have been
    built, so that the channel counts are not negative. *)
Record ResidualCouplingLayer : Type := {
  channels : nat;
  hidden_channels : nat;
  kernel_size : Z;
  dilation_rate : Z;
  n_layers : Z;
  half_channels : nat;
  mean_only : bool;
  pre : Conv1d fmt;
  enc : Network;
  post : Conv1d fmt
}.

(** What the constructors called by [__init__] draw or build: the initial
    parameters of [pre] and the [WaveNet] constructor, which may raise. *)
Record LayerInit : Type := {
  pre_weight : nat -> nat -> F fmt;
  pre_bias : nat -> F fmt;
  WaveNet : Z -> Z -> Z -> Z -> Z -> Z -> result Network
}.

(** [__init__]: the assertion, then the constructors of [pre], [enc] and
    [post] in that order, then the two [zero_()]. *)
Definition ResidualCouplingLayer_init
  (channels hidden_channels kernel_size dilation_rate n_layers : Z)
  (p_dropout gin_channels : Z) (mean_only : bool) (fresh : LayerInit)
  : result ResidualCouplingLayer :=
  if negb (channels mod 2 =? 0)%Z then
    inl (AssertionError "channels should be divisible by 2")
  else
    let half_channels := (channels / 2)%Z in
    rbind (nn_Conv1d half_channels hidden_channels
             (pre_weight fresh) (pre_bias fresh)) (fun pre =>
    rbind (WaveNet fresh hidden_channels kernel_size dilation_rate n_layers
             p_dropout gin_channels) (fun enc =>
    rbind (nn_Conv1d hidden_channels
             (half_channels * (2 - (if mean_only then 1 else 0)))%Z
             (fun _ _ => fzero fmt) (fun _ => fzero fmt)) (fun post =>
    inr {| channels := Z.to_nat channels;
           hidden_channels := Z.to_nat hidden_channels;
           kernel_size := kernel_size;
           dilation_rate := dilation_rate;
           n_layers := n_layers;
           half_channels := Z.to_nat half_channels;
           mean_only := mean_only;
           pre := pre;
           enc := enc;
           post := post |}))).

(** The part of [forward] that computes [m] and [logs] from [x0]. *)
Definition coupling_stats (self : ResidualCouplingLayer)
  (x0 x_mask : Tensor fmt) (g : option (Tensor fmt))
  : M World (Tensor fmt * Tensor fmt) :=
  h <- lift (conv1d (pre self) x0) ;;
  h <- lift (pointwise (@fmul fmt) h x_mask) ;;
  h <- enc self h x_mask g ;;
  stats <- lift (conv1d (post self) h) ;;
  stats <- lift (pointwise (@fmul fmt) stats x_mask) ;;
  if negb (mean_only self)
  then lift (torch_split2 stats (half_channels self))
  else ret (stats, torch_zeros_like stats).

Definition ResidualCouplingLayer_forward (self : ResidualCouplingLayer)
  (x x_mask : Tensor fmt) (g : option (Tensor fmt)) (reverse : bool)
  : M World (flow_ret fmt reverse) :=
  '(x0, x1) <- lift (torch_split2 x (half_channels self)) ;;
  '(m, logs) <- coupling_stats self x0 x_mask g ;;
  match reverse return M World (flow_ret fmt reverse) with
  | false =>
      a <- lift (pointwise (@fmul fmt) x1 (torch_exp logs)) ;;
      a <- lift (pointwise (@fmul fmt) a x_mask) ;;
      x1 <- lift (pointwise (@fadd fmt) m a) ;;
      x <- lift (torch_cat1 x0 x1) ;;
      let logdet := torch_sum12 logs in
      ret (x, logdet)
  | true =>
      d <- lift (pointwise (@fsub fmt) x1 m) ;;
      a <- lift (pointwise (@fmul fmt) d (torch_exp (torch_neg logs))) ;;
      x1 <- lift (pointwise (@fmul fmt) a x_mask) ;;
      x <- lift (torch_cat1 x0 x1) ;;
      ret x
  end.

(** ** class ResidualCouplingBlock *)

(** The two kinds of module held by [self.flows]. *)
Inductive Flow : Type :=
| Coupling (layer : ResidualCouplingLayer)
| FlipModule.

Record ResidualCouplingBlock : Type := {
  block_channels : Z;
  block_hidden_channels : Z;
  block_kernel_size : Z;
  block_dilation_rate : Z;
  block_n_layers : Z;
  n_flows : Z;
  gin_channels : Z;
  flows : list Flow
}.

(** One iteration of the loop of [__init__]: a layer and a flip are appended
    to the list.  [fresh i] is what the constructors of the [i]-th layer
    draw. *)
Definition append_flow
  (channels hidden_channels kernel_size dilation_rate n_layers : Z)
  (gin_channels : Z) (fresh : nat -> LayerInit)
  (acc : result (list Flow)) (i : nat) : result (list Flow) :=
  rbind acc (fun flows =>
  rbind (ResidualCouplingLayer_init channels hidden_channels kernel_size
           dilation_rate n_layers 0 gin_channels true (fresh i))
        (fun layer => inr ((flows ++ [Coupling layer]) ++ [FlipModule]))).

(** [for i in range(n_flows)], from the empty list; the range of a negative
    number is empty. *)
Definition build_flows
  (channels hidden_channels kernel_size dilation_rate n_layers : Z)
  (n_flows gin_channels : Z) (fresh : nat -> LayerInit)
  : result (list Flow) :=
  fold_left
    (append_flow channels hidden_channels kernel_size dilation_rate n_layers
       gin_channels fresh)
    (seq 0 (Z.to_nat n_flows)) (inr []).

Definition ResidualCouplingBlock_init
  (channels hidden_channels kernel_size dilation_rate n_layers : Z)
  (n_flows gin_channels : Z) (fresh : nat -> LayerInit)
  : result ResidualCouplingBlock :=
  rbind (build_flows channels hidden_channels kernel_size dilation_rate
           n_layers n_flows gin_channels fresh)
    (fun flows =>
       inr {| block_channels := channels;
              block_hidden_channels := hidden_channels;
              block_kernel_size := kernel_size;
              block_dilation_rate := dilation_rate;
              block_n_layers := n_layers;
              n_flows := n_flows;
              gin_channels := gin_channels;
              flows := flows |}).

(** [flow(x, x_mask, g=g, reverse=reverse)] for a module of the list. *)
Definition call (flow : Flow) (x x_mask : Tensor fmt)
  (g : option (Tensor fmt)) (reverse : bool) : M World (flow_ret fmt reverse) :=
  match flow with
  | Coupling layer => ResidualCouplingLayer_forward layer x x_mask g reverse
  | FlipModule => ret (Flip_forward x reverse)
  end.

Definition ResidualCouplingBlock_forward (self : ResidualCouplingBlock)
  (x x_mask : Tensor fmt) (g : option (Tensor fmt)) (reverse : bool)
  : M World (Tensor fmt) :=
  if negb reverse then
    foldM (fun x flow => '(x, _) <- call flow x x_mask g false ;; ret x)
      (flows self) x
  else
    foldM (fun x flow => call flow x x_mask g true) (rev (flows self)) x.

End Model.

Arguments FlipModule {fmt World}.

(** ** Well-formed parameters *)

(** The parameter tensors of a convolution have the sizes its constructor
    gives them: [weight] is [[out_channels, in_channels]], [bias] is
    [[out_channels]]. *)
Definition conv_wf {fmt : Arith} (c : Conv1d fmt) : Prop :=
  length (weight c) = out_channels c /\
  length (bias c) = out_channels c /\
  Forall (fun w : Vec fmt => length w = in_channels c) (weight c).

(** All parameters of a convolution are zero. *)
Definition conv_zero {fmt : Arith} (c : Conv1d fmt) : Prop :=
  Forall (Forall (eq (fzero fmt))) (weight c) /\ Forall (eq (fzero fmt)) (bias c).

(** A call whose result does not depend on the hidden state. *)
Definition deterministic {World A} (m : M World A) : Prop :=
  forall w w', fst (m w) = fst (m w').

Section Contracts.

Variable fmt : Arith.
Variable World : Type.

(** Modelled from the spec: the [WaveNet] module is not among the sources;
    section 4.2 gives its contract, "shape-preserving, mask-respecting,
    deterministic given its own parameters".  Shape preservation, for the
    conditioning [g] of the call: on a hidden tensor of [H] channels and a
    mask of one channel, with a time axis that is not empty, the network
    returns a tensor of the same size. *)
Definition enc_shape_preserving (net : Network fmt World) (H : nat)
  (g : option (Tensor fmt)) : Prop :=
  forall B T h mask w,
    0 < T -> shape B H T h -> shape B 1 T mask ->
    exists h' w', net h mask g w = (inr h', w') /\ shape B H T h'.

(** Modelled from the spec: the same contract, determinism. *)
Definition enc_deterministic (net : Network fmt World) : Prop :=
  forall h mask g, deterministic (net h mask g).

(** The sizes a constructed layer has, whatever the values of its
    parameters. *)
Definition layer_wf (l : ResidualCouplingLayer fmt World) : Prop :=
  channels l = half_channels l + half_channels l /\
  0 < half_channels l /\ 0 < hidden_channels l /\
  conv_wf (pre l) /\
  in_channels (pre l) = half_channels l /\
  out_channels (pre l) = hidden_channels l /\
  conv_wf (post l) /\
  in_channels (post l) = hidden_channels l /\
  out_channels (post l)
  = half_channels l * (2 - (if mean_only l then 1 else 0)).

End Contracts.

(** ** Masks *)

(** A mask with values in [{0, 1}]. *)
Definition binary_mask {fmt : Arith} (mask : Tensor fmt) : Prop :=
  forall b t, get mask b 0 t = fzero fmt \/ get mask b 0 t = fone fmt.

(** [x] is zero at every time step where the mask is zero. *)
Definition zero_where_masked {fmt : Arith} (x mask : Tensor fmt) : Prop :=
  forall b c t, get mask b 0 t = fzero fmt -> get x b c t = fzero fmt.

(** At every time step where the mask is zero, [x] is zero or not a finite
    number. *)
Definition zero_or_not_finite {fmt : Arith} (x mask : Tensor fmt) : Prop :=
  forall b c t, get mask b 0 t = fzero fmt ->
    is_finite (get x b c t) = true -> get x b c t = fzero fmt.

Section Trace.

Variable fmt : Arith.
Variable World : Type.

(** The steps of [coupling_stats], one equation per line of the source:
    [h = pre(x0) * x_mask], [h = enc(h, x_mask, g=g)],
    [stats = post(h) * x_mask], and the two cases of [mean_only]. *)
Definition stats_trace (l : ResidualCouplingLayer fmt World)
  (x0 mask : Tensor fmt) (g : option (Tensor fmt)) (w : World)
  (m logs : Tensor fmt) (w' : World) : Prop :=
  exists h0 h1 h2 s stats,
    conv1d (pre l) x0 = inr h0 /\
    pointwise (@fmul fmt) h0 mask = inr h1 /\
    enc l h1 mask g w = (inr h2, w') /\
    conv1d (post l) h2 = inr s /\
    pointwise (@fmul fmt) s mask = inr stats /\
    (if mean_only l
     then m = stats /\ logs = torch_zeros_like stats
     else torch_split2 stats (half_channels l) = inr (m, logs)).

(** [pre(x0) * x_mask], the tensor on which the network is called. *)
Definition network_input (l : ResidualCouplingLayer fmt World)
  (x0 mask : Tensor fmt) : result (Tensor fmt) :=
  rbind (conv1d (pre l) x0) (fun h => pointwise (@fmul fmt) h mask).

(** At the element [(b, c, t)] of the transformed half, the arithmetic of
    [reverse=True] undoes that of [reverse=False]: with [m] and [logs] the
    statistics of the layer on [x],
    [((m + x1 * exp(logs) * mask) - m) * exp(-logs) * mask] is [x1]. *)
Definition undoes_at (m logs x mask : Tensor fmt) (n b c t : nat) : Prop :=
  let y1 := fadd (get m b c t)
              (fmul (fmul (get x b (n + c) t) (fexp (get logs b c t)))
                 (get mask b 0 t)) in
  fmul (fmul (fsub y1 (get m b c t)) (fexp (fneg (get logs b c t))))
    (get mask b 0 t)
  = get x b (n + c) t.

(** The other way round: the arithmetic of [reverse=False] undoes that of
    [reverse=True]. *)
Definition redoes_at (m logs x mask : Tensor fmt) (n b c t : nat) : Prop :=
  let z1 := fmul (fmul (fsub (get x b (n + c) t) (get m b c t))
                    (fexp (fneg (get logs b c t))))
              (get mask b 0 t) in
  fadd (get m b c t) (fmul (fmul z1 (fexp (get logs b c t))) (get mask b 0 t))
  = get x b (n + c) t.

(** A stage is exact on [x], from the state [w], when it is a flip, or a
    layer whose arithmetic in one direction is undone by that of the other
    at every element of a tensor of size [[B, C, T]]. *)
Definition stage_exact (B T : nat) (mask : Tensor fmt)
  (g : option (Tensor fmt)) (reverse : bool)
  (f : Flow fmt World) (x : Tensor fmt) (w : World) : Prop :=
  match f with
  | Coupling l =>
      forall m logs w',
        stats_trace l (map (firstn (half_channels l)) x) mask g w m logs w' ->
        forall b c t, b < B -> c < half_channels l -> t < T ->
          if reverse then redoes_at m logs x mask (half_channels l) b c t
          else undoes_at m logs x mask (half_channels l) b c t
  | FlipModule => True
  end.

(** Every stage of the list is exact on the tensor that reaches it when the
    stages are applied one after the other, in the direction [reverse],
    from [x] and the state [w]. *)
Fixpoint exact_along (B T : nat) (mask : Tensor fmt)
  (g : option (Tensor fmt)) (reverse : bool)
  (stages : list (Flow fmt World)) (x : Tensor fmt) (w : World) : Prop :=
  match stages with
  | [] => True
  | f :: rest =>
      stage_exact B T mask g reverse f x w /\
      forall (out : flow_ret fmt reverse) w',
        call f x mask g reverse w = (inr out, w') ->
        exact_along B T mask g reverse rest (ret_x out) w'
  end.

End Trace.

Arguments undoes_at {fmt} m logs x mask n b c t.
Arguments redoes_at {fmt} m logs x mask n b c t.

(** ** Sums over index ranges *)

(** [f 0 + (f 1 + (... + (f (n - 1) + 0)))]. *)
Definition sum_upto {fmt : Arith} (n : nat) (f : nat -> F fmt) : F fmt :=
  fold_right (@fadd fmt) (fzero fmt) (map f (seq 0 n)).

(** ** The stack, in the words of the specification *)

Section Stack.

Variable fmt : Arith.
Variable World : Type.

(** "Forward: iterate stages in construction order": the first layer, its
    flip, the second layer, its flip, and so on; the log-determinants are
    dropped. *)
Fixpoint forward_pairs (layers : list (ResidualCouplingLayer fmt World))
  (x x_mask : Tensor fmt) (g : option (Tensor fmt)) : M World (Tensor fmt) :=
  match layers with
  | [] => ret x
  | layer :: rest =>
      r <- ResidualCouplingLayer_forward layer x x_mask g false ;;
      forward_pairs rest (fst (Flip_forward (fst r) false)) x_mask g
  end.

(** "Reverse: iterate stages in reverse construction order": the flip of the
    last layer, the last layer, the flip before it, and so on down to the
    first layer. *)
Fixpoint reverse_pairs (layers : list (ResidualCouplingLayer fmt World))
  (x x_mask : Tensor fmt) (g : option (Tensor fmt)) : M World (Tensor fmt) :=
  match layers with
  | [] => ret x
  | layer :: rest =>
      y <- reverse_pairs rest x x_mask g ;;
      ResidualCouplingLayer_forward layer (Flip_forward y true) x_mask g true
  end.

(** The two stages that one iteration of the constructor's loop appends. *)
Definition layer_pair (layer : ResidualCouplingLayer fmt World)
  : list (Flow fmt World) :=
  [Coupling layer; FlipModule].

(** A stage of a stack of [half + half] channels whose sizes fit: a flip, or
    a layer of that many channels with the sizes of a constructed layer and
    a network that preserves shapes.  Nothing is asked of the values of the
    parameters, nor that the network be deterministic. *)
Definition flow_sized (half : nat) (g : option (Tensor fmt))
  (f : Flow fmt World) : Prop :=
  match f with
  | Coupling l =>
      layer_wf l /\ half_channels l = half /\
      enc_shape_preserving (enc l) (hidden_channels l) g
  | FlipModule => True
  end.

(** A stage whose sizes fit and whose network keeps to the whole of its
    contract for the conditioning [g]. *)
Definition flow_wf (half : nat) (g : option (Tensor fmt))
  (f : Flow fmt World) : Prop :=
  match f with
  | Coupling l =>
      layer_wf l /\ half_channels l = half /\
      enc_shape_preserving (enc l) (hidden_channels l) g /\
      enc_deterministic (enc l)
  | FlipModule => True
  end.

(** Every coupling layer among the stages is built with [mean_only=True],
    as the constructor of the stack builds them. *)
Definition mean_only_stage (f : Flow fmt World) : Prop :=
  match f with
  | Coupling l => mean_only l = true
  | FlipModule => True
  end.

End Stack.

(** [x] and [x'] hold the same values at every time step where the mask is
    one; at the other time steps they may differ. *)
Definition same_where_valid {fmt : Arith} (B C T : nat)
  (x x' mask : Tensor fmt) : Prop :=
  forall b c t, b < B -> c < C -> t < T ->
    get mask b 0 t = fone fmt -> get x b c t = get x' b c t.

(** ** Which halves are zero at the padded time steps *)

(** At the time steps where the mask is zero, [x] is zero or not finite on
    its first [n] channels when [fst st] holds, and on its next [n] channels
    when [snd st] holds. *)
Definition halves_masked {fmt : Arith} (n : nat) (st : bool * bool)
  (x mask : Tensor fmt) : Prop :=
  (fst st = true ->
   forall b c t, c < n -> get mask b 0 t = fzero fmt ->
     is_finite (get x b c t) = true -> get x b c t = fzero fmt) /\
  (snd st = true ->
   forall b c t, c < n -> get mask b 0 t = fzero fmt ->
     is_finite (get x b (n + c) t) = true -> get x b (n + c) t = fzero fmt).

(** What a stage does to that: a coupling layer keeps the first half and
    masks the second, a flip exchanges the halves. *)
Definition track_stage {fmt World} (st : bool * bool) (f : Flow fmt World)
  : bool * bool :=
  match f with
  | Coupling _ => (fst st, true)
  | FlipModule => (snd st, fst st)
  end.

(** ** Concrete modules, for the examples *)

(** A transform network without state that returns its input. *)
Definition id_net {fmt : Arith} : Network fmt unit :=
  fun h _ _ w => (inr h, w).

(** What the constructors draw in the examples: [pre] with weight one and
    bias zero, and [id_net] as the network. *)
Definition ex_init : LayerInit real_format unit :=
  @Build_LayerInit real_format unit
    (fun _ _ => 1%R) (fun _ => 0%R) (fun _ _ _ _ _ _ => inr id_net).

(** A layer of two channels after training, in exact arithmetic: [post] has
    weight zero and bias [shift], so that [m = shift * mask]. *)
Definition ex_shift (shift : R) : ResidualCouplingLayer real_format unit :=
  {| channels := 2;
     hidden_channels := 1;
     kernel_size := 1;
     dilation_rate := 1;
     n_layers := 1;
     half_channels := 1;
     mean_only := true;
     pre := Conv1d_new (fmt := real_format) 1 1 (fun _ _ => 1%R) (fun _ => 0%R);
     enc := id_net;
     post := Conv1d_new (fmt := real_format) 1 1
               (fun _ _ => 0%R) (fun _ => shift) |}.

Definition ex_trained : ResidualCouplingLayer real_format unit := ex_shift 1.

(** A layer with a learned scale ([mean_only=False]): [post] has weight zero
    and bias [(2, 1)], so that [m = 2 * mask] and [logs = mask]. *)
Definition ex_affine : ResidualCouplingLayer real_format unit :=
  {| channels := 2;
     hidden_channels := 1;
     kernel_size := 1;
     dilation_rate := 1;
     n_layers := 1;
     half_channels := 1;
     mean_only := false;
     pre := Conv1d_new (fmt := real_format) 1 1 (fun _ _ => 1%R) (fun _ => 0%R);
     enc := id_net;
     post := Conv1d_new (fmt := real_format) 1 2 (fun _ _ => 0%R)
               (fun o => match o with 0 => 2%R | _ => 1%R end) |}.

(** A trained stack of two flows whose layers shift by [1] and by [2]. *)
Definition ex_stack : ResidualCouplingBlock real_format unit :=
  {| block_channels := 2;
     block_hidden_channels := 1;
     block_kernel_size := 1;
     block_dilation_rate := 1;
     block_n_layers := 1;
     n_flows := 2;
     gin_channels := 0;
     flows := [Coupling (ex_shift 1); FlipModule;
               Coupling (ex_shift 2); FlipModule] |}.

(** An input of one batch element, two channels and two time steps, and a
    mask whose second time step is padding. *)
Definition ex_x : Tensor real_format := [[[1; 2]; [3; 4]]]%R.
Definition ex_mask : Tensor real_format := [[[1; 0]]]%R.

(** An input that is zero at the padded time step of [ex_mask]. *)
Definition ex_padded : Tensor real_format := [[[1; 0]; [3; 0]]]%R.

(** The example input with other values at the padded time step. *)
Definition ex_x_other_padding : Tensor real_format := [[[1; 9]; [3; 7]]]%R.

(** The layer with a learned scale, in the arithmetic with infinities. *)
Definition xex_affine : ResidualCouplingLayer xreal_format unit :=
  {| channels := 2;
     hidden_channels := 1;
     kernel_size := 1;
     dilation_rate := 1;
     n_layers := 1;
     half_channels := 1;
     mean_only := false;
     pre := Conv1d_new (fmt := xreal_format) 1 1
              (fun _ _ => Xfin 1) (fun _ => Xfin 0);
     enc := id_net;
     post := Conv1d_new (fmt := xreal_format) 1 2 (fun _ _ => Xfin 0)
               (fun o => match o with 0 => Xfin 2 | _ => Xfin 1 end) |}.

(** The example input with an infinity at the padded time step, in the
    first half and in the second half. *)
Definition xex_inf_first : Tensor xreal_format :=
  [[[Xfin 1; Xinf false]; [Xfin 3; Xfin 4]]].
Definition xex_mask : Tensor xreal_format := [[[Xfin 1; Xfin 0]]].

(** In single precision: a layer after training whose [post] has weight
    zero and bias one, so that [m = mask]; a stack of one flow with that
    layer; and an input whose second channel holds [2^-30], with a mask of
    ones. *)
Definition b32_layer (exp32 : spec_float -> spec_float)
  : ResidualCouplingLayer (binary32 exp32) unit :=
  {| channels := 2;
     hidden_channels := 1;
     kernel_size := 1;
     dilation_rate := 1;
     n_layers := 1;
     half_channels := 1;
     mean_only := true;
     pre := Conv1d_new (fmt := binary32 exp32) 1 1
              (fun _ _ => b32_one) (fun _ => S754_zero false);
     enc := id_net;
     post := Conv1d_new (fmt := binary32 exp32) 1 1
               (fun _ _ => S754_zero false) (fun _ => b32_one) |}.

Definition b32_stack (exp32 : spec_float -> spec_float)
  : ResidualCouplingBlock (binary32 exp32) unit :=
  {| block_channels := 2;
     block_hidden_channels := 1;
     block_kernel_size := 1;
     block_dilation_rate := 1;
     block_n_layers := 1;
     n_flows := 1;
     gin_channels := 0;
     flows := [Coupling (b32_layer exp32); FlipModule] |}.

Definition b32_small : spec_float := S754_finite false 8388608 (-53).
Definition b32_x : list (list (list spec_float)) :=
  [[[b32_one]; [b32_small]]].
Definition b32_mask : list (list (list spec_float)) := [[[b32_one]]].

(** * Text front end: [text/__init__.py] and [text/mandarin.py]

    A Python [str] is the list of its code points. *)

Abbreviation pystr := (list N) (only parsing).

Fixpoint str_eqb (s s' : pystr) : bool :=
  match s, s' with
  | [], [] => true
  | c :: r, c' :: r' => N.eqb c c' && str_eqb r r'
  | _, _ => false
  end.

(** A [dict] from strings to integers, in the order of insertion. *)
Abbreviation dict := (list (list N * nat)) (only parsing).

(** [d[k] = v]: the value of a key that is present is replaced, a new key
    goes to the end. *)
Fixpoint dict_set (k : pystr) (v : nat) (d : dict) : dict :=
  match d with
  | [] => [(k, v)]
  | (k', v') :: d' =>
      if str_eqb k k' then (k, v) :: d' else (k', v') :: dict_set k v d'
  end.

Fixpoint dict_get (k : pystr) (d : dict) : option nat :=
  match d with
  | [] => None
  | (k', v) :: d' => if str_eqb k k' then Some v else dict_get k d'
  end.

Definition enumerate {A} (l : list A) : list (nat * A) :=
  combine (seq 0 (length l)) l.

(** [{s: i for i, s in enumerate(symbols)}].  The list [symbols] of
    [text/symbols.py] is an argument. *)
Definition _symbol_to_id (symbols : list pystr) : dict :=
  fold_left (fun d (p : nat * pystr) => dict_set (snd p) (fst p) d)
    (enumerate symbols) [].

Inductive text_error : Type :=
| KeyError (key : pystr).

Fixpoint map_or_raise {A B} (f : A -> text_error + B) (xs : list A)
  : text_error + list B :=
  match xs with
  | [] => inr []
  | x :: xs' =>
      match f x with
      | inl e => inl e
      | inr y =>
          match map_or_raise f xs' with
          | inl e => inl e
          | inr ys => inr (y :: ys)
          end
      end
  end.

(** [[_symbol_to_id[symbol] for symbol in cleaned_text]]: the symbols of a
    string are its characters, as strings of length one. *)
Definition cleaned_text_to_sequence (symbols : list pystr)
  (cleaned_text : pystr) : text_error + list nat :=
  let sequence :=
    map_or_raise
      (fun c : N =>
         let symbol := [c] in
         match dict_get symbol (_symbol_to_id symbols) with
         | Some i => inr i
         | None => inl (KeyError symbol)
         end)
      cleaned_text in
  sequence.

(** The last position of [s] in [l]. *)
Fixpoint last_index (s : pystr) (l : list pystr) : option nat :=
  match l with
  | [] => None
  | a :: l' =>
      match last_index s l' with
      | Some i => Some (S i)
      | None => if str_eqb s a then Some 0 else None
      end
  end.

(** A table of symbols for the examples: ["_", "a", "b", "a"]. *)
Definition ex_symbols : list pystr := [[95]; [97]; [98]; [97]]%N.

(** ** [text/mandarin.py]: regular expressions of literal characters

    The patterns of the two tables are sequences of literal characters,
    compiled with or without [re.IGNORECASE]; the replacements hold no
    backslash, so that [re.sub] inserts them as they are. *)

(** A compiled pattern: for each position, the code points it matches. *)
Abbreviation regex := (list (list N)) (only parsing).

Fixpoint mem (c : N) (cls : list N) : bool :=
  match cls with
  | [] => false
  | c' :: cls' => N.eqb c c' || mem c cls'
  end.

(** The code points that match a lower-case ASCII letter when case is
    ignored: the letter, its capital, and for [i], [k] and [s] the letters
    U+0130 and U+0131, U+212A, and U+017F, whose lower case is the
    letter or is tied to it. *)
Definition ignorecase_class (c : N) : list N :=
  (if N.eqb c 0x69 then [0x69; 0x49; 0x130; 0x131]
   else if N.eqb c 0x6b then [0x6b; 0x4b; 0x212a]
   else if N.eqb c 0x73 then [0x73; 0x53; 0x17f]
   else [c; c - 32])%N.

(** [re.compile(s, re.IGNORECASE)] and [re.compile(s)] for a string [s] of
    literal characters (lower-case ASCII letters when case is ignored). *)
Definition re_compile (s : pystr) (ignorecase : bool) : regex :=
  map (fun c => if ignorecase then ignorecase_class c else [c]) s.

(** The pattern matches at the start of [s]. *)
Fixpoint matches (pat : regex) (s : pystr) : bool :=
  match pat, s with
  | [], _ => true
  | cls :: pat', c :: s' => mem c cls && matches pat' s'
  | _ :: _, [] => false
  end.

(** [re.sub]: the matches are found from left to right and do not overlap;
    [skip] is the number of characters of the current match still to pass.
    An empty pattern matches before every character and at the end. *)
Fixpoint re_sub_from (skip : nat) (pat : regex) (repl s : pystr) : pystr :=
  match s with
  | [] =>
      match skip, pat with
      | 0, [] => repl
      | _, _ => []
      end
  | c :: s' =>
      match skip with
      | S k => re_sub_from k pat repl s'
      | 0 =>
          match pat with
          | [] => repl ++ c :: re_sub_from 0 pat repl s'
          | _ :: _ =>
              if matches pat s
              then repl ++ re_sub_from (length pat - 1) pat repl s'
              else c :: re_sub_from 0 pat repl s'
          end
      end
  end.

Definition re_sub (pat : regex) (repl s : pystr) : pystr :=
  re_sub_from 0 pat repl s.

(** The pairs (Latin letter, bopomofo) of [_latin_to_bopomofo], as code
    points. *)
Definition latin_table : list (list N * list N) :=
  [
    (* a -> ㄟˉ *)
    ([0x61],
     [0x311f; 0x2c9]);
    (* b -> ㄅㄧˋ *)
    ([0x62],
     [0x3105; 0x3127; 0x2cb]);
    (* c -> ㄙㄧˉ *)
    ([0x63],
     [0x3119; 0x3127; 0x2c9]);
    (* d -> ㄉㄧˋ *)
    ([0x64],
     [0x3109; 0x3127; 0x2cb]);
    (* e -> ㄧˋ *)
    ([0x65],
     [0x3127; 0x2cb]);
    (* f -> ㄝˊㄈㄨˋ *)
    ([0x66],
     [0x311d; 0x2ca; 0x3108; 0x3128; 0x2cb]);
    (* g -> ㄐㄧˋ *)
    ([0x67],
     [0x3110; 0x3127; 0x2cb]);
    (* h -> ㄝˇㄑㄩˋ *)
    ([0x68],
     [0x311d; 0x2c7; 0x3111; 0x3129; 0x2cb]);
    (* i -> ㄞˋ *)
    ([0x69],
     [0x311e; 0x2cb]);
    (* j -> ㄐㄟˋ *)
    ([0x6a],
     [0x3110; 0x311f; 0x2cb]);
    (* k -> ㄎㄟˋ *)
    ([0x6b],
     [0x310e; 0x311f; 0x2cb]);
    (* l -> ㄝˊㄛˋ *)
    ([0x6c],
     [0x311d; 0x2ca; 0x311b; 0x2cb]);
    (* m -> ㄝˊㄇㄨˋ *)
    ([0x6d],
     [0x311d; 0x2ca; 0x3107; 0x3128; 0x2cb]);
    (* n -> ㄣˉ *)
    ([0x6e],
     [0x3123; 0x2c9]);
    (* o -> ㄡˉ *)
    ([0x6f],
     [0x3121; 0x2c9]);
    (* p -> ㄆㄧˉ *)
    ([0x70],
     [0x3106; 0x3127; 0x2c9]);
    (* q -> ㄎㄧㄡˉ *)
    ([0x71],
     [0x310e; 0x3127; 0x3121; 0x2c9]);
    (* r -> ㄚˋ *)
    ([0x72],
     [0x311a; 0x2cb]);
    (* s -> ㄝˊㄙˋ *)
    ([0x73],
     [0x311d; 0x2ca; 0x3119; 0x2cb]);
    (* t -> ㄊㄧˋ *)
    ([0x74],
     [0x310a; 0x3127; 0x2cb]);
    (* u -> ㄧㄡˉ *)
    ([0x75],
     [0x3127; 0x3121; 0x2c9]);
    (* v -> ㄨㄧˉ *)
    ([0x76],
     [0x3128; 0x3127; 0x2c9]);
    (* w -> ㄉㄚˋㄅㄨˋㄌㄧㄡˋ *)
    ([0x77],
     [0x3109; 0x311a; 0x2cb; 0x3105; 0x3128; 0x2cb; 0x310c; 0x3127; 0x3121; 0x2cb]);
    (* x -> ㄝˉㄎㄨˋㄙˋ *)
    ([0x78],
     [0x311d; 0x2c9; 0x310e; 0x3128; 0x2cb; 0x3119; 0x2cb]);
    (* y -> ㄨㄞˋ *)
    ([0x79],
     [0x3128; 0x311e; 0x2cb]);
    (* z -> ㄗㄟˋ *)
    ([0x7a],
     [0x3117; 0x311f; 0x2cb])
  ]%N.

(** The pairs (bopomofo, IPA) of [_bopomofo_to_ipa], as code points. *)
Definition bopomofo_table : list (list N * list N) :=
  [
    (* ㄅㄛ -> p⁼wo *)
    ([0x3105; 0x311b],
     [0x70; 0x207c; 0x77; 0x6f]);
    (* ㄆㄛ -> pʰwo *)
    ([0x3106; 0x311b],
     [0x70; 0x2b0; 0x77; 0x6f]);
    (* ㄇㄛ -> mwo *)
    ([0x3107; 0x311b],
     [0x6d; 0x77; 0x6f]);
    (* ㄈㄛ -> fwo *)
    ([0x3108; 0x311b],
     [0x66; 0x77; 0x6f]);
    (* ㄅ -> p⁼ *)
    ([0x3105],
     [0x70; 0x207c]);
    (* ㄆ -> pʰ *)
    ([0x3106],
     [0x70; 0x2b0]);
    (* ㄇ -> m *)
    ([0x3107],
     [0x6d]);
    (* ㄈ -> f *)
    ([0x3108],
     [0x66]);
    (* ㄉ -> t⁼ *)
    ([0x3109],
     [0x74; 0x207c]);
    (* ㄊ -> tʰ *)
    ([0x310a],
     [0x74; 0x2b0]);
    (* ㄋ -> n *)
    ([0x310b],
     [0x6e]);
    (* ㄌ -> l *)
    ([0x310c],
     [0x6c]);
    (* ㄍ -> k⁼ *)
    ([0x310d],
     [0x6b; 0x207c]);
    (* ㄎ -> kʰ *)
    ([0x310e],
     [0x6b; 0x2b0]);
    (* ㄏ -> x *)
    ([0x310f],
     [0x78]);
    (* ㄐ -> tʃ⁼ *)
    ([0x3110],
     [0x74; 0x283; 0x207c]);
    (* ㄑ -> tʃʰ *)
    ([0x3111],
     [0x74; 0x283; 0x2b0]);
    (* ㄒ -> ʃ *)
    ([0x3112],
     [0x283]);
    (* ㄓ -> ts`⁼ *)
    ([0x3113],
     [0x74; 0x73; 0x60; 0x207c]);
    (* ㄔ -> ts`ʰ *)
    ([0x3114],
     [0x74; 0x73; 0x60; 0x2b0]);
    (* ㄕ -> s` *)
    ([0x3115],
     [0x73; 0x60]);
    (* ㄖ -> ɹ` *)
    ([0x3116],
     [0x279; 0x60]);
    (* ㄗ -> ts⁼ *)
    ([0x3117],
     [0x74; 0x73; 0x207c]);
    (* ㄘ -> tsʰ *)
    ([0x3118],
     [0x74; 0x73; 0x2b0]);
    (* ㄙ -> s *)
    ([0x3119],
     [0x73]);
    (* ㄚ -> a *)
    ([0x311a],
     [0x61]);
    (* ㄛ -> o *)
    ([0x311b],
     [0x6f]);
    (* ㄜ -> ə *)
    ([0x311c],
     [0x259]);
    (* ㄝ -> ɛ *)
    ([0x311d],
     [0x25b]);
    (* ㄞ -> aɪ *)
    ([0x311e],
     [0x61; 0x26a]);
    (* ㄟ -> eɪ *)
    ([0x311f],
     [0x65; 0x26a]);
    (* ㄠ -> ɑʊ *)
    ([0x3120],
     [0x251; 0x28a]);
    (* ㄡ -> oʊ *)
    ([0x3121],
     [0x6f; 0x28a]);
    (* ㄧㄢ -> jɛn *)
    ([0x3127; 0x3122],
     [0x6a; 0x25b; 0x6e]);
    (* ㄩㄢ -> ɥæn *)
    ([0x3129; 0x3122],
     [0x265; 0xe6; 0x6e]);
    (* ㄢ -> an *)
    ([0x3122],
     [0x61; 0x6e]);
    (* ㄧㄣ -> in *)
    ([0x3127; 0x3123],
     [0x69; 0x6e]);
    (* ㄩㄣ -> ɥn *)
    ([0x3129; 0x3123],
     [0x265; 0x6e]);
    (* ㄣ -> ən *)
    ([0x3123],
     [0x259; 0x6e]);
    (* ㄤ -> ɑŋ *)
    ([0x3124],
     [0x251; 0x14b]);
    (* ㄧㄥ -> iŋ *)
    ([0x3127; 0x3125],
     [0x69; 0x14b]);
    (* ㄨㄥ -> ʊŋ *)
    ([0x3128; 0x3125],
     [0x28a; 0x14b]);
    (* ㄩㄥ -> jʊŋ *)
    ([0x3129; 0x3125],
     [0x6a; 0x28a; 0x14b]);
    (* ㄥ -> əŋ *)
    ([0x3125],
     [0x259; 0x14b]);
    (* ㄦ -> əɻ *)
    ([0x3126],
     [0x259; 0x27b]);
    (* ㄧ -> i *)
    ([0x3127],
     [0x69]);
    (* ㄨ -> u *)
    ([0x3128],
     [0x75]);
    (* ㄩ -> ɥ *)
    ([0x3129],
     [0x265]);
    (* ˉ -> → *)
    ([0x2c9],
     [0x2192]);
    (* ˊ -> ↑ *)
    ([0x2ca],
     [0x2191]);
    (* ˇ -> ↓↑ *)
    ([0x2c7],
     [0x2193; 0x2191]);
    (* ˋ -> ↓ *)
    ([0x2cb],
     [0x2193]);
    (* ˙ -> (empty) *)
    ([0x2d9],
     []);
    (* ， -> , *)
    ([0xff0c],
     [0x2c]);
    (* 。 -> . *)
    ([0x3002],
     [0x2e]);
    (* ！ -> ! *)
    ([0xff01],
     [0x21]);
    (* ？ -> ? *)
    ([0xff1f],
     [0x3f]);
    (* — -> - *)
    ([0x2014],
     [0x2d])
  ]%N.

Definition _latin_to_bopomofo : list (list (list N) * list N) :=
  map (fun x => (re_compile (fst x) true, snd x)) latin_table.

Definition _bopomofo_to_ipa : list (list (list N) * list N) :=
  map (fun x => (re_compile (fst x) false, snd x)) bopomofo_table.

(** [for regex, replacement in table: text = re.sub(regex, replacement,
    text)]. *)
Definition sub_all (table : list (list (list N) * list N)) (text : pystr)
  : pystr :=
  fold_left (fun text p => re_sub (fst p) (snd p) text) table text.

Definition latin_to_bopomofo (text : pystr) : pystr :=
  sub_all _latin_to_bopomofo text.

Definition bopomofo_to_ipa (text : pystr) : pystr :=
  sub_all _bopomofo_to_ipa text.

(** Some pattern of the table matches the character [c] alone. *)
Definition matched (table : list (list (list N) * list N)) (c : N) : bool :=
  existsb (fun p => matches (fst p) [c]) table.

(** What a table of one-character patterns makes of the character [c]: the
    replacement of the first pattern that matches it, or [c] itself. *)
Fixpoint spell (table : list (list (list N) * list N)) (c : N) : pystr :=
  match table with
  | [] => [c]
  | (pat, repl) :: table' => if matches pat [c] then repl else spell table' c
  end.

(** Every pattern is one character long, and no replacement holds a
    character that a later pattern matches. *)
Fixpoint one_pass (table : list (list (list N) * list N)) : bool :=
  match table with
  | [] => true
  | (pat, repl) :: table' =>
      (length pat =? 1) && forallb (fun c => negb (matched table' c)) repl
      && one_pass table'
  end.

Definition is_ascii_letter (c : N) : bool :=
  (N.leb 65 c && N.leb c 90) || (N.leb 97 c && N.leb c 122)%N.

(** The characters that the first positions of the patterns match. *)
Definition heads (table : list (list (list N) * list N)) : list N :=
  flat_map (fun p => hd [] (fst p)) table.

(** The characters that the patterns of one position match. *)
Definition singles (table : list (list (list N) * list N)) : list N :=
  flat_map (fun p => match fst p with [cls] => cls | _ => [] end) table.

(** No pattern is empty, no replacement holds a character of [bad], and
    the first position of every pattern matches characters of [bad]
    only. *)
Definition settles (bad : list N) (table : list (list (list N) * list N))
  : bool :=
  forallb (fun p =>
             negb (length (fst p) =? 0)
             && forallb (fun c => negb (mem c bad)) (snd p)
             && forallb (fun c => mem c bad) (hd [] (fst p)))
    table.

(** * Properties *)

(** ** Lists *)

Lemma mapM_pure {A B} (f : A -> result B) (g : A -> B) (xs : list A) :
  (forall x, In x xs -> f x = inr (g x)) -> mapM f xs = inr (map g xs).
Proof.
  induction xs as [|x xs IH]; intros H; simpl; [reflexivity|].
  rewrite (H x (or_introl eq_refl)). simpl.
  rewrite IH by (intros; apply H; now right). reflexivity.
Qed.

Lemma zipM_pure {A B C} (f : A -> B -> result C) (g : A -> B -> C) :
  forall xs ys,
    length xs = length ys ->
    (forall x y, In (x, y) (combine xs ys) -> f x y = inr (g x y)) ->
    zipM f xs ys = inr (zipWith g xs ys).
Proof.
  induction xs as [|x xs IH]; intros [|y ys] Hl H; simpl in *;
    try discriminate; [reflexivity|].
  rewrite (H x y (or_introl eq_refl)). simpl.
  rewrite IH; [reflexivity|lia|]. intros; apply H; now right.
Qed.

Lemma zipWith_length {A B C} (f : A -> B -> C) :
  forall xs ys, length xs = length ys -> length (zipWith f xs ys) = length xs.
Proof.
  induction xs as [|x xs IH]; intros [|y ys] H; simpl in *;
    try discriminate; [reflexivity|].
  f_equal. apply IH. lia.
Qed.

Lemma nth_zipWith {A B C} (f : A -> B -> C) (dx : A) (dy : B) (d : C) :
  forall xs ys i,
    i < length xs -> i < length ys ->
    nth i (zipWith f xs ys) d = f (nth i xs dx) (nth i ys dy).
Proof.
  induction xs as [|x xs IH]; intros [|y ys] [|i] H1 H2; simpl in *;
    try lia; [reflexivity|].
  apply IH; lia.
Qed.

Lemma nth_map' {A B} (f : A -> B) (dx : A) (d : B) (xs : list A) (i : nat) :
  i < length xs -> nth i (map f xs) d = f (nth i xs dx).
Proof.
  intros H. rewrite (nth_indep _ d (f dx)) by (now rewrite length_map).
  apply map_nth.
Qed.

Lemma In_combine_nth {A B} (dx : A) (dy : B) :
  forall xs ys x y,
    In (x, y) (combine xs ys) ->
    exists i, i < length xs /\ i < length ys /\
              nth i xs dx = x /\ nth i ys dy = y.
Proof.
  induction xs as [|a xs IH]; intros [|b ys] x y H; simpl in *;
    try contradiction.
  destruct H as [H|H].
  - inversion H; subst. exists 0. repeat split; lia.
  - destruct (IH _ _ _ H) as (i & H1 & H2 & H3 & H4).
    exists (S i). repeat split; try lia; assumption.
Qed.

Lemma broadcast_same {A B C} (f : A -> B -> result C) xs ys :
  length xs = length ys -> broadcast f xs ys = zipM f xs ys.
Proof.
  intros H. unfold broadcast. rewrite H, Nat.eqb_refl. reflexivity.
Qed.

Lemma broadcast_one {A B C} (f : A -> B -> result C) xs y :
  broadcast f xs [y] = mapM (fun x => f x y) xs.
Proof.
  unfold broadcast. destruct xs as [|x [|x' xs]]; simpl; reflexivity.
Qed.

(** ** Shapes and elements *)

Lemma has_mshape_ok {A} C T (m : list (list A)) :
  has_mshape C T m = true -> mshape C T m.
Proof.
  unfold has_mshape, mshape. intros H.
  apply andb_true_iff in H. destruct H as [H1 H2].
  apply Nat.eqb_eq in H1. split; [assumption|].
  apply Forall_forall. intros r Hr.
  rewrite forallb_forall in H2. apply Nat.eqb_eq. now apply H2.
Qed.

Lemma has_shape_ok {A} B C T (x : list (list (list A))) :
  has_shape B C T x = true -> shape B C T x.
Proof.
  unfold has_shape, shape. intros H.
  apply andb_true_iff in H. destruct H as [H1 H2].
  apply Nat.eqb_eq in H1. split; [assumption|].
  apply Forall_forall. intros m Hm.
  rewrite forallb_forall in H2. apply has_mshape_ok. now apply H2.
Qed.

Lemma shape_nth {A} B C T (x : list (list (list A))) b :
  shape B C T x -> b < B -> mshape C T (nth b x []).
Proof.
  intros [H1 H2] Hb. rewrite Forall_forall in H2. apply H2.
  apply nth_In. lia.
Qed.

Lemma mshape_nth {A} C T (m : list (list A)) c :
  mshape C T m -> c < C -> length (nth c m []) = T.
Proof.
  intros [H1 H2] Hc. rewrite Forall_forall in H2. apply H2.
  apply nth_In. lia.
Qed.

Lemma mshape_intro {A} C T (m : list (list A)) :
  length m = C -> (forall c, c < C -> length (nth c m []) = T) -> mshape C T m.
Proof.
  intros H1 H2. split; [assumption|]. apply Forall_forall. intros r Hr.
  destruct (In_nth _ _ [] Hr) as (c & Hc & <-). apply H2. lia.
Qed.

Lemma shape_intro {A} B C T (x : list (list (list A))) :
  length x = B -> (forall b, b < B -> mshape C T (nth b x [])) -> shape B C T x.
Proof.
  intros H1 H2. split; [assumption|]. apply Forall_forall. intros m Hm.
  destruct (In_nth _ _ [] Hm) as (b & Hb & <-). apply H2. lia.
Qed.

Lemma mshape_hd {A} C T (m : list (list A)) :
  mshape C T m -> 0 < C -> length (hd [] m) = T.
Proof.
  intros [Hl Hr] HC. destruct m as [|r m]; simpl in *; [lia|].
  now inversion Hr.
Qed.

Lemma mat_ext {A} (d : A) C T (m m' : list (list A)) :
  mshape C T m -> mshape C T m' ->
  (forall c t, c < C -> t < T -> nth t (nth c m []) d = nth t (nth c m' []) d) ->
  m = m'.
Proof.
  intros Hm Hm' H. apply (nth_ext _ _ [] []).
  - destruct Hm, Hm'. congruence.
  - intros c Hc. assert (c < C) by (destruct Hm; lia).
    apply (nth_ext _ _ d d).
    + rewrite (mshape_nth Hm), (mshape_nth Hm'); auto.
    + intros t Ht. rewrite (mshape_nth Hm) in Ht by assumption. now apply H.
Qed.

Lemma tensor_ext {fmt : Format} B C T (x y : Tensor fmt) :
  shape B C T x -> shape B C T y ->
  (forall b c t, b < B -> c < C -> t < T -> get x b c t = get y b c t) ->
  x = y.
Proof.
  intros Hx Hy H. apply (nth_ext _ _ [] []).
  - destruct Hx, Hy. congruence.
  - intros b Hb. assert (b < B) by (destruct Hx; lia).
    apply (@mat_ext _ (fzero fmt) C T);
      try (apply shape_nth with (B := B); assumption).
    intros c t Hc Ht. now apply H.
Qed.

Lemma get_outside {fmt : Format} B C T (x : Tensor fmt) b c t :
  shape B C T x -> B <= b \/ C <= c \/ T <= t -> get x b c t = fzero fmt.
Proof.
  intros Hx H. unfold get.
  destruct (Nat.lt_ge_cases b B) as [Hb|Hb].
  - pose proof (shape_nth Hx Hb) as Hm.
    destruct (Nat.lt_ge_cases c C) as [Hc|Hc].
    + apply nth_overflow. rewrite (mshape_nth Hm Hc). lia.
    + rewrite (nth_overflow (nth b x [])) by (destruct Hm; lia).
      now destruct t.
  - rewrite (nth_overflow x) by (destruct Hx; lia).
    destruct c, t; reflexivity.
Qed.

(** ** Elementwise operators *)

Lemma broadcast_vec {A} (f : A -> A -> A) (r s : list A) :
  length r = length s ->
  broadcast (fun u v => inr (f u v)) r s = inr (zipWith f r s).
Proof.
  intros H. rewrite broadcast_same by assumption.
  apply zipM_pure; auto.
Qed.

Lemma broadcast_mat_same {A} (f : A -> A -> A) C T (m m' : list (list A)) :
  mshape C T m -> mshape C T m' ->
  broadcast (broadcast (fun u v => inr (f u v))) m m'
  = inr (zipWith (zipWith f) m m').
Proof.
  intros Hm Hm'. assert (Hl : length m = length m') by (destruct Hm, Hm'; congruence).
  rewrite broadcast_same by assumption.
  apply zipM_pure; [assumption|]. intros r s Hin.
  destruct (In_combine_nth [] [] _ _ _ _ Hin) as (c & H1 & H2 & <- & <-).
  apply broadcast_vec.
  rewrite (mshape_nth Hm), (mshape_nth Hm'); destruct Hm, Hm'; auto; lia.
Qed.

Lemma broadcast_mat_one {A} (f : A -> A -> A) C T (m : list (list A))
  (s : list A) :
  mshape C T m -> length s = T ->
  broadcast (broadcast (fun u v => inr (f u v))) m [s]
  = inr (map (fun r => zipWith f r s) m).
Proof.
  intros Hm Hs. rewrite broadcast_one.
  apply mapM_pure. intros r Hr. apply broadcast_vec.
  destruct Hm as [_ Hm]. rewrite Forall_forall in Hm. rewrite (Hm r Hr). auto.
Qed.

(** Two tensors of the same size. *)
Lemma pointwise_same_ok {fmt : Format} (f : F fmt -> F fmt -> F fmt)
  B C T (x y : Tensor fmt) :
  shape B C T x -> shape B C T y ->
  exists r, pointwise f x y = inr r /\ shape B C T r /\
    forall b c t, b < B -> c < C -> t < T ->
      get r b c t = f (get x b c t) (get y b c t).
Proof.
  intros Hx Hy.
  exists (zipWith (zipWith (zipWith f)) x y).
  assert (Hl : length x = length y) by (destruct Hx, Hy; congruence).
  assert (HB : length x = B) by (destruct Hx; assumption).
  split; [|split].
  - unfold pointwise. rewrite broadcast_same by assumption.
    apply zipM_pure; [assumption|]. intros m m' Hin.
    destruct (In_combine_nth [] [] _ _ _ _ Hin) as (b & H1 & H2 & <- & <-).
    apply broadcast_mat_same with (C := C) (T := T);
      apply shape_nth with (B := B); auto; lia.
  - apply shape_intro; [rewrite zipWith_length; auto|].
    intros b Hb.
    rewrite (nth_zipWith _ [] []) by lia.
    pose proof (shape_nth Hx Hb) as Hm. pose proof (shape_nth Hy Hb) as Hm'.
    assert (length (nth b x []) = length (nth b y [])) by (destruct Hm, Hm'; congruence).
    apply mshape_intro; [rewrite zipWith_length; destruct Hm; auto|].
    intros c Hc. rewrite (nth_zipWith _ [] []) by (destruct Hm, Hm'; lia).
    rewrite zipWith_length; rewrite (mshape_nth Hm) by assumption; auto.
    now rewrite (mshape_nth Hm').
  - intros b c t Hb Hc Ht. unfold get.
    pose proof (shape_nth Hx Hb) as Hm. pose proof (shape_nth Hy Hb) as Hm'.
    rewrite (nth_zipWith _ [] []) by lia.
    rewrite (nth_zipWith _ [] []) by (destruct Hm, Hm'; lia).
    apply nth_zipWith.
    + now rewrite (mshape_nth Hm).
    + now rewrite (mshape_nth Hm').
Qed.

Lemma mshape_one {A} T (m : list (list A)) :
  mshape 1 T m -> exists s, m = [s] /\ length s = T.
Proof.
  intros [H1 H2]. destruct m as [|s [|s' m]]; try discriminate.
  exists s. split; [reflexivity|]. now inversion H2.
Qed.

(** A tensor and a mask of one channel. *)
Lemma pointwise_mask_ok {fmt : Format} (f : F fmt -> F fmt -> F fmt)
  B C T (x mask : Tensor fmt) :
  shape B C T x -> shape B 1 T mask ->
  exists r, pointwise f x mask = inr r /\ shape B C T r /\
    forall b c t, b < B -> c < C -> t < T ->
      get r b c t = f (get x b c t) (get mask b 0 t).
Proof.
  intros Hx Hy.
  exists (zipWith (fun m k => map (fun r => zipWith f r (hd [] k)) m) x mask).
  assert (Hl : length x = length mask) by (destruct Hx, Hy; congruence).
  assert (HB : length x = B) by (destruct Hx; assumption).
  split; [|split].
  - unfold pointwise. rewrite broadcast_same by assumption.
    apply zipM_pure; [assumption|]. intros m k Hin.
    destruct (In_combine_nth [] [] _ _ _ _ Hin) as (b & H1 & H2 & <- & <-).
    assert (Hb : b < B) by lia.
    destruct (mshape_one (shape_nth Hy Hb)) as (s & -> & Hs).
    apply broadcast_mat_one with (C := C) (T := T); auto.
    apply shape_nth with (B := B); auto.
  - apply shape_intro; [rewrite zipWith_length; auto|].
    intros b Hb.
    rewrite (nth_zipWith _ [] []) by lia.
    pose proof (shape_nth Hx Hb) as Hm.
    destruct (mshape_one (shape_nth Hy Hb)) as (s & -> & Hs). simpl.
    apply mshape_intro; [rewrite length_map; destruct Hm; auto|].
    intros c Hc. rewrite (nth_map' _ []) by (destruct Hm; lia).
    rewrite zipWith_length; rewrite (mshape_nth Hm) by assumption; auto.
  - intros b c t Hb Hc Ht. unfold get.
    pose proof (shape_nth Hx Hb) as Hm.
    rewrite (nth_zipWith _ [] []) by lia.
    destruct (mshape_one (shape_nth Hy Hb)) as (s & -> & Hs). simpl.
    rewrite (nth_map' _ []) by (destruct Hm; lia).
    apply nth_zipWith.
    + now rewrite (mshape_nth Hm).
    + lia.
Qed.

Lemma shape_tmap {A} (f : A -> A) B C T (x : list (list (list A))) :
  shape B C T x -> shape B C T (tmap f x).
Proof.
  intros Hx. unfold tmap.
  apply shape_intro; [rewrite length_map; now destruct Hx|].
  intros b Hb. pose proof (shape_nth Hx Hb) as Hm.
  rewrite (nth_map' _ []) by (destruct Hx; lia).
  apply mshape_intro; [rewrite length_map; now destruct Hm|].
  intros c Hc. rewrite (nth_map' _ []) by (destruct Hm; lia).
  rewrite length_map. now apply (mshape_nth Hm).
Qed.

Lemma get_tmap {fmt : Format} (f : F fmt -> F fmt) B C T (x : Tensor fmt)
  b c t :
  shape B C T x -> b < B -> c < C -> t < T ->
  get (tmap f x) b c t = f (get x b c t).
Proof.
  intros Hx Hb Hc Ht. unfold get, tmap.
  pose proof (shape_nth Hx Hb) as Hm.
  rewrite (nth_map' _ []) by (destruct Hx; lia).
  rewrite (nth_map' _ []) by (destruct Hm; lia).
  apply nth_map'. now rewrite (mshape_nth Hm).
Qed.

(** ** Split and concatenation along the channel axis *)

Lemma split_ok {A} B n T (x : list (list (list A))) :
  shape B (n + n) T x ->
  torch_split2 x n = inr (map (firstn n) x, map (@skipn _ n) x).
Proof.
  intros Hx. unfold torch_split2.
  rewrite mapM_pure with (g := fun m => (firstn n m, skipn n m)).
  - simpl. rewrite !map_map. reflexivity.
  - intros m Hm. destruct Hx as [_ Hx]. rewrite Forall_forall in Hx.
    destruct (Hx m Hm) as [-> _]. now rewrite Nat.eqb_refl.
Qed.

Arguments split_ok [A B n T x] _.

Lemma shape_firstn {A} B n T (x : list (list (list A))) :
  shape B (n + n) T x -> shape B n T (map (firstn n) x).
Proof.
  intros Hx. apply shape_intro; [rewrite length_map; now destruct Hx|].
  intros b Hb. rewrite (nth_map' _ []) by (destruct Hx; lia).
  destruct (shape_nth Hx Hb) as [H1 H2]. split.
  - rewrite length_firstn. lia.
  - apply Forall_forall. intros r Hr. rewrite Forall_forall in H2.
    apply H2. rewrite <- (firstn_skipn n). apply in_or_app. now left.
Qed.

Arguments shape_firstn [A B n T x] _.

Lemma shape_skipn {A} B n T (x : list (list (list A))) :
  shape B (n + n) T x -> shape B n T (map (@skipn _ n) x).
Proof.
  intros Hx. apply shape_intro; [rewrite length_map; now destruct Hx|].
  intros b Hb. rewrite (nth_map' _ []) by (destruct Hx; lia).
  destruct (shape_nth Hx Hb) as [H1 H2]. split.
  - rewrite length_skipn. lia.
  - apply Forall_forall. intros r Hr. rewrite Forall_forall in H2.
    apply H2. rewrite <- (firstn_skipn n). apply in_or_app. now right.
Qed.

Arguments shape_skipn [A B n T x] _.

Lemma get_firstn {fmt : Format} B n T (x : Tensor fmt) b c t :
  shape B (n + n) T x -> b < B -> c < n ->
  get (map (firstn n) x) b c t = get x b c t.
Proof.
  intros Hx Hb Hc. unfold get.
  rewrite (nth_map' _ []) by (destruct Hx; lia).
  now rewrite nth_firstn, (proj2 (Nat.ltb_lt c n) Hc).
Qed.

Arguments get_firstn [fmt B n T x b c] t _ _ _.

Lemma get_skipn {fmt : Format} B n T (x : Tensor fmt) b c t :
  shape B (n + n) T x -> b < B ->
  get (map (@skipn _ n) x) b c t = get x b (n + c) t.
Proof.
  intros Hx Hb. unfold get.
  rewrite (nth_map' _ []) by (destruct Hx; lia).
  now rewrite nth_skipn.
Qed.

Arguments get_skipn [fmt B n T x b] c t _ _.

Lemma zipWith_app_split {A} n :
  forall (a b : list (list A)),
    length a = length b -> Forall (fun m => length m = n) a ->
    map (firstn n) (zipWith (@app A) a b) = a /\
    map (@skipn _ n) (zipWith (@app A) a b) = b.
Proof.
  induction a as [|m a IH]; intros [|m' b] Hl Hn; simpl in *;
    try discriminate; [split; reflexivity|].
  inversion Hn as [|? ? Hm Ha]; subst.
  destruct (IH b) as [H1 H2]; [lia|assumption|].
  rewrite H1, H2. split; f_equal.
  - rewrite firstn_app, Nat.sub_diag, firstn_all. simpl. apply app_nil_r.
  - rewrite skipn_app, Nat.sub_diag, skipn_all. reflexivity.
Qed.

Lemma zipWith_firstn_skipn {A} n (x : list (list A)) :
  zipWith (@app A) (map (firstn n) x) (map (@skipn _ n) x) = x.
Proof.
  induction x as [|m x IH]; simpl; [reflexivity|].
  now rewrite firstn_skipn, IH.
Qed.

Lemma same_time_axis_ok {A} C T (m : list (list A)) :
  mshape C T m -> same_time_axis m = true.
Proof.
  intros [_ Hm]. unfold same_time_axis. apply forallb_forall. intros r Hr.
  apply Nat.eqb_eq. rewrite Forall_forall in Hm. rewrite (Hm r Hr).
  destruct m as [|r0 m]; [contradiction|]. simpl. symmetry. apply Hm. now left.
Qed.

(** Two tensors whose batch and time axes agree are concatenated. *)
Lemma cat_pure {A} B C C' T (a b : list (list (list A))) :
  shape B C T a -> shape B C' T b ->
  torch_cat1 a b = inr (zipWith (@app _) a b).
Proof.
  intros Ha Hb. apply zipM_pure; [destruct Ha, Hb; congruence|].
  intros ma mb Hin.
  destruct (In_combine_nth [] [] _ _ _ _ Hin) as (i & H1 & H2 & <- & <-).
  assert (Hi : i < B) by (destruct Ha; lia).
  destruct (shape_nth Ha Hi) as [E1 F1], (shape_nth Hb Hi) as [E2 F2].
  rewrite (@same_time_axis_ok _ (C + C') T); [reflexivity|].
  split; [rewrite length_app; lia|]. apply Forall_app. now split.
Qed.

(** Concatenating the two halves gives the tensor back. *)
Lemma cat_split {A} B n T (x : list (list (list A))) :
  shape B (n + n) T x ->
  torch_cat1 (map (firstn n) x) (map (@skipn _ n) x) = inr x.
Proof.
  intros Hx.
  rewrite (cat_pure (shape_firstn Hx) (shape_skipn Hx)).
  now rewrite zipWith_firstn_skipn.
Qed.

Arguments cat_split [A B n T x] _.

(** Splitting a concatenation of two halves gives the halves back. *)
Lemma split_cat {A} B n T (a b : list (list (list A))) :
  shape B n T a -> shape B n T b ->
  exists r, torch_cat1 a b = inr r /\ shape B (n + n) T r /\
            map (firstn n) r = a /\ map (@skipn _ n) r = b.
Proof.
  intros Ha Hb. exists (zipWith (@app _) a b).
  assert (Hl : length a = length b) by (destruct Ha, Hb; congruence).
  assert (Hn : Forall (fun m : list (list A) => length m = n) a).
  { destruct Ha as [_ Ha]. eapply Forall_impl; [|exact Ha]. now intros m [H _]. }
  split; [now apply cat_pure with (B := B) (C := n) (C' := n) (T := T)|].
  split; [|now apply zipWith_app_split].
  apply shape_intro; [rewrite zipWith_length; destruct Ha; auto|].
  intros i Hi. rewrite (nth_zipWith _ [] []) by (destruct Ha, Hb; lia).
  destruct (shape_nth Ha Hi) as [H1 H2], (shape_nth Hb Hi) as [H3 H4].
  split; [rewrite length_app; lia|]. apply Forall_app. now split.
Qed.

(** ** Convolution *)

Section Convolution.

Context {fmt : Format}.

Lemma lincomb_length T :
  forall (w : Vec fmt) (rows : Mat fmt),
    Forall (fun r : Vec fmt => length r = T) rows ->
    length (lincomb T w rows) = T.
Proof.
  unfold lincomb.
  induction w as [|a w IH]; intros [|r rows] H; simpl;
    try apply repeat_length.
  inversion H; subst.
  rewrite zipWith_length; rewrite length_map; [reflexivity|].
  symmetry. now apply IH.
Qed.

Lemma lincomb_cons T a (w : Vec fmt) r (rows : Mat fmt) :
  lincomb T (a :: w) (r :: rows)
  = zipWith (@fadd fmt) (map (fmul a) r) (lincomb T w rows).
Proof. reflexivity. Qed.

(** With weights that are all zero, an element of the combination is zero
    or not a finite number. *)
Lemma lincomb_zero T t :
  forall (w : Vec fmt) (rows : Mat fmt),
    Forall (eq (fzero fmt)) w ->
    Forall (fun r : Vec fmt => length r = T) rows ->
    t < T ->
    is_finite (nth t (lincomb T w rows) (fzero fmt)) = true ->
    nth t (lincomb T w rows) (fzero fmt) = fzero fmt.
Proof.
  induction w as [|a w IH]; intros [|r rows] Hw Hr Ht;
    try (intros _; unfold lincomb; simpl; now rewrite nth_repeat).
  inversion Hw; inversion Hr; subst.
  rewrite lincomb_cons.
  rewrite (nth_zipWith _ (fzero fmt) (fzero fmt))
    by (rewrite ?length_map, ?lincomb_length; auto).
  rewrite (nth_map' _ (fzero fmt)) by assumption.
  intros Hf. destruct (fadd_finite _ _ _ Hf) as [Ff Fr].
  destruct (fmul_finite _ _ _ Ff) as [_ Fx].
  rewrite (fmul_zero_l _ _ Fx), fadd_zero_l in *. now apply IH.
Qed.

Lemma conv1d_sample_shape (c : Conv1d fmt) T (m : Mat fmt) :
  conv_wf c -> 0 < in_channels c -> mshape (in_channels c) T m ->
  mshape (out_channels c) T (conv1d_sample c m).
Proof.
  intros (Hw & Hb & Hi) Hpos Hm. unfold conv1d_sample.
  rewrite (mshape_hd Hm Hpos).
  apply mshape_intro; [rewrite zipWith_length; congruence|].
  intros o Ho. rewrite (nth_zipWith _ [] (fzero fmt)) by lia.
  rewrite length_map. apply lincomb_length. now destruct Hm.
Qed.

(** On an input with the right number of channels and a time axis that is
    not empty, the convolution returns. *)
Lemma conv1d_ok (c : Conv1d fmt) B T (x : Tensor fmt) :
  conv_wf c -> 0 < in_channels c -> 0 < T ->
  shape B (in_channels c) T x ->
  conv1d c x = inr (map (conv1d_sample c) x) /\
  shape B (out_channels c) T (map (conv1d_sample c) x).
Proof.
  intros Hc Hpos HT Hx. split.
  - apply mapM_pure. intros m Hm. destruct Hx as [_ Hx].
    rewrite Forall_forall in Hx. pose proof (Hx m Hm) as Sm.
    rewrite (mshape_hd Sm Hpos). destruct Sm as [-> _].
    rewrite Nat.eqb_refl. simpl.
    destruct (Nat.eqb_spec T 0); [lia|reflexivity].
  - apply shape_intro; [rewrite length_map; now destruct Hx|].
    intros b Hb. rewrite (nth_map' _ []) by (destruct Hx; lia).
    apply conv1d_sample_shape; auto. now apply shape_nth with (B := B).
Qed.

(** On an empty time axis the convolution raises. *)
Lemma conv1d_empty (c : Conv1d fmt) B (x : Tensor fmt) :
  0 < B -> 0 < in_channels c -> shape B (in_channels c) 0 x ->
  conv1d c x
  = inl (RuntimeError "Kernel size can't be greater than actual input size").
Proof.
  intros HB Hpos [Hl Hx]. destruct x as [|m x]; [simpl in Hl; lia|].
  inversion Hx as [|? ? Sm _]; subst. unfold conv1d. simpl.
  rewrite (mshape_hd Sm Hpos). destruct Sm as [-> _].
  now rewrite Nat.eqb_refl.
Qed.

(** A convolution whose parameters are all zero returns, at each element,
    zero or a value that is not a finite number. *)
Lemma conv1d_zero (c : Conv1d fmt) B T (x : Tensor fmt) b o t :
  conv_wf c -> conv_zero c -> 0 < in_channels c ->
  shape B (in_channels c) T x ->
  b < B -> o < out_channels c -> t < T ->
  is_finite (get (map (conv1d_sample c) x) b o t) = true ->
  get (map (conv1d_sample c) x) b o t = fzero fmt.
Proof.
  intros (Hw & Hb & Hi) [Zw Zb] Hpos Hx Hlb Ho Ht. unfold get.
  rewrite (nth_map' _ []) by (destruct Hx; lia).
  pose proof (shape_nth Hx Hlb) as Hm.
  unfold conv1d_sample.
  rewrite (mshape_hd Hm Hpos), (nth_zipWith _ [] (fzero fmt)) by lia.
  rewrite (nth_map' _ (fzero fmt))
    by (rewrite lincomb_length; [assumption|now destruct Hm]).
  rewrite Forall_forall in Zb.
  rewrite <- (Zb (nth o (bias c) (fzero fmt))) by (apply nth_In; lia).
  rewrite fadd_zero_l. apply lincomb_zero; auto.
  - rewrite Forall_forall in Zw. apply Zw. apply nth_In. lia.
  - now destruct Hm.
Qed.

Lemma Conv1d_new_wf n_in n_out w b :
  conv_wf (Conv1d_new (fmt := fmt) n_in n_out w b).
Proof.
  unfold conv_wf, Conv1d_new; simpl. rewrite !length_map, !length_seq.
  repeat split. apply Forall_forall. intros r Hr.
  apply in_map_iff in Hr. destruct Hr as (o & <- & _).
  now rewrite length_map, length_seq.
Qed.

Lemma Conv1d_new_zero n_in n_out :
  conv_zero (Conv1d_new n_in n_out (fun _ _ => fzero fmt) (fun _ => fzero fmt)).
Proof.
  unfold conv_zero, Conv1d_new; simpl. split.
  - apply Forall_forall. intros r Hr.
    apply in_map_iff in Hr. destruct Hr as (o & <- & _).
    apply Forall_forall. intros v Hv.
    apply in_map_iff in Hv. now destruct Hv as (i & <- & _).
  - apply Forall_forall. intros v Hv.
    apply in_map_iff in Hv. now destruct Hv as (i & <- & _).
Qed.

End Convolution.

(** ** The state-and-error monad *)

Section Monad.

Variable World : Type.

Lemma bind_lift {A B} (r : result A) (a : A) (k : A -> M World B) w :
  r = inr a -> bind (lift r) k w = k a w.
Proof. intros ->. reflexivity. Qed.

Lemma bind_inr {A B} (m : M World A) (k : A -> M World B) w a w' :
  m w = (inr a, w') -> bind m k w = k a w'.
Proof. unfold bind. now intros ->. Qed.

Lemma deterministic_ret {A} (a : A) : deterministic (@ret World A a).
Proof. intros w w'. reflexivity. Qed.

Lemma deterministic_lift {A} (r : result A) : deterministic (@lift World A r).
Proof. intros w w'. reflexivity. Qed.

Lemma deterministic_bind {A B} (m : M World A) (k : A -> M World B) :
  deterministic m -> (forall a, deterministic (k a)) ->
  deterministic (bind m k).
Proof.
  intros Hm Hk w w'. unfold bind. specialize (Hm w w').
  destruct (m w) as [[e|a] w1], (m w') as [[e'|a'] w1']; simpl in *;
    try congruence.
  inversion Hm; subst. apply Hk.
Qed.

Lemma deterministic_foldM {A X} (f : X -> A -> M World X) (l : list A) :
  (forall x a, In a l -> deterministic (f x a)) ->
  forall x, deterministic (foldM f l x).
Proof.
  induction l as [|a l IH]; intros H x; simpl.
  - apply deterministic_ret.
  - apply deterministic_bind; [apply H; now left|].
    intros x'. apply IH. intros; apply H; now right.
Qed.

Lemma foldM_app {A X} (f : X -> A -> M World X) (l1 l2 : list A) x w :
  foldM f (l1 ++ l2) x w = bind (foldM f l1 x) (foldM f l2) w.
Proof.
  revert x w. induction l1 as [|a l1 IH]; intros x w; simpl.
  - reflexivity.
  - unfold bind. destruct (f x a w) as [[e|x'] w1]; [reflexivity|].
    rewrite IH. reflexivity.
Qed.

End Monad.

(** ** Arithmetic with zero and one *)

Section Arithmetic.

Context {fmt : Format}.

(** A product with zero is zero or not a finite number. *)
Lemma fmul_zero_finite (s : F fmt) :
  is_finite (fmul s (fzero fmt)) = true -> fmul s (fzero fmt) = fzero fmt.
Proof.
  intros H. destruct (fmul_finite _ _ _ H) as [Hs _].
  now apply fmul_zero_r.
Qed.

(** The product of a value that is zero or not finite with any value is
    zero or not finite. *)
Lemma fmul_of_zero_finite (s k : F fmt) :
  (is_finite s = true -> s = fzero fmt) ->
  is_finite (fmul s k) = true -> fmul s k = fzero fmt.
Proof.
  intros Hz H. destruct (fmul_finite _ _ _ H) as [Hs Hk].
  rewrite (Hz Hs). now apply fmul_zero_l.
Qed.

(** [m + a * 0] is zero or not finite when [m] is. *)
Lemma fadd_masked (m a : F fmt) :
  (is_finite m = true -> m = fzero fmt) ->
  is_finite (fadd m (fmul a (fzero fmt))) = true ->
  fadd m (fmul a (fzero fmt)) = fzero fmt.
Proof.
  intros Hz H. destruct (fadd_finite _ _ _ H) as [Hm Ha].
  rewrite (Hz Hm), (fmul_zero_finite _ Ha). apply fadd_zero_l.
Qed.

End Arithmetic.

(** ** The coupling layer *)

Section Layer.

Context {fmt : Format}.
Variable World : Type.
Variable l : ResidualCouplingLayer fmt World.
Variable g : option (Tensor fmt).
Hypothesis Hwf : layer_wf l.
Hypothesis Henc : enc_shape_preserving (enc l) (hidden_channels l) g.

Lemma stats_trace_run x0 mask w m logs w' :
  stats_trace l x0 mask g w m logs w' ->
  coupling_stats l x0 mask g w = (inr (m, logs), w').
Proof.
  intros (h0 & h1 & h2 & s & stats & E1 & E2 & E3 & E4 & E5 & E6).
  unfold coupling_stats.
  rewrite (bind_lift _ _ E1), (bind_lift _ _ E2), (bind_inr _ _ _ E3).
  rewrite (bind_lift _ _ E4), (bind_lift _ _ E5).
  destruct (mean_only l); simpl.
  - destruct E6 as [-> ->]. reflexivity.
  - unfold lift. now rewrite E6.
Qed.

(** On a well-shaped input with a time axis that is not empty,
    [coupling_stats] returns; [m] and [logs] are zero or not finite where
    the mask is zero, and everywhere when [post] is all zero. *)
Lemma coupling_stats_ok B T x0 mask w :
  0 < T -> shape B (half_channels l) T x0 -> shape B 1 T mask ->
  exists m logs w',
    stats_trace l x0 mask g w m logs w' /\
    shape B (half_channels l) T m /\ shape B (half_channels l) T logs /\
    (forall b c t, b < B -> c < half_channels l -> t < T ->
       get mask b 0 t = fzero fmt ->
       (is_finite (get m b c t) = true -> get m b c t = fzero fmt) /\
       (is_finite (get logs b c t) = true -> get logs b c t = fzero fmt)) /\
    (forall b c t, b < B -> c < half_channels l -> t < T ->
       conv_zero (post l) ->
       (is_finite (get m b c t) = true -> get m b c t = fzero fmt) /\
       (is_finite (get logs b c t) = true -> get logs b c t = fzero fmt)) /\
    (mean_only l = true -> logs = torch_zeros_like m).
Proof.
  intros HT Hx Hmask.
  destruct Hwf as (_ & Hh & Hhid & Wpre & Ipre & Opre & Wpost & Ipost & Opost).
  destruct (@conv1d_ok fmt (pre l) B T x0) as [E1 S1]; auto; try lia.
  { now rewrite Ipre. }
  rewrite Opre in S1.
  destruct (pointwise_mask_ok (@fmul fmt) S1 Hmask) as (h1 & E2 & S2 & _).
  destruct (Henc w HT S2 Hmask) as (h2 & w' & E3 & S3).
  destruct (@conv1d_ok fmt (post l) B T h2) as [E4 S4]; auto; try lia.
  { now rewrite Ipost. }
  assert (Z4 : forall b o t, conv_zero (post l) -> b < B ->
                 o < out_channels (post l) -> t < T ->
                 is_finite (get (map (conv1d_sample (post l)) h2) b o t) = true ->
                 get (map (conv1d_sample (post l)) h2) b o t = fzero fmt).
  { intros b o t Z Hb Ho Ht.
    apply (@conv1d_zero fmt (post l) B T); auto; try lia. now rewrite Ipost. }
  destruct (pointwise_mask_ok (@fmul fmt) S4 Hmask) as (stats & E5 & S5 & G5).
  assert (Tr : forall m logs,
             (if mean_only l
              then m = stats /\ logs = torch_zeros_like stats
              else torch_split2 stats (half_channels l) = inr (m, logs)) ->
             stats_trace l x0 mask g w m logs w').
  { intros m logs E6.
    exists (map (conv1d_sample (pre l)) x0), h1, h2,
      (map (conv1d_sample (post l)) h2), stats.
    repeat (split; [assumption|]). exact E6. }
  destruct (mean_only l) eqn:Emo.
  - rewrite Opost in *.
    replace (half_channels l * (2 - 1)) with (half_channels l) in * by lia.
    exists stats, (torch_zeros_like stats), w'.
    split; [apply Tr; now split|].
    split; [assumption|]. split; [now apply shape_tmap|].
    split; [|split; [|reflexivity]]; intros b c t Hb Hc Ht H0;
      (split; [|intros _; unfold torch_zeros_like; now rewrite (get_tmap _ S5)]);
      rewrite G5 by assumption.
    + rewrite H0. apply fmul_zero_finite.
    + apply fmul_of_zero_finite. now apply Z4.
  - rewrite Opost in *.
    replace (half_channels l * (2 - 0))
      with (half_channels l + half_channels l) in * by lia.
    exists (map (firstn (half_channels l)) stats),
      (map (@skipn _ (half_channels l)) stats), w'.
    split; [apply Tr; now apply split_ok with (B := B) (T := T)|].
    split; [now apply shape_firstn|]. split; [now apply shape_skipn|].
    split; [|split; [|discriminate]]; intros b c t Hb Hc Ht H0;
      rewrite (get_firstn _ S5), (get_skipn _ _ S5) by assumption;
      rewrite !G5 by (try assumption; lia).
    + rewrite H0. split; apply fmul_zero_finite.
    + split; apply fmul_of_zero_finite; apply Z4; auto; lia.
Qed.

(** [forward] with [reverse=False] on a well-shaped input: it returns, the
    first half of the result is the first half of [x], and the second half
    is [m + x1 * exp(logs) * x_mask]. *)
Lemma layer_forward_run B T x mask w :
  0 < T ->
  shape B (half_channels l + half_channels l) T x -> shape B 1 T mask ->
  exists m logs y w',
    stats_trace l (map (firstn (half_channels l)) x) mask g w m logs w' /\
    shape B (half_channels l) T m /\ shape B (half_channels l) T logs /\
    ResidualCouplingLayer_forward l x mask g false w
    = (inr (y, torch_sum12 logs), w') /\
    shape B (half_channels l + half_channels l) T y /\
    map (firstn (half_channels l)) y = map (firstn (half_channels l)) x /\
    shape B (half_channels l) T (map (@skipn _ (half_channels l)) y) /\
    forall b c t, b < B -> c < half_channels l -> t < T ->
      get y b (half_channels l + c) t
      = fadd (get m b c t)
          (fmul (fmul (get x b (half_channels l + c) t)
                   (fexp (get logs b c t)))
             (get mask b 0 t)).
Proof.
  intros HT Hx Hmask. set (n := half_channels l) in *.
  pose proof (shape_firstn Hx) as S0. pose proof (shape_skipn Hx) as S1.
  destruct (coupling_stats_ok w HT S0 Hmask)
    as (m & logs & w' & Tr & Sm & Sl & _).
  pose proof (shape_tmap (@fexp fmt) Sl) as Se.
  destruct (pointwise_same_ok (@fmul fmt) S1 Se) as (a & Ea & Sa & Ga).
  destruct (pointwise_mask_ok (@fmul fmt) Sa Hmask) as (a' & Ea' & Sa' & Ga').
  destruct (pointwise_same_ok (@fadd fmt) Sm Sa') as (y1 & Ey & Sy & Gy).
  destruct (split_cat S0 Sy) as (y & Ec & Sc & F0 & F1).
  exists m, logs, y, w'.
  repeat (split; [assumption|]).
  split; [|split; [assumption|split; [assumption|split; [now rewrite F1|]]]].
  - unfold ResidualCouplingLayer_forward.
    rewrite (bind_lift _ _ (split_ok Hx)).
    rewrite (bind_inr _ _ _ (stats_trace_run Tr)).
    fold n. unfold torch_exp.
    rewrite (bind_lift _ _ Ea), (bind_lift _ _ Ea'), (bind_lift _ _ Ey).
    rewrite (bind_lift _ _ Ec). reflexivity.
  - intros b c t Hb Hc Ht.
    rewrite <- (get_skipn _ _ Sc Hb), F1.
    rewrite Gy, Ga', Ga by assumption.
    rewrite (get_tmap _ Sl), (get_skipn _ _ Hx) by assumption.
    reflexivity.
Qed.

(** [forward] with [reverse=True] on a well-shaped input: the second half of
    the result is [(x1 - m) * exp(-logs) * x_mask]. *)
Lemma layer_reverse_run B T x mask w :
  0 < T ->
  shape B (half_channels l + half_channels l) T x -> shape B 1 T mask ->
  exists m logs y w',
    stats_trace l (map (firstn (half_channels l)) x) mask g w m logs w' /\
    shape B (half_channels l) T m /\ shape B (half_channels l) T logs /\
    ResidualCouplingLayer_forward l x mask g true w = (inr y, w') /\
    shape B (half_channels l + half_channels l) T y /\
    map (firstn (half_channels l)) y = map (firstn (half_channels l)) x /\
    shape B (half_channels l) T (map (@skipn _ (half_channels l)) y) /\
    forall b c t, b < B -> c < half_channels l -> t < T ->
      get y b (half_channels l + c) t
      = fmul (fmul (fsub (get x b (half_channels l + c) t) (get m b c t))
                (fexp (fneg (get logs b c t))))
          (get mask b 0 t).
Proof.
  intros HT Hx Hmask. set (n := half_channels l) in *.
  pose proof (shape_firstn Hx) as S0. pose proof (shape_skipn Hx) as S1.
  destruct (coupling_stats_ok w HT S0 Hmask)
    as (m & logs & w' & Tr & Sm & Sl & _).
  pose proof (shape_tmap (@fexp fmt) (shape_tmap (@fneg fmt) Sl)) as Se.
  destruct (pointwise_same_ok (@fsub fmt) S1 Sm) as (d & Ed & Sd & Gd).
  destruct (pointwise_same_ok (@fmul fmt) Sd Se) as (a & Ea & Sa & Ga).
  destruct (pointwise_mask_ok (@fmul fmt) Sa Hmask) as (y1 & Ey & Sy & Gy).
  destruct (split_cat S0 Sy) as (y & Ec & Sc & F0 & F1).
  exists m, logs, y, w'.
  repeat (split; [assumption|]).
  split; [|split; [assumption|split; [assumption|split; [now rewrite F1|]]]].
  - unfold ResidualCouplingLayer_forward.
    rewrite (bind_lift _ _ (split_ok Hx)).
    rewrite (bind_inr _ _ _ (stats_trace_run Tr)).
    fold n. unfold torch_exp, torch_neg.
    rewrite (bind_lift _ _ Ed), (bind_lift _ _ Ea), (bind_lift _ _ Ey).
    rewrite (bind_lift _ _ Ec). reflexivity.
  - intros b c t Hb Hc Ht.
    rewrite <- (get_skipn _ _ Sc Hb), F1.
    rewrite Gy, Ga, Gd by assumption.
    rewrite (get_tmap _ (shape_tmap (@fneg fmt) Sl)), (get_tmap _ Sl)
      by assumption.
    rewrite (get_skipn _ _ Hx) by assumption.
    reflexivity.
Qed.

End Layer.

(** ** Flip *)

Lemma shape_flip {A} B C T (x : list (list (list A))) :
  shape B C T x -> shape B C T (torch_flip1 x).
Proof.
  intros Hx. unfold torch_flip1.
  apply shape_intro; [rewrite length_map; now destruct Hx|].
  intros b Hb. rewrite (nth_map' _ []) by (destruct Hx; lia).
  destruct (shape_nth Hx Hb) as [H1 H2]. split.
  - now rewrite length_rev.
  - apply Forall_forall. intros r Hr. rewrite Forall_forall in H2.
    apply H2. now apply in_rev.
Qed.

Lemma get_flip {fmt : Format} B C T (x : Tensor fmt) b c t :
  shape B C T x -> b < B -> c < C ->
  get (torch_flip1 x) b c t = get x b (C - 1 - c) t.
Proof.
  intros Hx Hb Hc. unfold get, torch_flip1.
  rewrite (nth_map' _ []) by (destruct Hx; lia).
  destruct (shape_nth Hx Hb) as [H1 _].
  rewrite rev_nth by lia. rewrite H1.
  replace (C - S c) with (C - 1 - c) by lia. reflexivity.
Qed.

Lemma flip_flip {A} (x : list (list (list A))) :
  torch_flip1 (torch_flip1 x) = x.
Proof.
  unfold torch_flip1. rewrite map_map.
  rewrite <- (map_id x) at 2. apply map_ext. apply rev_involutive.
Qed.

(** C7.  [Flip.forward] reverses the channel axis in both directions: with
    [reverse=False] it returns the flipped tensor and a vector of [B] zeros,
    with [reverse=True] the flipped tensor alone; channel [c] of the result
    is channel [C - 1 - c] of the input; flipping forward and then in
    reverse gives the input back. *)
Theorem Flip_self_inverse {fmt : Format} B C T (x : Tensor fmt) :
  shape B C T x ->
  Flip_forward x false = (torch_flip1 x, repeat (fzero fmt) B) /\
  Flip_forward x true = torch_flip1 x /\
  shape B C T (torch_flip1 x) /\
  (forall b c t, b < B -> c < C ->
     get (torch_flip1 x) b c t = get x b (C - 1 - c) t) /\
  Flip_forward (fst (Flip_forward x false)) true = x.
Proof.
  intros Hx. unfold Flip_forward, torch_zeros. simpl.
  split; [|split; [reflexivity|split; [now apply shape_flip|split]]].
  - unfold torch_flip1 at 2. rewrite length_map. now destruct Hx as [-> _].
  - intros b c t Hb Hc. now apply get_flip with (B := B) (T := T).
  - apply flip_flip.
Qed.

(** The flip of a tensor of three channels. *)
Lemma Flip_self_inverse_witness :
  let x : Tensor real_format := [[[1; 2]; [3; 4]; [5; 6]]]%R in
  Flip_forward x false = ([[[5; 6]; [3; 4]; [1; 2]]]%R, [0%R]) /\
  Flip_forward (fst (Flip_forward x false)) true = x.
Proof.
  intros x.
  destruct (@Flip_self_inverse real_format 1 3 2 x
              (has_shape_ok 1 3 2 x eq_refl))
    as (H1 & _ & _ & _ & H5).
  split; [exact H1|exact H5].
Defined.

(** ** Sums *)

Section Sums.

Context {fmt : Format}.

Lemma sum_upto_ext n (f f' : nat -> F fmt) :
  (forall i, i < n -> f i = f' i) -> sum_upto n f = sum_upto n f'.
Proof.
  intros H. unfold sum_upto. f_equal. apply map_ext_in.
  intros i Hi. apply in_seq in Hi. apply H. lia.
Qed.

Lemma sum_upto_S n (f : nat -> F fmt) :
  sum_upto (S n) f = fadd (f 0) (sum_upto n (fun i => f (S i))).
Proof.
  unfold sum_upto. simpl. f_equal. now rewrite <- seq_shift, map_map.
Qed.

Lemma sum_upto_zero n (f : nat -> F fmt) :
  (forall i, i < n -> f i = fzero fmt) -> sum_upto n f = fzero fmt.
Proof.
  revert f. induction n as [|n IH]; intros f H; [reflexivity|].
  rewrite sum_upto_S, H, IH by (intros; try apply H; lia).
  apply fadd_zero_l.
Qed.

Lemma vsum_nth (v : Vec fmt) :
  vsum v = sum_upto (length v) (fun t => nth t v (fzero fmt)).
Proof.
  induction v as [|a v IH]; [reflexivity|].
  simpl length. rewrite sum_upto_S. simpl. now rewrite IH.
Qed.

(** [torch.sum(x, [1, 2])], element by element. *)
Lemma torch_sum12_nth B C T (x : Tensor fmt) b :
  shape B C T x -> b < B ->
  nth b (torch_sum12 x) (fzero fmt)
  = sum_upto C (fun c => sum_upto T (fun t => get x b c t)).
Proof.
  intros Hx Hb. unfold torch_sum12.
  rewrite (nth_map' _ []) by (destruct Hx; lia).
  pose proof (shape_nth Hx Hb) as Hm.
  rewrite vsum_nth, length_map. destruct Hm as [HC Hr] eqn:E; clear E.
  rewrite HC. apply sum_upto_ext. intros c Hc.
  rewrite (nth_map' _ []) by lia.
  rewrite vsum_nth. rewrite (mshape_nth (conj HC Hr)) by assumption.
  reflexivity.
Qed.

Lemma torch_sum12_length (x : Tensor fmt) :
  length (torch_sum12 x) = length x.
Proof. apply length_map. Qed.

Lemma vec_ext_zero n (v : Vec fmt) :
  length v = n -> (forall b, b < n -> nth b v (fzero fmt) = fzero fmt) ->
  v = repeat (fzero fmt) n.
Proof.
  intros Hl H. apply (nth_ext _ _ (fzero fmt) (fzero fmt)).
  - now rewrite repeat_length.
  - intros b Hb. rewrite nth_repeat. apply H. lia.
Qed.

(** The sum of a tensor of zeros is zero, whatever the order of the
    additions. *)
Lemma torch_sum12_zeros B C T (m : Tensor fmt) :
  shape B C T m -> torch_sum12 (torch_zeros_like m) = repeat (fzero fmt) B.
Proof.
  intros Hm. pose proof (shape_tmap (fun _ => fzero fmt) Hm) as Hz.
  apply vec_ext_zero.
  - rewrite torch_sum12_length. now destruct Hz.
  - intros b Hb. unfold torch_zeros_like. rewrite (torch_sum12_nth Hz Hb).
    apply sum_upto_zero. intros c Hc. apply sum_upto_zero. intros t Ht.
    now rewrite (get_tmap _ Hm).
Qed.

End Sums.

(** ** Properties of the coupling layer *)

Section Coupling.

Context {fmt : Format}.
Variable World : Type.
Variable l : ResidualCouplingLayer fmt World.
Variable g : option (Tensor fmt).
Hypothesis Hwf : layer_wf l.
Hypothesis Henc : enc_shape_preserving (enc l) (hidden_channels l) g.

Lemma stats_trace_fun x0 mask w m logs w' m2 logs2 w2 :
  stats_trace l x0 mask g w m logs w' ->
  stats_trace l x0 mask g w m2 logs2 w2 ->
  m2 = m /\ logs2 = logs /\ w2 = w'.
Proof.
  intros H1 H2. apply stats_trace_run in H1, H2.
  rewrite H1 in H2. now inversion H2.
Qed.

Lemma coupling_stats_deterministic x0 mask :
  enc_deterministic (enc l) -> deterministic (coupling_stats l x0 mask g).
Proof.
  intros Hd. unfold coupling_stats.
  repeat (apply deterministic_bind;
          [first [apply deterministic_lift | apply Hd]|intros ?]).
  destruct (mean_only l); simpl;
    [apply deterministic_ret|apply deterministic_lift].
Qed.

(** What [coupling_stats] returns in some state it returns, under a
    deterministic network, in every state. *)
Lemma stats_trace_any_state x0 mask w m logs w' w2 :
  enc_deterministic (enc l) ->
  stats_trace l x0 mask g w m logs w' ->
  forall m2 logs2 w3,
    stats_trace l x0 mask g w2 m2 logs2 w3 -> m2 = m /\ logs2 = logs.
Proof.
  intros Hd H1 m2 logs2 w3 H2.
  apply stats_trace_run in H1, H2.
  pose proof (coupling_stats_deterministic x0 mask Hd w w2) as E.
  rewrite H1, H2 in E. simpl in E. now inversion E.
Qed.

Lemma shape_channels B T (x : Tensor fmt) :
  shape B (channels l) T x ->
  shape B (half_channels l + half_channels l) T x.
Proof. destruct Hwf as [<- _]. auto. Qed.

Lemma get_first_half B T (x y : Tensor fmt) b c t :
  shape B (half_channels l + half_channels l) T x ->
  shape B (half_channels l + half_channels l) T y ->
  map (firstn (half_channels l)) y = map (firstn (half_channels l)) x ->
  b < B -> c < half_channels l -> get y b c t = get x b c t.
Proof.
  intros Hx Hy F Hb Hc.
  rewrite <- (get_firstn t Hy Hb Hc), F. exact (get_firstn t Hx Hb Hc).
Qed.

Lemma stats_trace_facts B T x0 mask w m logs w' :
  0 < T -> shape B (half_channels l) T x0 -> shape B 1 T mask ->
  stats_trace l x0 mask g w m logs w' ->
  (forall b c t, b < B -> c < half_channels l -> t < T ->
     get mask b 0 t = fzero fmt ->
     (is_finite (get m b c t) = true -> get m b c t = fzero fmt) /\
     (is_finite (get logs b c t) = true -> get logs b c t = fzero fmt)) /\
  (forall b c t, b < B -> c < half_channels l -> t < T ->
     conv_zero (post l) ->
     (is_finite (get m b c t) = true -> get m b c t = fzero fmt) /\
     (is_finite (get logs b c t) = true -> get logs b c t = fzero fmt)) /\
  (mean_only l = true -> logs = torch_zeros_like m).
Proof.
  intros HT Hx Hmask Tr.
  destruct (coupling_stats_ok Hwf Henc w HT Hx Hmask)
    as (m2 & logs2 & w2 & Tr2 & _ & _ & F).
  destruct (stats_trace_fun Tr Tr2) as (-> & -> & _). exact F.
Qed.

(** C5.  On a well-shaped input with a time axis that is not empty, in both
    directions, [ResidualCouplingLayer.forward] returns and the first
    [half_channels] channels of its result are those of its input. *)
Theorem coupling_pass_through B T x mask (reverse : bool) w :
  0 < T -> shape B (channels l) T x -> shape B 1 T mask ->
  exists (out : flow_ret fmt reverse) w',
    ResidualCouplingLayer_forward l x mask g reverse w = (inr out, w') /\
    map (firstn (half_channels l)) (ret_x out)
    = map (firstn (half_channels l)) x /\
    forall b c t, b < B -> c < half_channels l ->
      get (ret_x out) b c t = get x b c t.
Proof.
  intros HT Hx Hmask. apply shape_channels in Hx.
  destruct reverse.
  - destruct (layer_reverse_run Hwf Henc w HT Hx Hmask)
      as (m & logs & y & w' & _ & _ & _ & E & Sy & F & _).
    exists y, w'. simpl. split; [assumption|]. split; [assumption|].
    intros b c t Hb Hc. now apply get_first_half with (B := B) (T := T).
  - destruct (layer_forward_run Hwf Henc w HT Hx Hmask)
      as (m & logs & y & w' & _ & _ & _ & E & Sy & F & _).
    exists (y, torch_sum12 logs), w'. simpl.
    split; [assumption|]. split; [assumption|].
    intros b c t Hb Hc. now apply get_first_half with (B := B) (T := T).
Qed.

(** C2, as the code has it.  With [reverse=False] the layer splits [x] into
    [x0] and [x1], computes [m] and [logs] from [x0] by [pre], [enc] and
    [post], the statistics multiplied by the mask, and returns
    [concat(x0, x1')] and [logdet], where [x1' = m + x1 * exp(logs) * mask]
    (the mask multiplies the product only) and [logdet] is the sum of [logs]
    over channels and time.  When the mask has values in [{0, 1}],
    [x1' = (m + x1 * exp(logs)) * mask] as well, wherever the mask is one
    or [x1'] is a finite number. *)
Theorem coupling_forward_postcondition B T x mask w :
  0 < T -> shape B (channels l) T x -> shape B 1 T mask ->
  let n := half_channels l in
  let x0 := map (firstn n) x in
  let x1 := map (@skipn _ n) x in
  exists m logs y1 y w',
    torch_split2 x n = inr (x0, x1) /\
    stats_trace l x0 mask g w m logs w' /\
    ResidualCouplingLayer_forward l x mask g false w
    = (inr (y, torch_sum12 logs), w') /\
    torch_cat1 x0 y1 = inr y /\
    shape B n T y1 /\
    (forall b c t, b < B -> c < n -> t < T ->
       get y1 b c t
       = fadd (get m b c t)
           (fmul (fmul (get x1 b c t) (fexp (get logs b c t)))
              (get mask b 0 t))) /\
    (forall b, b < B ->
       nth b (torch_sum12 logs) (fzero fmt)
       = sum_upto n (fun c => sum_upto T (fun t => get logs b c t))) /\
    (binary_mask mask ->
     forall b c t, b < B -> c < n -> t < T ->
       get mask b 0 t = fone fmt \/ is_finite (get y1 b c t) = true ->
       get y1 b c t
       = fmul (fadd (get m b c t)
                 (fmul (get x1 b c t) (fexp (get logs b c t))))
           (get mask b 0 t)).
Proof.
  intros HT Hx Hmask n x0 x1. apply shape_channels in Hx. fold n in Hx.
  destruct (layer_forward_run Hwf Henc w HT Hx Hmask)
    as (m & logs & y & w' & Tr & Sm & Sl & E & Sy & F0 & S1 & G).
  fold n in Tr, Sm, Sl, Sy, F0, S1, G.
  destruct (stats_trace_facts HT (shape_firstn Hx) Hmask Tr) as (F & _ & _).
  assert (G1 : forall b c t, b < B -> c < n -> t < T ->
                 get (map (@skipn _ n) y) b c t
                 = fadd (get m b c t)
                     (fmul (fmul (get x1 b c t) (fexp (get logs b c t)))
                        (get mask b 0 t))).
  { intros b c t Hb Hc Ht. unfold x1.
    rewrite (get_skipn c t Sy Hb), (get_skipn c t Hx Hb). now apply G. }
  exists m, logs, (map (@skipn _ n) y), y, w'.
  split; [exact (split_ok Hx)|].
  split; [assumption|]. split; [assumption|].
  split; [unfold x0; rewrite <- F0; now apply cat_split with (B := B) (T := T)|].
  split; [assumption|]. split; [assumption|].
  split; [intros b Hb; now apply torch_sum12_nth with (B := B)|].
  intros Hbin b c t Hb Hc Ht Hk. rewrite G1 in * by assumption.
  assert (K1 : get mask b 0 t = fone fmt ->
               fadd (get m b c t)
                 (fmul (fmul (get x1 b c t) (fexp (get logs b c t)))
                    (get mask b 0 t))
               = fmul (fadd (get m b c t)
                         (fmul (get x1 b c t) (fexp (get logs b c t))))
                   (get mask b 0 t)).
  { intros ->. now rewrite !fmul_one_r. }
  destruct Hk as [Hk|Hk]; [now apply K1|].
  destruct (Hbin b t) as [E0|E1]; [|now apply K1].
  rewrite E0 in *.
  destruct (fadd_finite _ _ _ Hk) as [Fm Fa].
  destruct (fmul_finite _ _ _ Fa) as [Fa' _].
  destruct (F b c t Hb Hc Ht E0) as [Zm _].
  rewrite (Zm Fm), (fmul_zero_r _ _ Fa'), !fadd_zero_l.
  now rewrite (fmul_zero_r _ _ Fa').
Qed.

(** C6, as the code has it.  With a mask of zeros and ones, at every time
    step where the mask is zero [m] and [logs] are zero, unless they are not
    finite numbers; these are the [m] and [logs] of the result,
    [x1' = m + x1 * exp(logs) * mask] and [logdet = sum(logs)]; and when
    [logs] is finite at the masked time steps of a batch element, its
    log-determinant is the sum of [logs] over the time steps where the mask
    is one. *)
Theorem masked_steps_add_nothing B T x mask w :
  0 < T -> shape B (channels l) T x -> shape B 1 T mask -> binary_mask mask ->
  let n := half_channels l in
  exists m logs y w',
    stats_trace l (map (firstn n) x) mask g w m logs w' /\
    ResidualCouplingLayer_forward l x mask g false w
    = (inr (y, torch_sum12 logs), w') /\
    (forall b c t, b < B -> c < n -> t < T ->
       get y b (n + c) t
       = fadd (get m b c t)
           (fmul (fmul (get x b (n + c) t) (fexp (get logs b c t)))
              (get mask b 0 t))) /\
    (forall b c t, b < B -> c < n -> t < T ->
       get mask b 0 t = fzero fmt ->
       (is_finite (get m b c t) = true -> get m b c t = fzero fmt) /\
       (is_finite (get logs b c t) = true -> get logs b c t = fzero fmt)) /\
    (forall b, b < B ->
       (forall c t, c < n -> t < T -> get mask b 0 t = fzero fmt ->
          is_finite (get logs b c t) = true) ->
       nth b (torch_sum12 logs) (fzero fmt)
       = sum_upto n (fun c =>
           sum_upto T (fun t => fmul (get logs b c t) (get mask b 0 t)))).
Proof.
  intros HT Hx Hmask Hbin n. apply shape_channels in Hx.
  destruct (layer_forward_run Hwf Henc w HT Hx Hmask)
    as (m & logs & y & w' & Tr & Sm & Sl & E & _ & _ & _ & G).
  destruct (stats_trace_facts HT (shape_firstn Hx) Hmask Tr) as (F & _ & _).
  exists m, logs, y, w'.
  split; [assumption|]. split; [assumption|]. split; [assumption|].
  split; [assumption|].
  intros b Hb Hfin. rewrite (torch_sum12_nth Sl Hb).
  apply sum_upto_ext. intros c Hc. apply sum_upto_ext. intros t Ht.
  destruct (Hbin b t) as [E0|E1].
  - destruct (F b c t Hb Hc Ht E0) as [_ Zl].
    rewrite (Zl (Hfin c t Hc Ht E0)), E0.
    symmetry. apply fmul_zero_r. apply finite_zero.
  - rewrite E1. symmetry. apply fmul_one_r.
Qed.

(** Forward and then reverse through one layer with a deterministic
    network: the reverse call computes the same [m] and [logs], the first
    half comes back as it was, and the second half is the inverse arithmetic
    applied to the result of the forward arithmetic. *)
Lemma layer_round_trip B T x mask w :
  enc_deterministic (enc l) -> 0 < T ->
  shape B (half_channels l + half_channels l) T x -> shape B 1 T mask ->
  exists m logs y w1,
    stats_trace l (map (firstn (half_channels l)) x) mask g w m logs w1 /\
    ResidualCouplingLayer_forward l x mask g false w
    = (inr (y, torch_sum12 logs), w1) /\
    shape B (half_channels l + half_channels l) T y /\
    map (firstn (half_channels l)) y = map (firstn (half_channels l)) x /\
    (forall b c t, b < B -> c < half_channels l -> t < T ->
       get y b (half_channels l + c) t
       = fadd (get m b c t)
           (fmul (fmul (get x b (half_channels l + c) t)
                    (fexp (get logs b c t)))
              (get mask b 0 t))) /\
    forall w2, exists z w3,
      ResidualCouplingLayer_forward l y mask g true w2 = (inr z, w3) /\
      shape B (half_channels l + half_channels l) T z /\
      map (firstn (half_channels l)) z = map (firstn (half_channels l)) x /\
      forall b c t, b < B -> c < half_channels l -> t < T ->
        get z b (half_channels l + c) t
        = fmul (fmul (fsub (get y b (half_channels l + c) t) (get m b c t))
                  (fexp (fneg (get logs b c t))))
            (get mask b 0 t).
Proof.
  intros Hd HT Hx Hmask.
  destruct (layer_forward_run Hwf Henc w HT Hx Hmask)
    as (m & logs & y & w1 & Tr & Sm & Sl & E & Sy & F0 & _ & G).
  exists m, logs, y, w1.
  repeat (split; [assumption|]).
  intros w2.
  destruct (layer_reverse_run Hwf Henc w2 HT Sy Hmask)
    as (m2 & logs2 & z & w3 & Tr2 & _ & _ & E2 & Sz & F2 & _ & G2).
  rewrite F0 in Tr2, F2.
  destruct (stats_trace_any_state Hd Tr Tr2) as [-> ->].
  exists z, w3. repeat (split; [assumption|]). exact G2.
Qed.


(** A layer built with [mean_only=True] whose [post] is all zero: [logs] is
    zero, the log-determinant is zero, [m] is zero unless it is not finite,
    and the second half of the result is [m + x1 * x_mask]. *)
Lemma zero_post_forward B T x mask w :
  conv_zero (post l) -> mean_only l = true -> 0 < T ->
  shape B (half_channels l + half_channels l) T x -> shape B 1 T mask ->
  exists m logs y w',
    stats_trace l (map (firstn (half_channels l)) x) mask g w m logs w' /\
    logs = torch_zeros_like m /\
    shape B (half_channels l) T m /\
    (forall b c t, b < B -> c < half_channels l -> t < T ->
       is_finite (get m b c t) = true -> get m b c t = fzero fmt) /\
    ResidualCouplingLayer_forward l x mask g false w
    = (inr (y, repeat (fzero fmt) B), w') /\
    shape B (half_channels l + half_channels l) T y /\
    (forall b c t, b < B -> c < half_channels l ->
       get y b c t = get x b c t) /\
    (forall b c t, b < B -> c < half_channels l -> t < T ->
       get y b (half_channels l + c) t
       = fadd (get m b c t)
           (fmul (get x b (half_channels l + c) t) (get mask b 0 t))).
Proof.
  intros Hz Hmo HT Hx Hmask.
  destruct (layer_forward_run Hwf Henc w HT Hx Hmask)
    as (m & logs & y & w' & Tr & Sm & Sl & E & Sy & F0 & _ & G).
  destruct (stats_trace_facts HT (shape_firstn Hx) Hmask Tr) as (_ & Z & L).
  specialize (L Hmo).
  exists m, logs, y, w'.
  split; [assumption|]. split; [assumption|]. split; [assumption|].
  split; [intros b c t Hb Hc Ht; now apply (Z b c t)|]. split.
  - rewrite E, L, (torch_sum12_zeros Sm). reflexivity.
  - split; [assumption|]. split.
    + intros b c t Hb Hc. now apply get_first_half with (B := B) (T := T).
    + intros b c t Hb Hc Ht. rewrite G by assumption.
      rewrite L. unfold torch_zeros_like. rewrite (get_tmap _ Sm) by assumption.
      now rewrite fexp_zero, fmul_one_r.
Qed.

End Coupling.

(** ** Construction of a layer *)

Section Construction.

Context {fmt : Format}.
Variable World : Type.

Lemma nn_Conv1d_ok (n_in n_out : Z) w b :
  (0 <= n_in)%Z -> (0 <= n_out)%Z ->
  nn_Conv1d (fmt := fmt) n_in n_out w b
  = inr (Conv1d_new (Z.to_nat n_in) (Z.to_nat n_out) w b).
Proof.
  intros H1 H2. unfold nn_Conv1d.
  destruct (Z.ltb_spec n_in 0); [lia|].
  destruct (Z.ltb_spec n_out 0); [lia|]. reflexivity.
Qed.

Lemma nn_Conv1d_negative (n_in n_out : Z) w b :
  (n_in < 0)%Z \/ (n_out < 0)%Z ->
  nn_Conv1d (fmt := fmt) n_in n_out w b
  = inl (RuntimeError "Trying to create tensor with negative dimension").
Proof.
  intros H. unfold nn_Conv1d.
  destruct (Z.ltb_spec n_in 0); [reflexivity|].
  destruct (Z.ltb_spec n_out 0); [reflexivity|lia].
Qed.

Lemma layer_init_odd ch hid k d nl p gin (mo : bool)
  (fresh : LayerInit fmt World) :
  (ch mod 2 <> 0)%Z ->
  ResidualCouplingLayer_init ch hid k d nl p gin mo fresh
  = inl (AssertionError "channels should be divisible by 2").
Proof.
  intros Ho. unfold ResidualCouplingLayer_init.
  destruct (Z.eqb_spec (ch mod 2) 0); [contradiction|reflexivity].
Qed.

(** With an even number of channels the assertion passes; a negative one
    then stops the constructor of [pre]. *)
Lemma layer_init_negative ch hid k d nl p gin (mo : bool)
  (fresh : LayerInit fmt World) :
  (ch mod 2 = 0)%Z -> (ch < 0)%Z ->
  ResidualCouplingLayer_init ch hid k d nl p gin mo fresh
  = inl (RuntimeError "Trying to create tensor with negative dimension").
Proof.
  intros He Hn. unfold ResidualCouplingLayer_init. rewrite He. simpl.
  rewrite nn_Conv1d_negative; [reflexivity|].
  left. pose proof (Z.div_mod ch 2 ltac:(lia)). lia.
Qed.

Lemma layer_init_even ch hid k d nl p gin (mo : bool)
  (fresh : LayerInit fmt World) net :
  (ch mod 2 = 0)%Z -> (0 <= ch)%Z -> (0 <= hid)%Z ->
  WaveNet fresh hid k d nl p gin = inr net ->
  exists l,
    ResidualCouplingLayer_init ch hid k d nl p gin mo fresh = inr l /\
    channels l = Z.to_nat ch /\ hidden_channels l = Z.to_nat hid /\
    kernel_size l = k /\ dilation_rate l = d /\ n_layers l = nl /\
    half_channels l = Z.to_nat (ch / 2) /\ mean_only l = mo /\
    enc l = net /\
    conv_zero (post l) /\
    ((0 < ch)%Z -> (0 < hid)%Z -> layer_wf l).
Proof.
  intros He Hc Hh Hnet. unfold ResidualCouplingLayer_init.
  pose proof (Z.div_mod ch 2 ltac:(lia)) as Hdm.
  rewrite He. cbn [Z.eqb negb].
  rewrite nn_Conv1d_ok by lia. cbn [rbind]. rewrite Hnet. cbn [rbind].
  rewrite nn_Conv1d_ok by (destruct mo; lia). cbn [rbind].
  eexists. split; [reflexivity|].
  cbn [channels hidden_channels kernel_size dilation_rate n_layers
       half_channels mean_only pre enc post].
  repeat (split; [reflexivity|]).
  split; [apply Conv1d_new_zero|]. intros Hc' Hh'.
  unfold layer_wf.
  cbn [channels hidden_channels half_channels mean_only pre post
       in_channels out_channels Conv1d_new].
  split; [lia|]. split; [lia|]. split; [lia|].
  split; [apply Conv1d_new_wf|]. split; [reflexivity|]. split; [reflexivity|].
  split; [apply Conv1d_new_wf|]. split; [reflexivity|].
  destruct mo; lia.
Qed.

(** What a successful construction tells of its arguments. *)
Lemma layer_init_inv ch hid k d nl p gin (mo : bool)
  (fresh : LayerInit fmt World) l :
  ResidualCouplingLayer_init ch hid k d nl p gin mo fresh = inr l ->
  (ch mod 2 = 0)%Z /\ (0 <= ch)%Z /\ (0 <= hid)%Z /\
  WaveNet fresh hid k d nl p gin = inr (enc l).
Proof.
  intros E.
  destruct (Z.eq_dec (ch mod 2) 0) as [He|Ho];
    [|rewrite layer_init_odd in E by assumption; discriminate].
  destruct (Z_lt_le_dec ch 0) as [Hn|Hc];
    [rewrite layer_init_negative in E by assumption; discriminate|].
  unfold ResidualCouplingLayer_init in E. rewrite He in E. cbn [Z.eqb negb] in E.
  pose proof (Z.div_mod ch 2 ltac:(lia)) as Hdm.
  destruct (Z_lt_le_dec hid 0) as [Hh|Hh].
  { rewrite nn_Conv1d_negative in E by lia. discriminate. }
  rewrite nn_Conv1d_ok in E by lia. cbn [rbind] in E.
  destruct (WaveNet fresh hid k d nl p gin) as [e|net]; [discriminate|].
  cbn [rbind] in E. rewrite nn_Conv1d_ok in E by (destruct mo; lia).
  cbn [rbind] in E. inversion E. auto.
Qed.

End Construction.

(** C3, as the code has it.  Right after construction [post] is all zero
    and, with [mean_only=True], [logs] is zero and [forward] with
    [reverse=False] and no conditioning returns a vector of [B] zeros as
    log-determinant.  [m] is zero wherever it is a finite number, and there
    the result is [concat(x0, x1 * mask)]: the first half of [x] as it is
    and the second half multiplied by the mask.  That is [x] itself when
    the mask is one everywhere. *)
Theorem identity_at_zero_init (fmt : Format) World ch hid k d nl p gin
  (fresh : LayerInit fmt World) l B T (x mask : Tensor fmt) (w : World) :
  ResidualCouplingLayer_init ch hid k d nl p gin true fresh = inr l ->
  (0 < ch)%Z -> (0 < hid)%Z ->
  enc_shape_preserving (enc l) (hidden_channels l) None ->
  0 < T -> shape B (channels l) T x -> shape B 1 T mask ->
  let n := half_channels l in
  conv_zero (post l) /\
  exists m logs y w',
    stats_trace l (map (firstn n) x) mask None w m logs w' /\
    logs = torch_zeros_like m /\
    ResidualCouplingLayer_forward l x mask None false w
    = (inr (y, repeat (fzero fmt) B), w') /\
    (forall b c t, b < B -> c < n -> get y b c t = get x b c t) /\
    (forall b c t, b < B -> c < n -> t < T ->
       is_finite (get m b c t) = true ->
       get m b c t = fzero fmt /\
       get y b (n + c) t = fmul (get x b (n + c) t) (get mask b 0 t)) /\
    ((forall b t, b < B -> t < T -> get mask b 0 t = fone fmt) ->
     (forall b c t, b < B -> c < n -> t < T ->
        is_finite (get m b c t) = true) ->
     y = x).
Proof.
  intros E Hc Hh Henc HT Hx Hmask n.
  destruct (layer_init_inv _ _ _ _ _ _ _ _ _ E) as (He & _ & _ & Hnet).
  destruct (@layer_init_even fmt World ch hid k d nl p gin true fresh (enc l)
              He ltac:(lia) ltac:(lia) Hnet)
    as (l' & E' & _ & _ & _ & _ & _ & _ & Mo & _ & Z & Wf).
  rewrite E in E'. inversion E'; subst l'. specialize (Wf Hc Hh).
  split; [assumption|].
  assert (Hx2 : shape B (half_channels l + half_channels l) T x).
  { destruct Wf as [<- _]. assumption. }
  destruct (zero_post_forward Wf Henc w Z Mo HT Hx2 Hmask)
    as (m & logs & y & w' & Tr & L & Sm & Zm & F & Sy & P & G).
  fold n in Tr, Sm, Zm, Sy, P, G, Hx2.
  exists m, logs, y, w'. repeat (split; [assumption|]).
  assert (G' : forall b c t, b < B -> c < n -> t < T ->
                 is_finite (get m b c t) = true ->
                 get m b c t = fzero fmt /\
                 get y b (n + c) t = fmul (get x b (n + c) t) (get mask b 0 t)).
  { intros b c t Hb Hc' Ht Fm. split; [now apply Zm|].
    rewrite G, (Zm b c t) by assumption. apply fadd_zero_l. }
  split; [exact G'|].
  intros Hone Hfin. apply (tensor_ext Sy Hx2). intros b c t Hb Hc' Ht.
  destruct (Nat.lt_ge_cases c n) as [Hlt|Hge]; [now apply P|].
  replace c with (n + (c - n)) by lia.
  assert (Hc2 : c - n < n) by lia.
  destruct (G' b (c - n) t Hb Hc2 Ht (Hfin b (c - n) t Hb Hc2 Ht)) as [_ ->].
  rewrite Hone by assumption. apply fmul_one_r.
Qed.

(** ** The example modules *)

Lemma id_net_shape_preserving (fmt : Arith) H g :
  enc_shape_preserving (@id_net fmt) H g.
Proof. intros B T h mask w _ Hh _. exists h, w. now split. Qed.

Lemma id_net_deterministic (fmt : Arith) : enc_deterministic (@id_net fmt).
Proof. intros h mask g w w'. reflexivity. Qed.

Lemma ex_shift_wf s : layer_wf (ex_shift s).
Proof.
  unfold layer_wf. simpl.
  repeat (split; [first [reflexivity | lia | apply (Conv1d_new_wf (fmt := real_format))]|]).
  reflexivity.
Qed.

Lemma ex_affine_wf : layer_wf ex_affine.
Proof.
  unfold layer_wf. simpl.
  repeat (split; [first [reflexivity | lia | apply (Conv1d_new_wf (fmt := real_format))]|]).
  reflexivity.
Qed.

Lemma binary_mask_intro {fmt : Format} (mask : Tensor fmt) :
  Forall (Forall (Forall (fun v : F fmt => v = fzero fmt \/ v = fone fmt)))
    mask ->
  binary_mask mask.
Proof.
  intros H b t. unfold get.
  destruct (nth_in_or_default b mask []) as [Hi|E].
  - rewrite Forall_forall in H. specialize (H _ Hi).
    destruct (nth_in_or_default 0 (nth b mask []) []) as [Hj|E].
    + rewrite Forall_forall in H. specialize (H _ Hj).
      destruct (nth_in_or_default t (nth 0 (nth b mask []) []) (fzero fmt))
        as [Hk|E]; [|now left].
      rewrite Forall_forall in H. exact (H _ Hk).
    + rewrite E. destruct t; now left.
  - rewrite E. destruct t; now left.
Qed.

Lemma ex_mask_binary : binary_mask ex_mask.
Proof.
  apply binary_mask_intro.
  repeat (apply Forall_cons || apply Forall_nil); auto.
Qed.

(** Equality of two results, value by value. *)
Ltac values_eq :=
  repeat match goal with
         | |- (_, _) = (_, _) => f_equal
         | |- inr _ = inr _ => f_equal
         | |- _ :: _ = _ :: _ => f_equal
         | |- Xfin _ = Xfin _ => f_equal
         end;
  try reflexivity; try lra.

(** Bring the arguments of [exp] in the goal to [0], [1] or [- 1]. *)
Ltac exp_args :=
  repeat match goal with
         | |- context [exp ?a] =>
             first [ progress (replace a with 0%R by lra)
                   | progress (replace a with 1%R by lra)
                   | progress (replace a with (Ropp 1) by lra) ]
         end.

Lemma exp_cancel (a : R) : (exp a * exp (- a))%R = 1%R.
Proof. rewrite <- exp_plus, Rplus_opp_r. apply exp_0. Qed.

(** The layer with a learned scale on [ex_x]: the valid time step is scaled
    by [exp 1] and shifted by [2], the padded one is zeroed, and the
    log-determinant is [1]. *)
Example ex_affine_forward :
  ResidualCouplingLayer_forward ex_affine ex_x ex_mask None false tt
  = (inr ([[[1; 2]; [2 + 3 * exp 1; 0]]]%R, [1%R]), tt).
Proof.
  cbn. unfold ret. exp_args. rewrite exp_0. values_eq.
Qed.

Example ex_affine_reverse :
  ResidualCouplingLayer_forward ex_affine
    ([[[1; 2]; [2 + 3 * exp 1; 0]]]%R : Tensor real_format) ex_mask None true tt
  = (inr [[[1; 2]; [3; 0]]]%R, tt).
Proof.
  cbn. unfold ret. exp_args. rewrite exp_0.
  pose proof (exp_cancel 1) as H.
  values_eq.
Qed.

(** The pass-through on the trained example layer. *)
Lemma coupling_pass_through_witness :
  exists (out : flow_ret real_format false) w',
    ResidualCouplingLayer_forward ex_trained ex_x ex_mask None false tt
    = (inr out, w') /\
    map (firstn 1) (ret_x out) = map (firstn 1) ex_x /\
    forall b c t, b < 1 -> c < 1 -> get (ret_x out) b c t = get ex_x b c t.
Proof.
  exact (@coupling_pass_through real_format unit ex_trained None
           (ex_shift_wf 1) (@id_net_shape_preserving real_format 1 None)
           1 2 ex_x ex_mask false tt (Nat.lt_0_succ 1)
           (has_shape_ok 1 2 2 ex_x eq_refl)
           (has_shape_ok 1 1 2 ex_mask eq_refl)).
Defined.

(** The masked statistics of the example layer with a learned scale, whose
    [logs] is one at the valid time step. *)
Lemma masked_steps_add_nothing_witness :
  exists (m logs y : Tensor real_format) w',
    stats_trace ex_affine (map (firstn 1) ex_x) ex_mask None tt m logs w' /\
    ResidualCouplingLayer_forward ex_affine ex_x ex_mask None false tt
    = (inr (y, torch_sum12 logs), w') /\
    (forall b c t, b < 1 -> c < 1 -> t < 2 ->
       get ex_mask b 0 t = 0%R ->
       get m b c t = 0%R /\ get logs b c t = 0%R) /\
    (forall b, b < 1 ->
       nth b (torch_sum12 logs) 0%R
       = sum_upto (fmt := real_format) 1 (fun c =>
           sum_upto (fmt := real_format) 2
             (fun t => (get logs b c t * get ex_mask b 0 t)%R))).
Proof.
  destruct (@masked_steps_add_nothing real_format unit ex_affine None
              ex_affine_wf (@id_net_shape_preserving real_format 1 None)
              1 2 ex_x ex_mask tt (Nat.lt_0_succ 1)
              (has_shape_ok 1 2 2 ex_x eq_refl)
              (has_shape_ok 1 1 2 ex_mask eq_refl) ex_mask_binary)
    as (m & logs & y & w' & H1 & H2 & _ & H4 & H5).
  exists m, logs, y, w'. split; [exact H1|]. split; [exact H2|]. split.
  - intros b c t Hb Hc Ht E0.
    destruct (H4 b c t Hb Hc Ht E0) as [Zm Zl]. split; auto.
  - intros b Hb. apply (H5 b Hb). reflexivity.
Defined.

(** The forward postcondition on the trained example layer. *)
Lemma coupling_forward_postcondition_witness :
  exists (m logs y1 y : Tensor real_format) w',
    torch_split2 ex_x 1 = inr ([[[1; 2]]]%R, [[[3; 4]]]%R) /\
    stats_trace ex_trained [[[1; 2]]]%R ex_mask None tt m logs w' /\
    ResidualCouplingLayer_forward ex_trained ex_x ex_mask None false tt
    = (inr (y, torch_sum12 logs), w') /\
    torch_cat1 [[[1; 2]]]%R y1 = inr y /\
    shape 1 1 2 y1 /\
    (forall b c t, b < 1 -> c < 1 -> t < 2 ->
       get y1 b c t
       = (get m b c t
          + get (fmt := real_format) [[[3; 4]]]%R b c t * exp (get logs b c t)
            * get ex_mask b 0 t)%R).
Proof.
  destruct (@coupling_forward_postcondition real_format unit ex_trained None
              (ex_shift_wf 1) (@id_net_shape_preserving real_format 1 None)
              1 2 ex_x ex_mask tt (Nat.lt_0_succ 1)
              (has_shape_ok 1 2 2 ex_x eq_refl)
              (has_shape_ok 1 1 2 ex_mask eq_refl))
    as (m & logs & y1 & y & w' & H1 & H2 & H3 & H4 & H5 & H6 & _).
  exists m, logs, y1, y, w'. repeat (split; [assumption|]). exact H6.
Defined.


(** A freshly constructed layer of two channels on the example input. *)
Lemma identity_at_zero_init_witness :
  exists l,
    ResidualCouplingLayer_init 2 1 1 1 1 0 0 true ex_init = inr l /\
    conv_zero (post l) /\
    exists (y : Tensor real_format) w',
      ResidualCouplingLayer_forward l ex_x ex_mask None false tt
      = (inr (y, [0%R]), w') /\
      (forall b c t, b < 1 -> c < 1 -> t < 2 ->
         get y b (1 + c) t = (get ex_x b (1 + c) t * get ex_mask b 0 t)%R).
Proof.
  eexists. split; [reflexivity|].
  destruct (@identity_at_zero_init real_format unit 2 1 1 1 1 0 0 ex_init _
              1 2 ex_x ex_mask tt eq_refl eq_refl eq_refl
              (@id_net_shape_preserving real_format 1 None)
              (Nat.lt_0_succ 1)
              (has_shape_ok 1 2 2 ex_x eq_refl)
              (has_shape_ok 1 1 2 ex_mask eq_refl))
    as (H1 & m & logs & y & w' & _ & _ & H3 & _ & H4 & _).
  split; [assumption|].
  exists y, w'. split; [assumption|].
  intros b c t Hb Hc Ht. now apply (H4 b c t).
Defined.

(** ** Where the code differs from the specification *)

(** The mask multiplies [x1 * exp(logs)] only: with a mask of one half and
    [m = 1/2] the second half of the result is [1/2], not [1/4]. *)
Lemma coupling_forward_mask_not_outer :
  let x : Tensor real_format := [[[0]; [0]]]%R in
  let mask : Tensor real_format := [[[/ 2]]]%R in
  let m : Tensor real_format := [[[/ 2]]]%R in
  let logs : Tensor real_format := [[[0]]]%R in
  let y : Tensor real_format := [[[0]; [/ 2]]]%R in
  coupling_stats ex_trained [[[0]]]%R mask None tt = (inr (m, logs), tt) /\
  ResidualCouplingLayer_forward ex_trained x mask None false tt
  = (inr (y, [0%R]), tt) /\
  get y 0 1 0
  <> ((get m 0 0 0 + get x 0 1 0 * exp (get logs 0 0 0)) * get mask 0 0 0)%R.
Proof.
  cbv zeta. split; [|split].
  - cbn. unfold ret. values_eq.
  - cbn. unfold ret. rewrite exp_0. values_eq.
  - cbn. rewrite exp_0. lra.
Qed.

(** The layer that the constructor builds from [ex_init] is the example
    layer with shift zero. *)
Lemma ex_init_constructs :
  ResidualCouplingLayer_init 2 1 1 1 1 0 0 true ex_init = inr (ex_shift 0).
Proof. reflexivity. Qed.

(** Right after construction the layer still multiplies the second half by
    the mask: where the mask is zero the result is not [x]. *)
Lemma zero_init_masks_second_half :
  exists l,
    ResidualCouplingLayer_init 2 1 1 1 1 0 0 true ex_init = inr l /\
    ResidualCouplingLayer_forward l
      ([[[5]; [7]]]%R : Tensor real_format) [[[0]]]%R None false tt
    = (inr ([[[5]; [0]]]%R, [0%R]), tt) /\
    ([[[5]; [0]]]%R, [0%R]) <> ([[[5]; [7]]]%R, [0%R]).
Proof.
  exists (ex_shift 0). split; [exact ex_init_constructs|]. split.
  - cbn. unfold ret. rewrite exp_0. values_eq.
  - intros H. inversion H. lra.
Qed.

(** Decide the tests on the sign of a real number that the arithmetic with
    infinities makes. *)
Ltac sign_tests :=
  repeat match goal with
         | |- context [Req_dec_T (exp ?a) ?b] =>
             destruct (Req_dec_T (exp a) b);
             [exfalso; pose proof (exp_pos a); lra|]
         | |- context [Rlt_dec ?b (exp ?a)] =>
             destruct (Rlt_dec b (exp a));
             [|exfalso; pose proof (exp_pos a); lra]
         | |- context [Req_dec_T ?a ?b] =>
             destruct (Req_dec_T a b); try (exfalso; lra)
         | |- context [Rlt_dec ?a ?b] =>
             destruct (Rlt_dec a b); try (exfalso; lra)
         end.

Ltac run_with_infinities :=
  cbn; unfold ret, lift, xinf_times; sign_tests;
  cbn; unfold xinf_times; sign_tests; cbn;
  exp_args; rewrite ?exp_0; values_eq.

Lemma xex_mask_binary : binary_mask xex_mask.
Proof.
  apply binary_mask_intro.
  repeat (apply Forall_cons || apply Forall_nil); auto.
Qed.

(** An infinity in the first half of the input at a time step where the
    mask is zero: [pre(x0) * mask] is [inf * 0], not a number, and so are
    [m] and [logs] at that step and the log-determinant of the batch
    element, whose sum over the valid time step is [1]. *)
Lemma masked_infinity_reaches_logdet :
  let m : Tensor xreal_format := [[[Xfin 2; Xnan]]] in
  let logs : Tensor xreal_format := [[[Xfin 1; Xnan]]] in
  let y : Tensor xreal_format :=
    [[[Xfin 1; Xinf false]; [Xfin (2 + 3 * exp 1); Xnan]]] in
  binary_mask xex_mask /\ get xex_mask 0 0 1 = fzero xreal_format /\
  coupling_stats xex_affine [[[Xfin 1; Xinf false]]] xex_mask None tt
  = (inr (m, logs), tt) /\
  ResidualCouplingLayer_forward xex_affine xex_inf_first xex_mask None false tt
  = (inr (y, [Xnan]), tt) /\
  get m 0 0 1 <> fzero xreal_format /\
  get logs 0 0 1 <> fzero xreal_format /\
  [Xnan] <> [get logs 0 0 0].
Proof.
  cbv zeta. split; [exact xex_mask_binary|]. split; [reflexivity|].
  split; [run_with_infinities|]. split; [run_with_infinities|].
  repeat split; discriminate.
Qed.


(** ** Construction of the stack *)

Lemma mapM_inr {A B} (f : A -> result B) (dx : A) (dy : B) :
  forall xs ys, mapM f xs = inr ys ->
    length ys = length xs /\
    forall i, i < length xs -> f (nth i xs dx) = inr (nth i ys dy).
Proof.
  induction xs as [|x xs IH]; intros ys E; simpl in E.
  - inversion E. split; [reflexivity|]. simpl. lia.
  - destruct (f x) as [e|y] eqn:Ex; [discriminate|]. simpl in E.
    destruct (mapM f xs) as [e|ys'] eqn:Es; [discriminate|]. simpl in E.
    inversion E; subst. destruct (IH ys' eq_refl) as [Hl Hn].
    split; [simpl; lia|]. intros [|i] Hi; simpl; [assumption|].
    apply Hn. simpl in Hi. lia.
Qed.

Lemma mapM_length {A B} (f : A -> result B) :
  forall xs ys, mapM f xs = inr ys -> length ys = length xs.
Proof.
  induction xs as [|x xs IH]; intros ys E; simpl in E.
  - now inversion E.
  - destruct (f x) as [e|y]; [discriminate|]. simpl in E.
    destruct (mapM f xs) as [e|ys'] eqn:Es; [discriminate|]. simpl in E.
    inversion E; subst. simpl. f_equal. now apply IH.
Qed.

Lemma mapM_all {A B} (f : A -> result B) :
  forall xs, (forall x, In x xs -> exists y, f x = inr y) ->
    exists ys, mapM f xs = inr ys.
Proof.
  induction xs as [|x xs IH]; intros H; simpl; [eauto|].
  destruct (H x (or_introl eq_refl)) as [y ->].
  destruct IH as [ys ->]; [intros; apply H; now right|]. simpl. eauto.
Qed.

Section BlockConstruction.

Context {fmt : Arith}.
Variable World : Type.
Variables ch hid k d nl gin : Z.
Variable fresh : nat -> LayerInit fmt World.

Local Abbreviation step := (append_flow ch hid k d nl gin fresh).
Local Abbreviation new_layer :=
  (fun i => ResidualCouplingLayer_init ch hid k d nl 0 gin true (fresh i)).

Lemma fold_step_inl e (l : list nat) : fold_left step l (inl e) = inl e.
Proof. induction l as [|i l IH]; simpl; auto. Qed.

(** The loop of the constructor builds the layers one after the other and
    stops at the first that fails. *)
Lemma fold_step_layers (l : list nat) : forall acc,
  fold_left step l (inr acc)
  = rbind (mapM new_layer l)
      (fun layers => inr (acc ++ flat_map (@layer_pair fmt World) layers)).
Proof.
  induction l as [|i l IH]; intros acc; cbn [fold_left mapM rbind].
  - now rewrite app_nil_r.
  - unfold append_flow at 2. cbn [rbind].
    destruct (new_layer i) as [e|layer]; cbn [rbind].
    + apply fold_step_inl.
    + rewrite IH. destruct (mapM new_layer l) as [e|layers]; cbn [rbind];
        [reflexivity|].
      cbn [flat_map layer_pair]. now rewrite <- !app_assoc.
Qed.

Lemma build_flows_layers n :
  build_flows ch hid k d nl n gin fresh
  = rbind (mapM new_layer (seq 0 (Z.to_nat n)))
      (fun layers => inr (flat_map (@layer_pair fmt World) layers)).
Proof. unfold build_flows. apply (fold_step_layers _ []). Qed.

Lemma length_flat_pairs (l : list (ResidualCouplingLayer fmt World)) :
  length (flat_map (@layer_pair fmt World) l) = 2 * length l.
Proof. induction l as [|i l IH]; simpl; [reflexivity|]. rewrite IH. lia. Qed.

Lemma nth_flat_pairs (l : list (ResidualCouplingLayer fmt World)) :
  forall i dl dflt,
    i < length l ->
    nth (2 * i) (flat_map (@layer_pair fmt World) l) dflt
    = Coupling (nth i l dl) /\
    nth (2 * i + 1) (flat_map (@layer_pair fmt World) l) dflt = FlipModule.
Proof.
  induction l as [|a l IH]; intros i dl dflt Hi; [simpl in Hi; lia|].
  destruct i as [|i].
  - simpl. auto.
  - replace (2 * S i) with (S (S (2 * i))) by lia.
    replace (S (S (2 * i)) + 1) with (S (S (2 * i + 1))) by lia.
    cbn [flat_map layer_pair app nth].
    apply IH. simpl in Hi. lia.
Qed.

End BlockConstruction.

(** What a successful construction leaves in [self.flows]. *)
Lemma constructed_flows fmt World ch hid k d nl n gin
  (fresh : nat -> LayerInit fmt World) (b : ResidualCouplingBlock fmt World) :
  ResidualCouplingBlock_init ch hid k d nl n gin fresh = inr b ->
  exists layers,
    length layers = Z.to_nat n /\
    flows b = flat_map (@layer_pair fmt World) layers /\
    forall i dl, i < Z.to_nat n ->
      ResidualCouplingLayer_init ch hid k d nl 0 gin true (fresh i)
      = inr (nth i layers dl).
Proof.
  intros Hinit. unfold ResidualCouplingBlock_init in Hinit.
  rewrite build_flows_layers in Hinit.
  destruct (mapM _ (seq 0 (Z.to_nat n))) as [e|layers] eqn:E;
    [discriminate|].
  cbn [rbind] in Hinit. inversion Hinit. cbn [flows].
  exists layers. split; [|split; [reflexivity|]].
  - rewrite (mapM_length _ _ E). apply length_seq.
  - intros i dl Hi.
    destruct (mapM_inr _ 0 dl _ E) as [_ Hn].
    rewrite length_seq in Hn. specialize (Hn i Hi).
    now rewrite seq_nth in Hn.
Qed.

Section ConstructionCases.

Context {fmt : Format}.
Variable World : Type.

(** The attributes of a constructed layer. *)
Lemma layer_init_fields ch hid k d nl p gin (mo : bool)
  (fresh : LayerInit fmt World) l :
  ResidualCouplingLayer_init ch hid k d nl p gin mo fresh = inr l ->
  channels l = Z.to_nat ch /\ hidden_channels l = Z.to_nat hid /\
  kernel_size l = k /\ dilation_rate l = d /\ n_layers l = nl /\
  half_channels l = Z.to_nat (ch / 2) /\ mean_only l = mo /\
  WaveNet fresh hid k d nl p gin = inr (enc l) /\
  conv_zero (post l) /\
  channels l = half_channels l + half_channels l /\
  ((0 < ch)%Z -> (0 < hid)%Z -> layer_wf l).
Proof.
  intros E.
  destruct (layer_init_inv _ _ _ _ _ _ _ _ _ E) as (He & Hc & Hh & Hnet).
  destruct (@layer_init_even fmt World ch hid k d nl p gin mo fresh (enc l)
              He Hc Hh Hnet)
    as (l' & E' & F1 & F2 & F3 & F4 & F5 & F6 & F7 & _ & Z & Wf).
  rewrite E in E'. inversion E'; subst l'.
  repeat (split; [assumption|]). split; [|assumption].
  rewrite F1, F6. pose proof (Z.div_mod ch 2 ltac:(lia)). lia.
Qed.

(** A layer is constructed exactly when the assertion passes and the three
    constructors accept their arguments. *)
Lemma layer_init_succeeds ch hid k d nl p gin (mo : bool)
  (fresh : LayerInit fmt World) :
  (exists l, ResidualCouplingLayer_init ch hid k d nl p gin mo fresh = inr l)
  <-> (ch mod 2 = 0)%Z /\ (0 <= ch)%Z /\ (0 <= hid)%Z /\
      exists net, WaveNet fresh hid k d nl p gin = inr net.
Proof.
  split.
  - intros [l E].
    destruct (layer_init_inv _ _ _ _ _ _ _ _ _ E) as (He & Hc & Hh & Hnet).
    eauto 6.
  - intros (He & Hc & Hh & net & Hnet).
    destruct (@layer_init_even fmt World ch hid k d nl p gin mo fresh net
                He Hc Hh Hnet) as (l & E & _).
    eauto.
Qed.

Lemma block_init_succeeds ch hid k d nl n gin
  (fresh : nat -> LayerInit fmt World) :
  (exists b, ResidualCouplingBlock_init ch hid k d nl n gin fresh = inr b)
  <-> (n <= 0)%Z \/
      ((ch mod 2 = 0)%Z /\ (0 <= ch)%Z /\ (0 <= hid)%Z /\
       forall i, i < Z.to_nat n ->
         exists net, WaveNet (fresh i) hid k d nl 0 gin = inr net).
Proof.
  unfold ResidualCouplingBlock_init. rewrite build_flows_layers.
  split.
  - intros [b E].
    destruct (mapM _ (seq 0 (Z.to_nat n))) as [e|layers] eqn:Em;
      [discriminate|].
    destruct (Z_le_gt_dec n 0) as [Hn|Hn]; [now left|right].
    assert (Hall : forall i, i < Z.to_nat n ->
              exists l, ResidualCouplingLayer_init ch hid k d nl 0 gin true
                          (fresh i) = inr l).
    { intros i Hi. destruct layers as [|l0 ls].
      - apply mapM_length in Em. rewrite length_seq in Em. simpl in Em. lia.
      - destruct (mapM_inr _ 0 l0 _ Em) as [_ Hnth].
        rewrite length_seq in Hnth. specialize (Hnth i Hi).
        rewrite seq_nth in Hnth by assumption. eauto. }
    destruct (proj1 (layer_init_succeeds _ _ _ _ _ _ _ _ _)
                (Hall 0 ltac:(lia))) as (He & Hc & Hh & _).
    repeat (split; [assumption|]). intros i Hi.
    now destruct (proj1 (layer_init_succeeds _ _ _ _ _ _ _ _ _) (Hall i Hi))
      as (_ & _ & _ & Hnet).
  - intros H.
    destruct (@mapM_all _ _
                (fun i => ResidualCouplingLayer_init ch hid k d nl 0 gin true
                            (fresh i))
                (seq 0 (Z.to_nat n))) as [layers ->]; [|simpl; eauto].
    intros i Hi. apply in_seq in Hi.
    destruct H as [Hn|(He & Hc & Hh & Hnet)]; [lia|].
    apply layer_init_succeeds. repeat (split; [assumption|]).
    apply Hnet. lia.
Qed.

Lemma block_init_odd ch hid k d nl n gin
  (fresh : nat -> LayerInit fmt World) :
  (ch mod 2 <> 0)%Z -> (0 < n)%Z ->
  ResidualCouplingBlock_init ch hid k d nl n gin fresh
  = inl (AssertionError "channels should be divisible by 2").
Proof.
  intros Ho Hn. unfold ResidualCouplingBlock_init.
  rewrite build_flows_layers.
  destruct (Z.to_nat n) as [|N] eqn:EN; [lia|].
  cbn [seq mapM rbind]. now rewrite layer_init_odd.
Qed.

Lemma block_init_empty ch hid k d nl n gin
  (fresh : nat -> LayerInit fmt World) :
  (n <= 0)%Z ->
  exists b, ResidualCouplingBlock_init ch hid k d nl n gin fresh = inr b /\
            flows b = [].
Proof.
  intros Hn. unfold ResidualCouplingBlock_init, build_flows.
  replace (Z.to_nat n) with 0 by lia. simpl. eauto.
Qed.

End ConstructionCases.

(** C8, as the code has it.  Constructing a coupling layer fails with the
    assertion error whenever [channels] is odd.  When [channels] is even the
    assertion passes: the layer is then constructed, with
    [half_channels = channels / 2], exactly when [channels] and
    [hidden_channels] are not negative and the constructor of the network
    returns; with a negative even [channels] the constructor of [pre]
    raises.  Constructing the stack fails with the assertion error when
    [channels] is odd and [n_flows] is positive; with [n_flows <= 0] no
    layer is constructed and the stack is, whatever [channels]. *)
Theorem construction_parity (fmt : Format) World ch hid k d nl p gin
  (mo : bool) (fresh1 : LayerInit fmt World) n
  (fresh : nat -> LayerInit fmt World) :
  ((ch mod 2 <> 0)%Z ->
   ResidualCouplingLayer_init ch hid k d nl p gin mo fresh1
   = inl (AssertionError "channels should be divisible by 2")) /\
  ((exists l, ResidualCouplingLayer_init ch hid k d nl p gin mo fresh1 = inr l)
   <-> (ch mod 2 = 0)%Z /\ (0 <= ch)%Z /\ (0 <= hid)%Z /\
       exists net, WaveNet fresh1 hid k d nl p gin = inr net) /\
  (forall l,
     ResidualCouplingLayer_init ch hid k d nl p gin mo fresh1 = inr l ->
     Z.of_nat (half_channels l) = (ch / 2)%Z /\
     Z.of_nat (channels l) = ch) /\
  ((ch mod 2 = 0)%Z -> (ch < 0)%Z ->
   ResidualCouplingLayer_init ch hid k d nl p gin mo fresh1
   = inl (RuntimeError "Trying to create tensor with negative dimension")) /\
  ((ch mod 2 <> 0)%Z -> (0 < n)%Z ->
   ResidualCouplingBlock_init ch hid k d nl n gin fresh
   = inl (AssertionError "channels should be divisible by 2")) /\
  ((n <= 0)%Z ->
   exists b, ResidualCouplingBlock_init ch hid k d nl n gin fresh = inr b /\
             flows b = []) /\
  ((exists b, ResidualCouplingBlock_init ch hid k d nl n gin fresh = inr b)
   <-> (n <= 0)%Z \/
       ((ch mod 2 = 0)%Z /\ (0 <= ch)%Z /\ (0 <= hid)%Z /\
        forall i, i < Z.to_nat n ->
          exists net, WaveNet (fresh i) hid k d nl 0 gin = inr net)).
Proof.
  split; [apply layer_init_odd|].
  split; [apply layer_init_succeeds|]. split.
  - intros l E.
    destruct (layer_init_inv _ _ _ _ _ _ _ _ _ E) as (He & Hc & _).
    destruct (layer_init_fields _ _ _ _ _ _ _ _ _ E)
      as (F1 & _ & _ & _ & _ & F6 & _).
    rewrite F1, F6. pose proof (Z.div_mod ch 2 ltac:(lia)). lia.
  - split; [apply layer_init_negative|].
    split; [apply block_init_odd|].
    split; [apply block_init_empty|apply block_init_succeeds].
Qed.

(** A stack of no flows and three channels is constructed. *)
Lemma odd_channels_empty_stack :
  (3 mod 2 <> 0)%Z /\
  exists b,
    ResidualCouplingBlock_init 3 1 1 1 1 0 0 (fun _ => ex_init) = inr b /\
    flows b = [].
Proof. split; [discriminate|]. eexists. split; reflexivity. Qed.

(** With [channels = -2] the assertion passes and the constructor of [pre]
    raises. *)
Lemma negative_channels_pass_assertion :
  ((-2) mod 2 = 0)%Z /\
  ResidualCouplingLayer_init (-2) 1 1 1 1 0 0 true ex_init
  = inl (RuntimeError "Trying to create tensor with negative dimension").
Proof. split; reflexivity. Qed.

(** ** The order in which the stages are applied *)

Section BlockOrder.

Context {fmt : Arith}.
Variable World : Type.

Lemma forward_pairs_flows (layers : list (ResidualCouplingLayer fmt World))
  x mask g w :
  foldM (fun x flow => '(x, _) <- call flow x mask g false ;; ret x)
    (flat_map (@layer_pair fmt World) layers) x w
  = forward_pairs layers x mask g w.
Proof.
  revert x w. induction layers as [|a layers IH]; intros x w;
    [reflexivity|].
  cbn [flat_map layer_pair app foldM forward_pairs call]. unfold bind.
  destruct (ResidualCouplingLayer_forward a x mask g false w)
    as [[e|[y ld]] w1]; [reflexivity|].
  cbn [fst]. unfold ret at 1 2. cbn [Flip_forward fst]. apply IH.
Qed.

Lemma reverse_pairs_flows (layers : list (ResidualCouplingLayer fmt World))
  x mask g w :
  foldM (fun x flow => call flow x mask g true)
    (rev (flat_map (@layer_pair fmt World) layers)) x w
  = reverse_pairs layers x mask g w.
Proof.
  revert x w. induction layers as [|a layers IH]; intros x w;
    [reflexivity|].
  cbn [flat_map layer_pair app rev reverse_pairs].
  rewrite foldM_app. unfold bind at 1. rewrite foldM_app. unfold bind at 1.
  rewrite IH. unfold bind.
  destruct (reverse_pairs layers x mask g w) as [[e|y] w1]; [reflexivity|].
  cbn [foldM call]. unfold bind, ret.
  destruct (ResidualCouplingLayer_forward a (Flip_forward y true) mask g true w1)
    as [[e|z] w2]; reflexivity.
Qed.

End BlockOrder.

(** C4.  A constructed stack holds [2 * n_flows] stages, a coupling layer
    and a flip in turn; every layer is built by the constructor of the layer
    with [mean_only=True] and the configuration of the stack.  With
    [reverse=False] the stack applies [ResidualCouplingLayer.forward] of the
    first layer, then [Flip.forward], then the second layer, and so on in
    the order of construction, dropping the log-determinants; with
    [reverse=True] it applies the stages from the last flip down to the
    first layer, each with [reverse=True], and returns the tensor alone. *)
Theorem stack_structure (fmt : Format) World ch hid k d nl n gin
  (fresh : nat -> LayerInit fmt World) (b : ResidualCouplingBlock fmt World) :
  ResidualCouplingBlock_init ch hid k d nl n gin fresh = inr b ->
  exists layers,
    length layers = Z.to_nat n /\
    length (flows b) = 2 * Z.to_nat n /\
    flows b = flat_map (@layer_pair fmt World) layers /\
    (forall i dl, i < Z.to_nat n ->
       let layer := nth i layers dl in
       ResidualCouplingLayer_init ch hid k d nl 0 gin true (fresh i)
       = inr layer /\
       nth (2 * i) (flows b) FlipModule = Coupling layer /\
       nth (2 * i + 1) (flows b) (Coupling layer) = FlipModule /\
       mean_only layer = true /\ channels layer = Z.to_nat ch /\
       hidden_channels layer = Z.to_nat hid /\ kernel_size layer = k /\
       dilation_rate layer = d /\ n_layers layer = nl /\
       WaveNet (fresh i) hid k d nl 0 gin = inr (enc layer)) /\
    (forall x mask g w,
       ResidualCouplingBlock_forward b x mask g false w
       = forward_pairs layers x mask g w) /\
    (forall x mask g w,
       ResidualCouplingBlock_forward b x mask g true w
       = reverse_pairs layers x mask g w).
Proof.
  intros Hinit.
  destruct (constructed_flows _ _ _ _ _ _ _ _ Hinit)
    as (layers & Hlen & Hfl & Hl).
  exists layers. split; [assumption|].
  split; [rewrite Hfl, length_flat_pairs; lia|]. split; [assumption|].
  split.
  - intros i dl Hi layer. specialize (Hl i dl Hi). fold layer in Hl.
    split; [assumption|]. rewrite Hfl.
    destruct (@nth_flat_pairs fmt World layers i dl FlipModule ltac:(lia))
      as [H1 _].
    destruct (@nth_flat_pairs fmt World layers i dl (Coupling layer) ltac:(lia))
      as [_ H2].
    split; [exact H1|]. split; [exact H2|].
    destruct (layer_init_fields _ _ _ _ _ _ _ _ _ Hl)
      as (F1 & F2 & F3 & F4 & F5 & _ & F7 & F8 & _).
    auto 10.
  - split; intros x mask g w; unfold ResidualCouplingBlock_forward;
      rewrite Hfl; simpl.
    + apply forward_pairs_flows.
    + apply reverse_pairs_flows.
Qed.

(** A constructed stack of one flow on the example input: forward, the
    layer zeroes the padded time step of the second half and the flip then
    exchanges the halves; in reverse, the flip comes first and the layer
    zeroes the padded time step of what was the first half. *)
Lemma stack_structure_witness :
  exists b : ResidualCouplingBlock real_format unit,
    ResidualCouplingBlock_init 2 1 1 1 1 1 0 (fun _ => ex_init) = inr b /\
    flows b = [Coupling (ex_shift 0); FlipModule] /\
    ResidualCouplingBlock_forward b ex_x ex_mask None false tt
    = (inr [[[3; 0]; [1; 2]]]%R, tt) /\
    ResidualCouplingBlock_forward b ex_x ex_mask None true tt
    = (inr [[[3; 4]; [1; 0]]]%R, tt).
Proof.
  eexists. split; [reflexivity|].
  destruct (@stack_structure real_format unit 2 1 1 1 1 1 0
              (fun _ => ex_init) _ eq_refl)
    as (layers & Hlen & _ & Hfl & _ & Hf & Hr).
  destruct layers as [|l0 [|l1 ls]]; try discriminate.
  cbn [flows flat_map layer_pair app] in Hfl. inversion Hfl as [El].
  assert (E0 : l0 = ex_shift 0) by (rewrite <- El; reflexivity).
  split; [reflexivity|]. rewrite Hf, Hr, E0. split.
  - cbn. unfold ret. rewrite exp_0. values_eq.
  - cbn. unfold ret. rewrite Ropp_0, exp_0. values_eq.
Defined.

(** ** Forward and back through the stack *)

Section RoundTrip.

Context {fmt : Format}.
Variable World : Type.
Variable g : option (Tensor fmt).
Variable mask : Tensor fmt.
Variables B T half : nat.
Hypothesis HT : 0 < T.
Hypothesis Hmask : shape B 1 T mask.

(** A stage that is exact on its input is undone by its reverse call. *)
Lemma stage_round_trip (f : Flow fmt World) x w :
  flow_wf half g f ->
  shape B (half + half) T x ->
  stage_exact B T mask g false f x w ->
  exists y ld w1,
    call f x mask g false w = (inr (y, ld), w1) /\
    shape B (half + half) T y /\
    forall w2, exists w3, call f y mask g true w2 = (inr x, w3).
Proof.
  intros Hf Hx Hex. destruct f as [l|]; simpl in *.
  - destruct Hf as (Hwf & <- & Henc & Hd).
    destruct (layer_round_trip Hwf Henc w Hd HT Hx Hmask)
      as (m & logs & y & w1 & Tr & E & Sy & F0 & G & RT).
    exists y, (torch_sum12 logs), w1.
    split; [assumption|]. split; [assumption|].
    intros w2. destruct (RT w2) as (z & w3 & E2 & Sz & F2 & G2).
    exists w3. rewrite E2. do 2 f_equal.
    apply (tensor_ext Sz Hx). intros b c t Hb Hc Ht.
    destruct (Nat.lt_ge_cases c (half_channels l)) as [Hc1|Hc1].
    + exact (@get_first_half fmt World l B T x z b c t Hx Sz F2 Hb Hc1).
    + replace c with (half_channels l + (c - half_channels l)) by lia.
      assert (Hc2 : c - half_channels l < half_channels l) by lia.
      rewrite G2, G by assumption.
      exact (Hex m logs w1 Tr b (c - half_channels l) t Hb Hc2 Ht).
  - exists (torch_flip1 x), (torch_zeros fmt (length (torch_flip1 x))), w.
    split; [reflexivity|]. split; [now apply shape_flip|].
    intros w2. exists w2. unfold ret, Flip_forward. simpl.
    now rewrite flip_flip.
Qed.

Lemma stages_round_trip (stages : list (Flow fmt World)) :
  Forall (flow_wf half g) stages ->
  forall x w,
    shape B (half + half) T x ->
    exact_along B T mask g false stages x w ->
    exists y w1,
      foldM (fun x flow => '(x, _) <- call flow x mask g false ;; ret x)
        stages x w = (inr y, w1) /\
      shape B (half + half) T y /\
      forall w2, exists w3,
        foldM (fun x flow => call flow x mask g true) (rev stages) y w2
        = (inr x, w3).
Proof.
  induction 1 as [|f fs Hf Hfs IH]; intros x w Hx Hex.
  - exists x, w. repeat (split; [easy|]). intros w2. now exists w2.
  - destruct Hex as [Hex1 Hex2].
    destruct (@stage_round_trip f x w Hf Hx Hex1)
      as (y1 & ld & w1 & E1 & S1 & R1).
    destruct (IH y1 w1 S1 (Hex2 (y1, ld) w1 E1)) as (y & w' & E & Sy & R).
    exists y, w'. split; [|split; [assumption|]].
    + cbn [foldM]. unfold bind. rewrite E1. exact E.
    + intros w2. destruct (R w2) as (w3 & E3). destruct (R1 w3) as (w4 & E4).
      exists w4. cbn [rev]. rewrite foldM_app. unfold bind. rewrite E3.
      cbn [foldM]. unfold bind. now rewrite E4.
Qed.

End RoundTrip.

(** C1, as the code has it.  For a stack whose stages have the sizes of
    constructed stages, whatever the values of their parameters, with
    deterministic networks, on a well-shaped input with a time axis that is
    not empty: when, at every stage of the forward pass and every element,
    the arithmetic of the reverse direction undoes that of the forward
    direction ([exact_along]), forward and then reverse, with the same mask
    and conditioning, returns the input. *)
Theorem flow_round_trip (fmt : Format) World
  (b : ResidualCouplingBlock fmt World)
  (g : option (Tensor fmt)) (x mask : Tensor fmt) B T half (w : World) :
  Forall (flow_wf half g) (flows b) ->
  0 < T -> shape B (half + half) T x -> shape B 1 T mask ->
  exact_along B T mask g false (flows b) x w ->
  exists y w1,
    ResidualCouplingBlock_forward b x mask g false w = (inr y, w1) /\
    shape B (half + half) T y /\
    forall w2, exists w3,
      ResidualCouplingBlock_forward b y mask g true w2 = (inr x, w3).
Proof.
  intros Hfl HT Hx Hmask Hex.
  exact (stages_round_trip HT Hmask Hfl w Hx Hex).
Qed.

(** ** When the arithmetic is exact *)

(** In any format, a shift [m] of zero with [logs] zero is undone exactly,
    where the mask is one, and where it is zero and so is [x1]: this is the
    arithmetic of a layer right after construction. *)
Lemma undoes_at_zero_shift {fmt : Format} (m logs x mask : Tensor fmt)
  n b c t :
  get m b c t = fzero fmt -> get logs b c t = fzero fmt ->
  get mask b 0 t = fone fmt \/
  (get mask b 0 t = fzero fmt /\ get x b (n + c) t = fzero fmt) ->
  undoes_at m logs x mask n b c t.
Proof.
  intros Em El Hk. unfold undoes_at. rewrite Em, El.
  rewrite fneg_zero, fexp_zero, !fmul_one_r, fadd_zero_l.
  destruct Hk as [->|[-> ->]].
  - now rewrite !fmul_one_r, fsub_zero_r.
  - rewrite (fmul_zero_r _ _ (finite_zero fmt)), fsub_zero_r.
    apply fmul_zero_r. apply finite_zero.
Qed.

Lemma zero_where_masked_intro {fmt : Format} B C T (x mask : Tensor fmt) :
  shape B C T x ->
  (forall b c t, b < B -> c < C -> t < T ->
     get mask b 0 t = fzero fmt -> get x b c t = fzero fmt) ->
  zero_where_masked x mask.
Proof.
  intros Hx H b c t E0.
  destruct (Nat.lt_ge_cases b B); [|apply (get_outside Hx); lia].
  destruct (Nat.lt_ge_cases c C); [|apply (get_outside Hx); lia].
  destruct (Nat.lt_ge_cases t T); [|apply (get_outside Hx); lia].
  now apply H.
Qed.

(** The operations of [real_format] are those of the real numbers. *)
Ltac real_ops :=
  change (@fadd real_format) with Rplus in *;
  change (@fsub real_format) with Rminus in *;
  change (@fmul real_format) with Rmult in *;
  change (@fneg real_format) with Ropp in *;
  change (@fexp real_format) with exp in *;
  change (fzero real_format) with 0%R in *;
  change (fone real_format) with 1%R in *;
  change (F real_format) with R in *.

Section RealExact.

Variable World : Type.
Variable g : option (Tensor real_format).
Variable mask : Tensor real_format.
Variables B T half : nat.
Hypothesis HT : 0 < T.
Hypothesis Hmask : shape B 1 T mask.
Hypothesis Hbin : binary_mask mask.

Local Abbreviation rget := (@get real_format).

(** In exact arithmetic, with a mask of zeros and ones, the reverse
    arithmetic undoes the forward arithmetic wherever the mask is one, and
    wherever it is zero and so is [x1]. *)
Lemma real_undoes_at (m logs x : Tensor real_format) n b c t :
  (rget mask b 0 t = 0%R -> rget x b (n + c) t = 0%R) ->
  undoes_at m logs x mask n b c t.
Proof.
  intros H0. unfold undoes_at. real_ops.
  pose proof (exp_cancel (rget logs b c t)) as Hee.
  set (e := exp (rget logs b c t)) in *.
  set (e' := exp (- rget logs b c t)) in *.
  set (X := rget x b (n + c) t) in *.
  set (mv := rget m b c t).
  destruct (Hbin b t) as [E0|E1]; real_ops.
  - rewrite E0, (H0 E0). lra.
  - rewrite E1.
    replace ((mv + X * e * 1 - mv) * e' * 1)%R with (X * (e * e'))%R by ring.
    rewrite Hee. ring.
Qed.

Lemma real_redoes_at (m logs x : Tensor real_format) n b c t :
  (rget mask b 0 t = 0%R -> rget x b (n + c) t = 0%R /\ rget m b c t = 0%R) ->
  redoes_at m logs x mask n b c t.
Proof.
  intros H0. unfold redoes_at. real_ops.
  pose proof (exp_cancel (rget logs b c t)) as Hee.
  set (e := exp (rget logs b c t)) in *.
  set (e' := exp (- rget logs b c t)) in *.
  set (X := rget x b (n + c) t) in *.
  set (mv := rget m b c t) in *.
  destruct (Hbin b t) as [E0|E1]; real_ops.
  - rewrite E0. destruct (H0 E0) as [-> ->]. lra.
  - rewrite E1.
    replace (mv + (X - mv) * e' * 1 * e * 1)%R
      with (mv + (X - mv) * (e * e'))%R by ring.
    rewrite Hee. ring.
Qed.

(** A stage keeps an input that is zero at the padded time steps that
    way. *)
Lemma real_stage_masked (f : Flow real_format World) x (reverse : bool)
  (out : flow_ret real_format reverse) w w' :
  flow_sized half g f -> shape B (half + half) T x ->
  zero_where_masked x mask ->
  call f x mask g reverse w = (inr out, w') ->
  shape B (half + half) T (ret_x out) /\ zero_where_masked (ret_x out) mask.
Proof.
  intros Hf Hx Hz E. destruct f as [l|]; cbn [call flow_sized] in *.
  - destruct Hf as (Hwf & <- & Henc).
    assert (K : forall (y : Tensor real_format) (m v : nat -> nat -> nat -> R),
               shape B (half_channels l + half_channels l) T y ->
               map (firstn (half_channels l)) y
               = map (firstn (half_channels l)) x ->
               (forall b c t, b < B -> c < half_channels l -> t < T ->
                  rget mask b 0 t = 0%R -> m b c t = 0%R) ->
               (forall b c t, b < B -> c < half_channels l -> t < T ->
                  rget y b (half_channels l + c) t
                  = (m b c t + v b c t * rget mask b 0 t)%R) ->
               zero_where_masked y mask).
    { intros y m v Sy F Zm G.
      apply (@zero_where_masked_intro real_format B _ T y mask Sy).
      intros b c t Hb Hc Ht E0.
      destruct (Nat.lt_ge_cases c (half_channels l)) as [Hc1|Hc1].
      - rewrite (@get_first_half real_format World l B T x y b c t
                   Hx Sy F Hb Hc1).
        now apply Hz.
      - replace c with (half_channels l + (c - half_channels l)) by lia.
        rewrite G by (auto; lia). rewrite Zm by (auto; lia).
        real_ops. rewrite E0. real_ops. lra. }
    destruct reverse.
    + destruct (layer_reverse_run (fmt := real_format) Hwf Henc w HT Hx Hmask)
        as (m & logs & y & w1 & Tr & Sm & _ & E' & Sy & F & _ & G).
      rewrite E' in E. inversion E; subst out w'. simpl.
      split; [assumption|].
      apply (K y (fun _ _ _ => 0%R)
               (fun b c t => ((rget x b (half_channels l + c) t - rget m b c t)
                              * exp (- rget logs b c t))%R)); auto.
      intros b c t Hb Hc Ht. rewrite G by assumption. real_ops. lra.
    + destruct (layer_forward_run (fmt := real_format) Hwf Henc w HT Hx Hmask)
        as (m & logs & y & w1 & Tr & _ & _ & E' & Sy & F & _ & G).
      destruct (stats_trace_facts (fmt := real_format) Hwf Henc HT (shape_firstn Hx) Hmask Tr)
        as (Z & _ & _).
      rewrite E' in E. inversion E; subst out w'. simpl.
      split; [assumption|].
      apply (K y (fun b c t => rget m b c t)
               (fun b c t => (rget x b (half_channels l + c) t
                              * exp (rget logs b c t))%R)); auto.
      intros b c t Hb Hc Ht E0.
      destruct (Z b c t Hb Hc Ht E0) as [Zm _]. now apply Zm.
  - assert (Eo : Flip_forward (fmt := real_format) x reverse = out)
      by (unfold ret in E; congruence).
    assert (Er : ret_x out = torch_flip1 x)
      by (rewrite <- Eo; destruct reverse; reflexivity).
    rewrite Er. split; [now apply shape_flip|].
    apply (@zero_where_masked_intro real_format B _ T _ mask (shape_flip Hx)).
    intros b c t Hb Hc Ht E0. transitivity (rget x b (half + half - 1 - c) t);
      [exact (get_flip (fmt := real_format) t Hx Hb Hc) | now apply Hz].
Qed.

(** In exact arithmetic, with a mask of zeros and ones and an input that is
    zero at the padded time steps, every stage of the pass is exact. *)
Lemma real_exact_along (reverse : bool) (stages : list (Flow real_format World)) :
  Forall (flow_sized half g) stages ->
  forall x w,
    shape B (half + half) T x -> zero_where_masked x mask ->
    exact_along B T mask g reverse stages x w.
Proof.
  induction 1 as [|f fs Hf Hfs IH]; intros x w Hx Hz; [exact I|].
  split.
  - destruct f as [l|]; [|exact I]. cbn [flow_sized] in Hf.
    destruct Hf as (Hwf & <- & Henc).
    intros m logs w' Tr b c t Hb Hc Ht. destruct reverse.
    + apply real_redoes_at. intros E0. split; [now apply Hz|].
      destruct (stats_trace_facts (fmt := real_format) Hwf Henc HT (shape_firstn Hx) Hmask Tr)
        as (Z & _ & _).
      destruct (Z b c t Hb Hc Ht E0) as [Zm _]. now apply Zm.
    + apply real_undoes_at. intros E0. now apply Hz.
  - intros out w' E.
    destruct (@real_stage_masked f x reverse out w w' Hf Hx Hz E) as [Sy Zy].
    now apply IH.
Qed.

End RealExact.

Lemma flow_wf_sized (fmt : Arith) World half g (f : Flow fmt World) :
  flow_wf half g f -> flow_sized half g f.
Proof. destruct f; simpl; tauto. Qed.

Lemma ex_stack_wf : Forall (flow_wf 1 None) (flows ex_stack).
Proof.
  assert (H : forall s, flow_wf 1 None (Coupling (ex_shift s))).
  { intros s. simpl. split; [apply ex_shift_wf|]. split; [reflexivity|].
    split; [apply id_net_shape_preserving|apply id_net_deterministic]. }
  simpl. repeat constructor; apply H.
Qed.

Lemma ex_padded_masked : zero_where_masked ex_padded ex_mask.
Proof.
  apply (@zero_where_masked_intro real_format 1 2 2 ex_padded ex_mask
           (has_shape_ok 1 2 2 ex_padded eq_refl)).
  intros b c t Hb Hc Ht.
  destruct b as [|b]; [|lia].
  destruct t as [|[|t]]; [| |lia].
  - unfold get. simpl. intros E. exfalso. lra.
  - intros _. destruct c as [|[|c]]; [reflexivity|reflexivity|lia].
Qed.

(** The trained stack [ex_stack], whose layers shift by [1] and by [2], on
    the input [ex_padded] with the mask [ex_mask]: the arithmetic of the
    real numbers is exact, so forward and then reverse returns the input. *)
Lemma flow_round_trip_witness :
  exists (y : Tensor real_format) w1,
    ResidualCouplingBlock_forward ex_stack ex_padded ex_mask None false tt
    = (inr y, w1) /\
    shape 1 2 2 y /\
    forall w2, exists w3,
      ResidualCouplingBlock_forward ex_stack y ex_mask None true w2
      = (inr ex_padded, w3).
Proof.
  exact (@flow_round_trip real_format unit ex_stack None ex_padded ex_mask
           1 2 1 tt ex_stack_wf (le_S 1 1 (le_n 1))
           (has_shape_ok 1 2 2 ex_padded eq_refl)
           (has_shape_ok 1 1 2 ex_mask eq_refl)
           (@real_exact_along unit None ex_mask 1 2 1 (le_S 1 1 (le_n 1))
              (has_shape_ok 1 1 2 ex_mask eq_refl) ex_mask_binary false
              (flows ex_stack)
              (Forall_impl _ (@flow_wf_sized real_format unit 1 None)
                 ex_stack_wf)
              ex_padded tt
              (has_shape_ok 1 2 2 ex_padded eq_refl) ex_padded_masked)).
Defined.

(** Forward and then reverse through a constructed stack, in the exact
    arithmetic of the real numbers, with a mask whose second time step is
    zero: the value [4] of the input at that step comes back as [0], far
    from it by any tolerance. *)
Lemma round_trip_loses_masked_steps :
  exists b : ResidualCouplingBlock real_format unit,
    ResidualCouplingBlock_init 2 1 1 1 1 1 0 (fun _ => ex_init) = inr b /\
    let y : Tensor real_format := [[[3; 0]; [1; 2]]]%R in
    let z : Tensor real_format := [[[1; 2]; [3; 0]]]%R in
    ResidualCouplingBlock_forward b ex_x ex_mask None false tt = (inr y, tt) /\
    ResidualCouplingBlock_forward b y ex_mask None true tt = (inr z, tt) /\
    (Rabs (get z 0 1 1 - get ex_x 0 1 1) > 1e-5 * Rabs (get ex_x 0 1 1))%R.
Proof.
  exists {| block_channels := 2; block_hidden_channels := 1;
            block_kernel_size := 1; block_dilation_rate := 1;
            block_n_layers := 1; n_flows := 1; gin_channels := 0;
            flows := [Coupling (ex_shift 0); FlipModule] |}.
  split; [reflexivity|]. cbv zeta. split; [|split].
  - cbn. unfold ret. rewrite exp_0. values_eq.
  - cbn. unfold ret. rewrite Ropp_0, exp_0. values_eq.
  - unfold get, ex_x. simpl.
    assert (H1 : Rabs (0 - 4) = 4%R)
      by (unfold Rabs; destruct (Rcase_abs (0 - 4)); lra).
    assert (H2 : Rabs 4 = 4%R) by (apply Rabs_pos_eq; lra).
    rewrite H1, H2. lra.
Qed.

(** In single precision [1 + 2^-30] is rounded to [1]: with a mask of ones,
    a layer whose [m] is [1] maps the value [2^-30] to [1], and the reverse
    call maps [1] back to [(1 - 1) * exp(-0) * 1 = 0], whatever the
    function [exp] of the library, as long as [exp(0) = 1]. *)
Lemma round_trip_absorbs_small_values (exp32 : spec_float -> spec_float) :
  exp32 (S754_zero false) = b32_one -> exp32 (S754_zero true) = b32_one ->
  ResidualCouplingBlock_forward (b32_stack exp32) b32_x b32_mask None
    false tt
  = (inr [[[b32_one]; [b32_one]]], tt) /\
  ResidualCouplingBlock_forward (b32_stack exp32)
    [[[b32_one]; [b32_one]]] b32_mask None true tt
  = (inr [[[b32_one]; [S754_zero false]]], tt).
Proof.
  intros H0 H1.
  assert (E : exp32 = fun x => match x with
                               | S754_zero _ => b32_one
                               | _ => exp32 x
                               end).
  { apply functional_extensionality. intros [[|]| | |]; auto. }
  rewrite E. split; vm_compute; reflexivity.
Qed.

Lemma b32_small_positive : (0 < b32_value b32_small)%R.
Proof.
  unfold b32_value, b32_small.
  apply Rmult_lt_0_compat; [lra|]. apply powerRZ_lt. lra.
Qed.

(** Forward and then reverse does not return the input within a relative
    error of [1e-5]: not at a time step where the mask is zero, in exact
    arithmetic, where the value [4] comes back as [0]; and not with a mask
    of ones in single precision, where the value [2^-30] comes back as
    [0]. *)
Lemma round_trip_not_within_tolerance :
  (exists b : ResidualCouplingBlock real_format unit,
     ResidualCouplingBlock_init 2 1 1 1 1 1 0 (fun _ => ex_init) = inr b /\
     let y : Tensor real_format := [[[3; 0]; [1; 2]]]%R in
     let z : Tensor real_format := [[[1; 2]; [3; 0]]]%R in
     ResidualCouplingBlock_forward b ex_x ex_mask None false tt
     = (inr y, tt) /\
     ResidualCouplingBlock_forward b y ex_mask None true tt = (inr z, tt) /\
     (Rabs (get z 0 1 1 - get ex_x 0 1 1) > 1e-5 * Rabs (get ex_x 0 1 1))%R) /\
  (forall exp32 : spec_float -> spec_float,
     exp32 (S754_zero false) = b32_one -> exp32 (S754_zero true) = b32_one ->
     let y : Tensor (binary32 exp32) := [[[b32_one]; [b32_one]]] in
     let z : Tensor (binary32 exp32) := [[[b32_one]; [S754_zero false]]] in
     ResidualCouplingBlock_forward (b32_stack exp32) b32_x b32_mask None
       false tt
     = (inr y, tt) /\
     ResidualCouplingBlock_forward (b32_stack exp32) y b32_mask None true tt
     = (inr z, tt) /\
     get (fmt := binary32 exp32) b32_x 0 1 0 = b32_small /\
     get z 0 1 0 = S754_zero false /\
     (Rabs (b32_value (S754_zero false) - b32_value b32_small)
      > 1e-5 * Rabs (b32_value b32_small))%R).
Proof.
  split; [exact round_trip_loses_masked_steps|].
  intros exp32 H0 H1. cbv zeta.
  destruct (round_trip_absorbs_small_values exp32 H0 H1) as [Ef Er].
  split; [exact Ef|]. split; [exact Er|].
  split; [reflexivity|]. split; [reflexivity|].
  pose proof b32_small_positive as Hp.
  change (b32_value (S754_zero false)) with 0%R.
  rewrite Rminus_0_l, Rabs_Ropp, Rabs_pos_eq by lra. lra.
Qed.

(** * Further properties of the flow *)

(** ** Sizes: the calls return, and keep the size of the input *)

Section Sizes.

Context {fmt : Format}.
Variable World : Type.
Variable g : option (Tensor fmt).
Variable mask : Tensor fmt.
Variables B T half : nat.
Hypothesis HT : 0 < T.
Hypothesis Hmask : shape B 1 T mask.

Lemma stage_sized (f : Flow fmt World) x (reverse : bool) w :
  flow_sized half g f -> shape B (half + half) T x ->
  exists (out : flow_ret fmt reverse) w',
    call f x mask g reverse w = (inr out, w') /\
    shape B (half + half) T (ret_x out).
Proof.
  intros Hf Hx. destruct f as [l|]; simpl in *.
  - destruct Hf as (Hwf & <- & Henc). destruct reverse.
    + destruct (layer_reverse_run Hwf Henc w HT Hx Hmask)
        as (m & logs & y & w' & _ & _ & _ & E & Sy & _).
      exists y, w'. simpl. auto.
    + destruct (layer_forward_run Hwf Henc w HT Hx Hmask)
        as (m & logs & y & w' & _ & _ & _ & E & Sy & _).
      exists (y, torch_sum12 logs), w'. simpl. auto.
  - exists (Flip_forward x reverse), w. split; [reflexivity|].
    destruct reverse; simpl; now apply shape_flip.
Qed.

Lemma stages_sized_forward (stages : list (Flow fmt World)) :
  Forall (flow_sized half g) stages ->
  forall x w, shape B (half + half) T x ->
    exists y w',
      foldM (fun x flow => '(x, _) <- call flow x mask g false ;; ret x)
        stages x w = (inr y, w') /\
      shape B (half + half) T y.
Proof.
  induction 1 as [|f fs Hf Hfs IH]; intros x w Hx.
  - exists x, w. now split.
  - destruct (@stage_sized f x false w Hf Hx) as ([y1 ld] & w1 & E1 & S1).
    destruct (IH y1 w1 S1) as (y & w' & E & Sy).
    exists y, w'. split; [|assumption].
    cbn [foldM]. unfold bind. rewrite E1. exact E.
Qed.

Lemma stages_sized_reverse (stages : list (Flow fmt World)) :
  Forall (flow_sized half g) stages ->
  forall x w, shape B (half + half) T x ->
    exists y w',
      foldM (fun x flow => call flow x mask g true) stages x w = (inr y, w') /\
      shape B (half + half) T y.
Proof.
  induction 1 as [|f fs Hf Hfs IH]; intros x w Hx.
  - exists x, w. now split.
  - destruct (@stage_sized f x true w Hf Hx) as (y1 & w1 & E1 & S1).
    destruct (IH y1 w1 S1) as (y & w' & E & Sy).
    exists y, w'. split; [|assumption].
    cbn [foldM]. unfold bind. rewrite E1. exact E.
Qed.

End Sizes.

(** X1.  On an input of size [[B, C, T]] with a time axis that is not empty
    and a mask of size [[B, 1, T]], a stack whose stages have the sizes of
    constructed stages returns, in both directions, a tensor of the size of
    the input: no size check of the tensor library fails on the way. *)
Theorem stack_keeps_size (fmt : Format) World
  (b : ResidualCouplingBlock fmt World)
  (g : option (Tensor fmt)) (x mask : Tensor fmt) B T half
  (reverse : bool) (w : World) :
  Forall (flow_sized half g) (flows b) ->
  0 < T -> shape B (half + half) T x -> shape B 1 T mask ->
  exists y w',
    ResidualCouplingBlock_forward b x mask g reverse w = (inr y, w') /\
    shape B (half + half) T y.
Proof.
  intros Hfl HT Hx Hmask. unfold ResidualCouplingBlock_forward.
  destruct reverse; simpl.
  - apply stages_sized_reverse; auto.
    apply Forall_forall. intros f Hf. rewrite Forall_forall in Hfl.
    apply Hfl. now apply in_rev.
  - apply stages_sized_forward; auto.
Qed.

(** The theorem on the trained stack of two flows and the example input,
    in reverse. *)
Lemma stack_keeps_size_witness :
  exists (y : Tensor real_format) w',
    ResidualCouplingBlock_forward ex_stack ex_x ex_mask None true tt
    = (inr y, w') /\
    shape 1 (1 + 1) 2 y.
Proof.
  apply (@stack_keeps_size real_format unit ex_stack None ex_x ex_mask
           1 2 1 true tt).
  - eapply Forall_impl; [apply flow_wf_sized|]. exact ex_stack_wf.
  - lia.
  - apply (has_shape_ok 1 2 2 ex_x eq_refl).
  - apply (has_shape_ok 1 1 2 ex_mask eq_refl).
Defined.

(** ** Inputs of the wrong size *)

(** X2.  When the channel axis of a non-empty input is not twice
    [half_channels], [ResidualCouplingLayer.forward] fails in [torch.split],
    in both directions and whatever the mask and the conditioning: the
    network is not called and its state is left as it was.  A stack whose
    first stage is such a layer fails in the same way when
    [reverse=False]. *)
Theorem wrong_channels_rejected (fmt : Format) World
  (l : ResidualCouplingLayer fmt World)
  (x mask : Tensor fmt) (g : option (Tensor fmt)) B C T
  (reverse : bool) (w : World) :
  shape B C T x -> 0 < B -> C <> half_channels l + half_channels l ->
  let e := RuntimeError
             "split_with_sizes expects split_sizes to sum exactly to the size of the dimension" in
  ResidualCouplingLayer_forward l x mask g reverse w = (inl e, w) /\
  forall (b : ResidualCouplingBlock fmt World) rest,
    flows b = Coupling l :: rest ->
    ResidualCouplingBlock_forward b x mask g false w = (inl e, w).
Proof.
  intros Hx HB HC e.
  assert (E : ResidualCouplingLayer_forward l x mask g false w = (inl e, w)
              /\ ResidualCouplingLayer_forward l x mask g true w = (inl e, w)).
  { destruct x as [|m0 x']; [destruct Hx; simpl in *; lia|].
    destruct Hx as [_ Hx]. inversion Hx as [|? ? [Hm0 _] _]; subst.
    apply Nat.eqb_neq in HC.
    unfold ResidualCouplingLayer_forward, torch_split2, bind, lift. simpl.
    rewrite HC. simpl. split; reflexivity. }
  split; [destruct reverse; apply E|].
  intros b rest Hfl. unfold ResidualCouplingBlock_forward. rewrite Hfl. simpl.
  unfold bind. now rewrite (proj1 E).
Qed.

(** The trained example layer, of two channels, on an input of three. *)
Lemma wrong_channels_rejected_witness :
  ResidualCouplingLayer_forward ex_trained [[[1]; [2]; [3]]]%R [[[1]]]%R
    None true tt
  = (inl (RuntimeError
            "split_with_sizes expects split_sizes to sum exactly to the size of the dimension"),
     tt).
Proof.
  apply (@wrong_channels_rejected real_format unit ex_trained
           [[[1]; [2]; [3]]]%R [[[1]]]%R None 1 3 1 true tt
           (has_shape_ok 1 3 1 ([[[1]; [2]; [3]]]%R : Tensor real_format)
              eq_refl)
           (Nat.lt_0_succ 0)).
  simpl. lia.
Defined.

(** ** The log-determinants the stack drops *)

(** X3.  On an input with a time axis that is not empty, every stage of a
    stack whose layers are built with [mean_only=True], a layer or a flip,
    returns a log-determinant of [B] zeros when [reverse=False], whatever
    the parameters and the input: the values that the loop of
    [ResidualCouplingBlock.forward] drops are all zero. *)
Theorem stage_logdet_zero (fmt : Format) World (f : Flow fmt World)
  (g : option (Tensor fmt)) (x mask : Tensor fmt) B T half (w : World) :
  flow_sized half g f -> mean_only_stage f ->
  0 < T -> shape B (half + half) T x -> shape B 1 T mask ->
  exists y w',
    call f x mask g false w = (inr (y, repeat (fzero fmt) B), w').
Proof.
  intros Hf Hmo HT Hx Hmask. destruct f as [l|]; simpl in *.
  - destruct Hf as (Hwf & <- & Henc).
    destruct (layer_forward_run Hwf Henc w HT Hx Hmask)
      as (m & logs & y & w' & Tr & Sm & _ & E & _).
    destruct (stats_trace_facts Hwf Henc HT (shape_firstn Hx) Hmask Tr)
      as (_ & _ & Hz).
    exists y, w'. rewrite E, (Hz Hmo), (torch_sum12_zeros Sm). reflexivity.
  - exists (torch_flip1 x), w. unfold ret, Flip_forward, torch_zeros.
    unfold torch_flip1 at 2. rewrite length_map.
    destruct Hx as [-> _]. reflexivity.
Qed.

(** The trained example layer, whose [m] is not zero. *)
Lemma stage_logdet_zero_witness :
  exists (y : Tensor real_format) w',
    call (Coupling ex_trained) ex_x ex_mask None false tt
    = (inr (y, [0%R]), w').
Proof.
  apply (@stage_logdet_zero real_format unit (Coupling ex_trained) None
           ex_x ex_mask 1 2 1 tt).
  - simpl. split; [apply ex_shift_wf|]. split; [reflexivity|].
    apply id_net_shape_preserving.
  - reflexivity.
  - lia.
  - apply (has_shape_ok 1 2 2 ex_x eq_refl).
  - apply (has_shape_ok 1 1 2 ex_mask eq_refl).
Defined.

(** ** Reverse and then forward *)

Section ReverseForward.

Context {fmt : Format}.
Variable World : Type.
Variable g : option (Tensor fmt).
Variable mask : Tensor fmt.
Variables B T half : nat.
Hypothesis HT : 0 < T.
Hypothesis Hmask : shape B 1 T mask.

(** A stage that is exact in reverse on its input is undone by its forward
    call. *)
Lemma stage_reverse_forward (f : Flow fmt World) x w :
  flow_wf half g f ->
  shape B (half + half) T x ->
  stage_exact B T mask g true f x w ->
  exists z w1,
    call f x mask g true w = (inr z, w1) /\
    shape B (half + half) T z /\
    forall w2, exists ld w3, call f z mask g false w2 = (inr (x, ld), w3).
Proof.
  intros Hf Hx Hex. destruct f as [l|]; simpl in *.
  - destruct Hf as (Hwf & <- & Henc & Hd).
    destruct (layer_reverse_run Hwf Henc w HT Hx Hmask)
      as (m & logs & z & w1 & Tr & Sm & Sl & E & Sz & F0 & _ & G).
    exists z, w1. split; [assumption|]. split; [assumption|].
    intros w2.
    destruct (layer_forward_run Hwf Henc w2 HT Sz Hmask)
      as (m2 & logs2 & y & w3 & Tr2 & _ & _ & E2 & Sy & F2 & _ & G2).
    rewrite F0 in Tr2, F2.
    destruct (stats_trace_any_state Hd Tr Tr2) as [-> ->].
    exists (torch_sum12 logs), w3. rewrite E2. do 3 f_equal.
    apply (tensor_ext Sy Hx). intros b c t Hb Hc Ht.
    destruct (Nat.lt_ge_cases c (half_channels l)) as [Hc1|Hc1].
    + exact (@get_first_half fmt World l B T x y b c t Hx Sy F2 Hb Hc1).
    + replace c with (half_channels l + (c - half_channels l)) by lia.
      assert (Hc2 : c - half_channels l < half_channels l) by lia.
      rewrite G2, G by assumption.
      exact (Hex m logs w1 Tr b (c - half_channels l) t Hb Hc2 Ht).
  - exists (torch_flip1 x), w.
    split; [reflexivity|]. split; [now apply shape_flip|].
    intros w2.
    exists (torch_zeros fmt (length (torch_flip1 (torch_flip1 x)))), w2.
    unfold ret, Flip_forward. simpl. now rewrite !flip_flip.
Qed.

Lemma stages_reverse_forward (stages : list (Flow fmt World)) :
  Forall (flow_wf half g) stages ->
  forall x w,
    shape B (half + half) T x ->
    exact_along B T mask g true stages x w ->
    exists y w1,
      foldM (fun x flow => call flow x mask g true) stages x w
      = (inr y, w1) /\
      shape B (half + half) T y /\
      forall w2, exists w3,
        foldM (fun x flow => '(x, _) <- call flow x mask g false ;; ret x)
          (rev stages) y w2 = (inr x, w3).
Proof.
  induction 1 as [|f fs Hf Hfs IH]; intros x w Hx Hex.
  - exists x, w. repeat (split; [easy|]). intros w2. now exists w2.
  - destruct Hex as [Hex1 Hex2].
    destruct (@stage_reverse_forward f x w Hf Hx Hex1)
      as (z1 & w1 & E1 & S1 & R1).
    destruct (IH z1 w1 S1 (Hex2 z1 w1 E1)) as (y & w' & E & Sy & R).
    exists y, w'. split; [|split; [assumption|]].
    + cbn [foldM]. unfold bind. rewrite E1. exact E.
    + intros w2. destruct (R w2) as (w3 & E3).
      destruct (R1 w3) as (ld & w4 & E4).
      exists w4. cbn [rev]. rewrite foldM_app. unfold bind at 1. rewrite E3.
      cbn [foldM]. unfold bind. now rewrite E4.
Qed.

End ReverseForward.

(** X4.  The other round trip.  For a stack whose stages have the sizes of
    constructed stages, with deterministic networks, on a well-shaped input
    with a time axis that is not empty: when, at every stage of the reverse
    pass and every element, the arithmetic of the forward direction undoes
    that of the reverse direction, reverse and then forward, with the same
    mask and conditioning, returns the input. *)
Theorem stack_reverse_then_forward (fmt : Format) World
  (b : ResidualCouplingBlock fmt World)
  (g : option (Tensor fmt)) (x mask : Tensor fmt) B T half (w : World) :
  Forall (flow_wf half g) (flows b) ->
  0 < T -> shape B (half + half) T x -> shape B 1 T mask ->
  exact_along B T mask g true (rev (flows b)) x w ->
  exists y w1,
    ResidualCouplingBlock_forward b x mask g true w = (inr y, w1) /\
    shape B (half + half) T y /\
    forall w2, exists w3,
      ResidualCouplingBlock_forward b y mask g false w2 = (inr x, w3).
Proof.
  intros Hfl HT Hx Hmask Hex.
  assert (Hrev : Forall (flow_wf half g) (rev (flows b))).
  { apply Forall_forall. intros f Hf. rewrite Forall_forall in Hfl.
    apply Hfl. now apply in_rev. }
  destruct (stages_reverse_forward HT Hmask Hrev w Hx Hex)
    as (y & w1 & E & Sy & R).
  rewrite rev_involutive in R.
  exists y, w1. split; [exact E|]. split; [assumption|exact R].
Qed.

(** Reverse and forward through the trained stack of two flows, in the
    arithmetic of the real numbers. *)
Lemma stack_reverse_then_forward_witness :
  exists (y : Tensor real_format) w1,
    ResidualCouplingBlock_forward ex_stack ex_padded ex_mask None true tt
    = (inr y, w1) /\
    shape 1 2 2 y /\
    forall w2, exists w3,
      ResidualCouplingBlock_forward ex_stack y ex_mask None false w2
      = (inr ex_padded, w3).
Proof.
  apply (@stack_reverse_then_forward real_format unit ex_stack None
           ex_padded ex_mask 1 2 1 tt ex_stack_wf (le_S 1 1 (le_n 1))
           (has_shape_ok 1 2 2 ex_padded eq_refl)
           (has_shape_ok 1 1 2 ex_mask eq_refl)).
  apply (@real_exact_along unit None ex_mask 1 2 1 (le_S 1 1 (le_n 1))
           (has_shape_ok 1 1 2 ex_mask eq_refl) ex_mask_binary true).
  - apply Forall_rev.
    exact (Forall_impl _ (@flow_wf_sized real_format unit 1 None)
             ex_stack_wf).
  - apply (has_shape_ok 1 2 2 ex_padded eq_refl).
  - exact ex_padded_masked.
Defined.

(** ** Flip and the two halves *)

(** X5.  [Flip] exchanges the two halves of the channel axis: the first half
    of its result is the second half of the input, flipped, and the second
    half of its result is the first half of the input, flipped.  So the half
    that one coupling layer passes through is the half that the next one
    transforms. *)
Theorem flip_swaps_halves (fmt : Format) B n T (x : Tensor fmt)
  (reverse : bool) :
  shape B (n + n) T x ->
  map (firstn n) (ret_x (Flip_forward x reverse))
  = torch_flip1 (map (@skipn _ n) x) /\
  map (@skipn _ n) (ret_x (Flip_forward x reverse))
  = torch_flip1 (map (firstn n) x).
Proof.
  intros [_ Hx].
  assert (E : ret_x (Flip_forward x reverse) = torch_flip1 x)
    by (destruct reverse; reflexivity).
  rewrite E. unfold torch_flip1. rewrite !map_map.
  split; apply map_ext_in; intros m Hm; rewrite Forall_forall in Hx;
    destruct (Hx m Hm) as [Hl _].
  - rewrite firstn_rev, Hl. f_equal. f_equal. lia.
  - rewrite skipn_rev, Hl. f_equal. f_equal. lia.
Qed.

(** The flip of the example input. *)
Lemma flip_swaps_halves_witness :
  map (firstn 1) (ret_x (Flip_forward ex_x false)) = [[[3; 4]]]%R /\
  map (@skipn _ 1) (ret_x (Flip_forward ex_x false)) = [[[1; 2]]]%R.
Proof.
  exact (@flip_swaps_halves real_format 1 1 2 ex_x false
           (has_shape_ok 1 2 2 ex_x eq_refl)).
Defined.

(** ** A stack of two flows or more masks the padding *)

Section Zeroing.

Context {fmt : Format}.
Variable World : Type.
Variable g : option (Tensor fmt).
Variable mask : Tensor fmt.
Variables B T half : nat.
Hypothesis HT : 0 < T.
Hypothesis Hmask : shape B 1 T mask.

Lemma stage_tracks (f : Flow fmt World) st x (reverse : bool) w :
  flow_sized half g f -> shape B (half + half) T x ->
  halves_masked half st x mask ->
  exists (out : flow_ret fmt reverse) w',
    call f x mask g reverse w = (inr out, w') /\
    shape B (half + half) T (ret_x out) /\
    halves_masked half (track_stage st f) (ret_x out) mask.
Proof.
  intros Hf Hx [H1 H2]. destruct f as [l|]; simpl in Hf.
  - destruct Hf as (Hwf & <- & Henc).
    assert (K : forall y : Tensor fmt,
               shape B (half_channels l + half_channels l) T y ->
               map (firstn (half_channels l)) y
               = map (firstn (half_channels l)) x ->
               (forall b c t, b < B -> c < half_channels l -> t < T ->
                  get mask b 0 t = fzero fmt ->
                  is_finite (get y b (half_channels l + c) t) = true ->
                  get y b (half_channels l + c) t = fzero fmt) ->
               halves_masked (half_channels l) (fst st, true) y mask).
    { intros y Sy F G. split; simpl.
      - intros Hst b c t Hc E0.
        destruct (Nat.lt_ge_cases b B) as [Hb|Hb];
          [|intros _; apply (get_outside Sy); lia].
        rewrite (@get_first_half fmt World l B T x y b c t Hx Sy F Hb Hc).
        now apply H1.
      - intros _ b c t Hc E0.
        destruct (Nat.lt_ge_cases b B) as [Hb|Hb];
          [|intros _; apply (get_outside Sy); lia].
        destruct (Nat.lt_ge_cases t T) as [Ht|Ht];
          [|intros _; apply (get_outside Sy); lia].
        now apply G. }
    destruct reverse.
    + destruct (layer_reverse_run Hwf Henc w HT Hx Hmask)
        as (m & logs & y & w' & Tr & Sm & _ & E & Sy & F & _ & G).
      exists y, w'. split; [assumption|]. split; [assumption|].
      apply (K y Sy F). intros b c t Hb Hc Ht E0.
      rewrite G, E0 by assumption. apply fmul_zero_finite.
    + destruct (layer_forward_run Hwf Henc w HT Hx Hmask)
        as (m & logs & y & w' & Tr & _ & _ & E & Sy & F & _ & G).
      destruct (stats_trace_facts Hwf Henc HT (shape_firstn Hx) Hmask Tr)
        as (Z & _ & _).
      exists (y, torch_sum12 logs), w'.
      split; [assumption|]. split; [assumption|].
      apply (K y Sy F). intros b c t Hb Hc Ht E0.
      rewrite G, E0 by assumption. apply fadd_masked.
      now apply (Z b c t).
  - exists (Flip_forward x reverse), w. split; [reflexivity|].
    assert (E : ret_x (Flip_forward x reverse) = torch_flip1 x)
      by (destruct reverse; reflexivity).
    rewrite E. split; [now apply shape_flip|].
    split; simpl; intros Hst b c t Hc E0;
      (destruct (Nat.lt_ge_cases b B) as [Hb|Hb];
       [|intros _; apply (get_outside (shape_flip Hx)); lia]).
    + rewrite (get_flip _ Hx Hb) by lia.
      replace (half + half - 1 - c) with (half + (half - 1 - c)) by lia.
      apply H2; auto. lia.
    + rewrite (get_flip _ Hx Hb) by lia.
      replace (half + half - 1 - (half + c)) with (half - 1 - c) by lia.
      apply H1; auto. lia.
Qed.

Lemma stages_track (reverse : bool) (stages : list (Flow fmt World)) :
  Forall (flow_sized half g) stages ->
  forall st x w,
    shape B (half + half) T x -> halves_masked half st x mask ->
    exists y w',
      (if reverse
       then foldM (fun x flow => call flow x mask g true) stages x w
       else foldM (fun x flow => '(x, _) <- call flow x mask g false ;; ret x)
              stages x w) = (inr y, w') /\
      shape B (half + half) T y /\
      halves_masked half (fold_left track_stage stages st) y mask.
Proof.
  induction 1 as [|f fs Hf Hfs IH]; intros st x w Hx Hm.
  - exists x, w. split; [now destruct reverse|]. split; [assumption|exact Hm].
  - destruct reverse.
    + destruct (@stage_tracks f st x true w Hf Hx Hm)
        as (y1 & w1 & E1 & S1 & M1).
      destruct (IH _ y1 w1 S1 M1) as (y & w' & E & Sy & My).
      exists y, w'. split; [|split; assumption].
      cbv iota in E |- *. cbn [foldM]. unfold bind. rewrite E1. exact E.
    + destruct (@stage_tracks f st x false w Hf Hx Hm)
        as ([y1 ld] & w1 & E1 & S1 & M1).
      destruct (IH _ y1 w1 S1 M1) as (y & w' & E & Sy & My).
      exists y, w'. split; [|split; assumption].
      cbv iota in E |- *. cbn [foldM]. unfold bind. rewrite E1. exact E.
Qed.

Lemma halves_masked_all x :
  halves_masked half (true, true) x mask ->
  shape B (half + half) T x -> zero_or_not_finite x mask.
Proof.
  intros [H1 H2] Hx b c t E0.
  destruct (Nat.lt_ge_cases c (half + half)) as [Hc|Hc];
    [|intros _; apply (get_outside Hx); lia].
  destruct (Nat.lt_ge_cases c half) as [Hc1|Hc1]; [now apply H1|].
  replace c with (half + (c - half)) by lia. apply H2; auto. lia.
Qed.

End Zeroing.

Lemma track_all fmt World (stages : list (Flow fmt World)) :
  fold_left track_stage stages (true, true) = (true, true).
Proof.
  induction stages as [|[l|] fs IH]; simpl; auto.
Qed.

Lemma rev_flat_pairs fmt World (layers : list (ResidualCouplingLayer fmt World)) :
  rev (flat_map (@layer_pair fmt World) layers)
  = flat_map (fun l => [FlipModule; Coupling l]) (rev layers).
Proof.
  induction layers as [|l ls IH]; [reflexivity|].
  cbn [flat_map layer_pair rev app]. rewrite flat_map_app, <- IH.
  cbn [flat_map app]. now rewrite <- !app_assoc.
Qed.

Lemma track_pairs fmt World (layers : list (ResidualCouplingLayer fmt World)) st :
  2 <= length layers ->
  fold_left track_stage (flat_map (@layer_pair fmt World) layers) st
  = (true, true) /\
  fold_left track_stage (rev (flat_map (@layer_pair fmt World) layers)) st
  = (true, true).
Proof.
  intros Hn. split.
  - destruct layers as [|l0 [|l1 ls]]; simpl in Hn; try lia.
    cbn [flat_map layer_pair app fold_left track_stage fst snd].
    apply track_all.
  - rewrite rev_flat_pairs.
    assert (Hr : 2 <= length (rev layers)) by now rewrite length_rev.
    destruct (rev layers) as [|l0 [|l1 ls]]; simpl in Hr; try lia.
    cbn [flat_map app fold_left track_stage fst snd].
    apply track_all.
Qed.

(** The stages of a constructed stack have the sizes that fit. *)
Lemma constructed_stack_sized (fmt : Format) World ch hid k d nl n gin
  (fresh : nat -> LayerInit fmt World) (b : ResidualCouplingBlock fmt World)
  g :
  (0 < ch)%Z -> (0 < hid)%Z ->
  (forall i net, i < Z.to_nat n ->
     WaveNet (fresh i) hid k d nl 0 gin = inr net ->
     enc_shape_preserving net (Z.to_nat hid) g) ->
  ResidualCouplingBlock_init ch hid k d nl n gin fresh = inr b ->
  Forall (flow_sized (Z.to_nat (ch / 2)) g) (flows b) /\
  (0 < Z.to_nat n -> Z.to_nat ch = Z.to_nat (ch / 2) + Z.to_nat (ch / 2)).
Proof.
  intros Hc Hh Hnet Hinit.
  destruct (constructed_flows _ _ _ _ _ _ _ _ Hinit)
    as (layers & Hlen & Hfl & Hini).
  split.
  - rewrite Hfl. apply Forall_forall. intros f Hf.
    apply in_flat_map in Hf. destruct Hf as (l & Hl & [<-|[<-|[]]]);
      [|exact I].
    destruct (In_nth _ _ l Hl) as (i & Hi & <-). rewrite Hlen in Hi.
    destruct (layer_init_fields _ _ _ _ _ _ _ _ _ (Hini i l Hi))
      as (_ & Hid & _ & _ & _ & Half & _ & Enc & _ & _ & Wf).
    simpl. split; [now apply Wf|]. split; [assumption|].
    rewrite Hid. now apply (Hnet i).
  - intros Hn.
    destruct layers as [|l0 ls]; [simpl in Hlen; lia|].
    destruct (layer_init_fields _ _ _ _ _ _ _ _ _ (Hini 0 l0 Hn))
      as (Ch & _ & _ & _ & _ & Half & _ & _ & _ & Sum & _).
    simpl in Ch, Half, Sum. lia.
Qed.

(** X7.  A constructed stack of two flows or more masks the padding: on
    every well-shaped input with a time axis that is not empty, whatever it
    holds at the time steps where the mask is zero, and in both directions,
    the result has the size of the input and is, at those time steps and on
    all channels, zero or not a finite number. *)
Theorem constructed_stack_zeroes_padding (fmt : Format) World ch hid k d nl n gin
  (fresh : nat -> LayerInit fmt World) (b : ResidualCouplingBlock fmt World)
  (g : option (Tensor fmt)) (x mask : Tensor fmt) B T
  (reverse : bool) (w : World) :
  ResidualCouplingBlock_init ch hid k d nl n gin fresh = inr b ->
  (2 <= n)%Z -> (0 < ch)%Z -> (0 < hid)%Z ->
  (forall i net, i < Z.to_nat n ->
     WaveNet (fresh i) hid k d nl 0 gin = inr net ->
     enc_shape_preserving net (Z.to_nat hid) g) ->
  0 < T -> shape B (Z.to_nat ch) T x -> shape B 1 T mask ->
  exists y w',
    ResidualCouplingBlock_forward b x mask g reverse w = (inr y, w') /\
    shape B (Z.to_nat ch) T y /\ zero_or_not_finite y mask.
Proof.
  intros Hinit Hn Hc Hh Hnet HT Hx Hmask.
  destruct (constructed_flows _ _ _ _ _ _ _ _ Hinit)
    as (layers & Hlen & Hfl & _).
  destruct (@constructed_stack_sized fmt World ch hid k d nl n gin fresh b g
              Hc Hh Hnet Hinit) as [Hs Hch].
  specialize (Hch ltac:(lia)). rewrite Hch in Hx |- *.
  set (half := Z.to_nat (ch / 2)) in *.
  assert (H0 : halves_masked half (false, false) x mask)
    by (split; discriminate).
  assert (Hl2 : 2 <= length layers) by lia.
  destruct (@track_pairs fmt World layers (false, false) Hl2) as [Tf Tr].
  rewrite <- Hfl in Tf, Tr.
  unfold ResidualCouplingBlock_forward. destruct reverse; simpl.
  - assert (Hrev : Forall (flow_sized half g) (rev (flows b))).
    { apply Forall_forall. intros f Hf. rewrite Forall_forall in Hs.
      apply Hs. now apply in_rev. }
    destruct (@stages_track fmt World g mask B T half HT Hmask true
                (rev (flows b)) Hrev (false, false) x w Hx H0)
      as (y & w' & E & Sy & My).
    exists y, w'. split; [exact E|]. split; [assumption|].
    rewrite Tr in My. now apply halves_masked_all with (B := B) (T := T) (half := half).
  - destruct (@stages_track fmt World g mask B T half HT Hmask false
                (flows b) Hs (false, false) x w Hx H0)
      as (y & w' & E & Sy & My).
    exists y, w'. split; [exact E|]. split; [assumption|].
    rewrite Tf in My. now apply halves_masked_all with (B := B) (T := T) (half := half).
Qed.

(** A constructed stack of two flows on the example input, whose padded
    time step is not zero. *)
Lemma constructed_stack_zeroes_padding_witness :
  exists b : ResidualCouplingBlock real_format unit,
    ResidualCouplingBlock_init 2 1 1 1 1 2 0 (fun _ => ex_init) = inr b /\
    exists y w',
      ResidualCouplingBlock_forward b ex_x ex_mask None true tt = (inr y, w') /\
      shape 1 2 2 y /\ zero_or_not_finite y ex_mask.
Proof.
  eexists. split; [reflexivity|].
  apply (@constructed_stack_zeroes_padding real_format unit 2 1 1 1 1 2 0
           (fun _ => ex_init) _ None ex_x ex_mask 1 2 true tt eq_refl).
  - lia.
  - lia.
  - lia.
  - intros i net _ E. inversion E. apply id_net_shape_preserving.
  - lia.
  - apply (has_shape_ok 1 2 2 ex_x eq_refl).
  - apply (has_shape_ok 1 1 2 ex_mask eq_refl).
Defined.

(** ** Padding does not leak *)

Lemma lincomb_local {fmt : Format} T t :
  forall (w : Vec fmt) (rows rows' : Mat fmt),
    length rows = length rows' ->
    Forall (fun r : Vec fmt => length r = T) rows ->
    Forall (fun r : Vec fmt => length r = T) rows' ->
    t < T ->
    (forall i, i < length rows ->
       nth t (nth i rows []) (fzero fmt) = nth t (nth i rows' []) (fzero fmt)) ->
    nth t (lincomb T w rows) (fzero fmt)
    = nth t (lincomb T w rows') (fzero fmt).
Proof.
  induction w as [|a w IH]; intros [|r rows] [|r' rows'] Hl Hr Hr' Ht H;
    try discriminate; try reflexivity.
  inversion Hr; inversion Hr'; subst.
  rewrite !lincomb_cons.
  rewrite !(nth_zipWith _ (fzero fmt) (fzero fmt));
    try (rewrite length_map; lia);
    try (rewrite lincomb_length; auto; lia).
  rewrite !(nth_map' _ (fzero fmt)) by lia.
  pose proof (H 0 ltac:(simpl; lia)) as H0. simpl in H0. rewrite H0.
  f_equal. apply IH; auto; try (simpl in Hl; lia).
  intros i Hi. apply (H (S i)). simpl. lia.
Qed.

Lemma zipWith_nth_ext {fmt : Format} {A B'} (f f' : A -> B' -> Vec fmt) t :
  (forall a b, nth t (f a b) (fzero fmt) = nth t (f' a b) (fzero fmt)) ->
  forall (xs : list A) (ys : list B') o,
    nth t (nth o (zipWith f xs ys) []) (fzero fmt)
    = nth t (nth o (zipWith f' xs ys) []) (fzero fmt).
Proof.
  intros H. induction xs as [|a xs IH]; intros [|b ys] o; simpl;
    try reflexivity.
  destruct o as [|o]; [apply H|apply IH].
Qed.

(** A convolution of kernel size one is local in time: its value at a time
    step depends on the values of the input at that time step only. *)
Lemma conv1d_local {fmt : Format} (c : Conv1d fmt) B T (x x' : Tensor fmt)
  b o t :
  0 < in_channels c ->
  shape B (in_channels c) T x -> shape B (in_channels c) T x' ->
  b < B -> t < T ->
  (forall i, i < in_channels c -> get x b i t = get x' b i t) ->
  get (map (conv1d_sample c) x) b o t = get (map (conv1d_sample c) x') b o t.
Proof.
  intros Hpos Hx Hx' Hb Ht H. unfold get.
  rewrite !(nth_map' _ []) by (destruct Hx, Hx'; lia).
  pose proof (shape_nth Hx Hb) as Hm. pose proof (shape_nth Hx' Hb) as Hm'.
  unfold conv1d_sample.
  assert (HT : forall m : Mat fmt,
             mshape (in_channels c) T m -> length (hd [] m) = T).
  { intros m [Hl Hr]. destruct m as [|r m]; simpl in *; [lia|].
    now inversion Hr. }
  rewrite (HT _ Hm), (HT _ Hm').
  apply zipWith_nth_ext. intros wo bo.
  rewrite !(nth_map' _ (fzero fmt))
    by (rewrite lincomb_length; [lia|];
        first [now destruct Hm | now destruct Hm']).
  f_equal. apply lincomb_local; auto.
  - destruct Hm, Hm'. congruence.
  - now destruct Hm.
  - now destruct Hm'.
  - intros i Hi. apply H. destruct Hm. lia.
Qed.

Lemma all_finite_get {fmt : Format} B C T (x : Tensor fmt) b c t :
  shape B C T x -> all_finite x -> b < B -> c < C -> t < T ->
  is_finite (get x b c t) = true.
Proof.
  intros Hx Hf Hb Hc Ht. unfold get.
  pose proof (shape_nth Hx Hb) as [Hl Hr].
  unfold all_finite in Hf. rewrite Forall_forall in Hf.
  assert (Hm : In (nth b x []) x) by (apply nth_In; destruct Hx; lia).
  specialize (Hf _ Hm). rewrite Forall_forall in Hf.
  assert (Hrow : In (nth c (nth b x []) []) (nth b x []))
    by (apply nth_In; lia).
  specialize (Hf _ Hrow). rewrite Forall_forall in Hf, Hr.
  apply Hf. apply nth_In. rewrite (Hr _ Hrow). exact Ht.
Qed.

Section Padding.

Context {fmt : Format}.
Variable World : Type.
Variable l : ResidualCouplingLayer fmt World.
Variable g : option (Tensor fmt).
Hypothesis Hwf : layer_wf l.
Hypothesis Henc : enc_shape_preserving (enc l) (hidden_channels l) g.

(** The tensor on which the network is called does not depend on what [x0]
    holds at the time steps where the mask is zero, when it holds finite
    numbers only. *)
Lemma network_input_valid_only B T x0 x0' mask :
  0 < T ->
  shape B (half_channels l) T x0 -> shape B (half_channels l) T x0' ->
  shape B 1 T mask -> binary_mask mask ->
  same_where_valid B (half_channels l) T x0 x0' mask ->
  (forall h, network_input l x0 mask = inr h -> all_finite h) ->
  (forall h, network_input l x0' mask = inr h -> all_finite h) ->
  network_input l x0 mask = network_input l x0' mask /\
  exists h0 h0' h1,
    conv1d (pre l) x0 = inr h0 /\ conv1d (pre l) x0' = inr h0' /\
    pointwise (@fmul fmt) h0 mask = inr h1 /\
    pointwise (@fmul fmt) h0' mask = inr h1.
Proof.
  intros HT Hx Hx' Hmask Hbin Hsame Hfin Hfin'.
  destruct Hwf as (_ & Hh & Hhid & Wpre & Ipre & Opre & _).
  rewrite <- Ipre in Hx, Hx'.
  destruct (@conv1d_ok fmt (pre l) B T x0) as [E1 S1]; auto; try lia.
  destruct (@conv1d_ok fmt (pre l) B T x0') as [E1' S1']; auto; try lia.
  destruct (pointwise_mask_ok (@fmul fmt) S1 Hmask) as (h1 & E2 & S2 & G2).
  destruct (pointwise_mask_ok (@fmul fmt) S1' Hmask)
    as (h1' & E2' & S2' & G2').
  assert (N : network_input l x0 mask = inr h1)
    by (unfold network_input; rewrite E1; exact E2).
  assert (N' : network_input l x0' mask = inr h1')
    by (unfold network_input; rewrite E1'; exact E2').
  assert (Eh : h1' = h1).
  { apply (tensor_ext S2' S2). intros b o t Hb Ho Ht.
    pose proof (all_finite_get S2 (Hfin _ N) Hb Ho Ht) as F1.
    pose proof (all_finite_get S2' (Hfin' _ N') Hb Ho Ht) as F1'.
    rewrite G2 in F1 |- * by assumption.
    rewrite G2' in F1' |- * by assumption.
    destruct (Hbin b t) as [E0|E1v].
    - rewrite E0 in *.
      now rewrite (fmul_zero_finite _ F1), (fmul_zero_finite _ F1').
    - rewrite E1v, !fmul_one_r.
      apply conv1d_local with (B := B) (T := T); auto; try lia.
      intros i Hi. symmetry. apply Hsame; auto. lia. }
  split; [now rewrite N, N', Eh|].
  exists (map (conv1d_sample (pre l)) x0), (map (conv1d_sample (pre l)) x0'),
    h1.
  rewrite <- Eh at 2. auto.
Qed.

Lemma coupling_stats_valid_only B T x0 x0' mask w :
  0 < T ->
  shape B (half_channels l) T x0 -> shape B (half_channels l) T x0' ->
  shape B 1 T mask -> binary_mask mask ->
  same_where_valid B (half_channels l) T x0 x0' mask ->
  (forall h, network_input l x0 mask = inr h -> all_finite h) ->
  (forall h, network_input l x0' mask = inr h -> all_finite h) ->
  coupling_stats l x0 mask g w = coupling_stats l x0' mask g w.
Proof.
  intros HT Hx Hx' Hmask Hbin Hsame Hfin Hfin'.
  destruct (network_input_valid_only HT Hx Hx' Hmask Hbin Hsame Hfin Hfin')
    as (_ & h0 & h0' & h1 & E1 & E1' & E2 & E2').
  unfold coupling_stats.
  rewrite (bind_lift _ _ E1), (bind_lift _ _ E2).
  rewrite (bind_lift _ _ E1'), (bind_lift _ _ E2').
  reflexivity.
Qed.

End Padding.

(** X6.  Padding does not leak through a coupling layer.  With a mask of
    zeros and ones and a time axis that is not empty, take two inputs that
    hold the same values wherever the mask is one, and for which the tensor
    given to the network holds finite numbers only.  Then the network
    receives the same tensor for both, and, in both directions and from the
    same state, the two results hold the same values wherever the mask is
    one, with the same log-determinant and the same final state. *)
Theorem padding_does_not_leak (fmt : Format) World
  (l : ResidualCouplingLayer fmt World) (g : option (Tensor fmt))
  B T (x x' mask : Tensor fmt) (w : World) :
  layer_wf l -> enc_shape_preserving (enc l) (hidden_channels l) g ->
  0 < T ->
  shape B (channels l) T x -> shape B (channels l) T x' ->
  shape B 1 T mask -> binary_mask mask ->
  same_where_valid B (channels l) T x x' mask ->
  let n := half_channels l in
  (forall h, network_input l (map (firstn n) x) mask = inr h ->
     all_finite h) ->
  (forall h, network_input l (map (firstn n) x') mask = inr h ->
     all_finite h) ->
  network_input l (map (firstn n) x) mask
  = network_input l (map (firstn n) x') mask /\
  (exists y y' ld w',
     ResidualCouplingLayer_forward l x mask g false w = (inr (y, ld), w') /\
     ResidualCouplingLayer_forward l x' mask g false w = (inr (y', ld), w') /\
     same_where_valid B (n + n) T y y' mask) /\
  (exists z z' w',
     ResidualCouplingLayer_forward l x mask g true w = (inr z, w') /\
     ResidualCouplingLayer_forward l x' mask g true w = (inr z', w') /\
     same_where_valid B (n + n) T z z' mask).
Proof.
  intros Hwf Henc HT Hx Hx' Hmask Hbin Hsame n Hfin Hfin'.
  assert (Hch : channels l = n + n) by (destruct Hwf as [-> _]; reflexivity).
  rewrite Hch in Hx, Hx', Hsame.
  assert (H0 : same_where_valid B n T (map (firstn n) x)
                 (map (firstn n) x') mask).
  { intros b c t Hb Hc Ht E1.
    rewrite (get_firstn t Hx Hb Hc), (get_firstn t Hx' Hb Hc).
    apply Hsame; auto. lia. }
  pose proof (coupling_stats_valid_only g Hwf w HT (shape_firstn Hx)
                (shape_firstn Hx') Hmask Hbin H0 Hfin Hfin') as Es.
  destruct (network_input_valid_only Hwf HT (shape_firstn Hx)
              (shape_firstn Hx') Hmask Hbin H0 Hfin Hfin') as [En _].
  assert (Hvalid : forall y y' : Tensor fmt,
             shape B (n + n) T y -> shape B (n + n) T y' ->
             map (firstn n) y = map (firstn n) x ->
             map (firstn n) y' = map (firstn n) x' ->
             (forall b c t, b < B -> c < n -> t < T ->
                get mask b 0 t = fone fmt ->
                get y b (n + c) t = get y' b (n + c) t) ->
             same_where_valid B (n + n) T y y' mask).
  { intros y y' Sy Sy' F F' G b c t Hb Hc Ht E1.
    destruct (Nat.lt_ge_cases c n) as [Hc1|Hc1].
    - rewrite (@get_first_half fmt World l B T x y b c t Hx Sy F Hb Hc1).
      rewrite (@get_first_half fmt World l B T x' y' b c t Hx' Sy' F' Hb Hc1).
      apply Hsame; auto.
    - replace c with (n + (c - n)) by lia. apply G; auto. lia. }
  split; [exact En|]. split.
  - destruct (layer_forward_run Hwf Henc w HT Hx Hmask)
      as (m & logs & y & w1 & Tr & _ & _ & E & Sy & F & _ & G).
    destruct (layer_forward_run Hwf Henc w HT Hx' Hmask)
      as (m' & logs' & y' & w1' & Tr' & _ & _ & E' & Sy' & F' & _ & G').
    apply stats_trace_run in Tr, Tr'. fold n in Tr, Tr'.
    rewrite Es, Tr' in Tr. inversion Tr; subst.
    exists y, y', (torch_sum12 logs), w1.
    split; [assumption|]. split; [assumption|].
    apply Hvalid; auto.
    intros b c t Hb Hc Ht E1. fold n in G, G'. rewrite G, G' by assumption.
    now rewrite (Hsame b (n + c) t) by (auto; lia).
  - destruct (layer_reverse_run Hwf Henc w HT Hx Hmask)
      as (m & logs & z & w1 & Tr & _ & _ & E & Sz & F & _ & G).
    destruct (layer_reverse_run Hwf Henc w HT Hx' Hmask)
      as (m' & logs' & z' & w1' & Tr' & _ & _ & E' & Sz' & F' & _ & G').
    apply stats_trace_run in Tr, Tr'. fold n in Tr, Tr'.
    rewrite Es, Tr' in Tr. inversion Tr; subst.
    exists z, z', w1.
    split; [assumption|]. split; [assumption|].
    apply Hvalid; auto.
    intros b c t Hb Hc Ht E1. fold n in G, G'. rewrite G, G' by assumption.
    now rewrite (Hsame b (n + c) t) by (auto; lia).
Qed.

Lemma real_all_finite (x : Tensor real_format) : all_finite x.
Proof.
  unfold all_finite.
  apply Forall_forall. intros m _. apply Forall_forall. intros r _.
  apply Forall_forall. intros v _. reflexivity.
Qed.

Lemma ex_same_where_valid :
  same_where_valid 1 2 2 ex_x ex_x_other_padding ex_mask.
Proof.
  intros b c t Hb Hc Ht.
  destruct b as [|b]; [|lia].
  destruct c as [|[|c]]; [| |lia];
    (destruct t as [|[|t]]; [| |lia]); unfold get; simpl; intros; lra.
Qed.

(** Two inputs that differ at the padded time step only, through the
    trained example layer. *)
Lemma padding_does_not_leak_witness :
  exists (y y' : Tensor real_format) ld w',
    ResidualCouplingLayer_forward ex_trained ex_x ex_mask None false tt
    = (inr (y, ld), w') /\
    ResidualCouplingLayer_forward ex_trained ex_x_other_padding ex_mask
      None false tt
    = (inr (y', ld), w') /\
    same_where_valid 1 (1 + 1) 2 y y' ex_mask.
Proof.
  exact (proj1 (proj2
           (@padding_does_not_leak real_format unit ex_trained None
              1 2 ex_x ex_x_other_padding ex_mask tt
              (ex_shift_wf 1) (@id_net_shape_preserving real_format 1 None)
              (le_S 1 1 (le_n 1))
              (has_shape_ok 1 2 2 ex_x eq_refl)
              (has_shape_ok 1 2 2 ex_x_other_padding eq_refl)
              (has_shape_ok 1 1 2 ex_mask eq_refl)
              ex_mask_binary ex_same_where_valid
              (fun h _ => real_all_finite h)
              (fun h _ => real_all_finite h)))).
Defined.


(** * Properties of the text front end *)

(** ** [cleaned_text_to_sequence] *)

Lemma str_eqb_eq (s s' : list N) : str_eqb s s' = true <-> s = s'.
Proof.
  revert s'. induction s as [|c r IH]; intros [|c' r']; simpl;
    try (split; [discriminate|discriminate]); [split; reflexivity|].
  rewrite andb_true_iff, N.eqb_eq, IH. split.
  - intros [-> ->]. reflexivity.
  - intros E. inversion E. auto.
Qed.

Lemma str_eqb_refl (s : list N) : str_eqb s s = true.
Proof. now apply str_eqb_eq. Qed.

Lemma str_eqb_neq (s s' : list N) : s <> s' -> str_eqb s s' = false.
Proof.
  intros H. destruct (str_eqb s s') eqn:E; [|reflexivity].
  apply str_eqb_eq in E. contradiction.
Qed.

Lemma dict_get_set_same k v (d : list (list N * nat)) :
  dict_get k (dict_set k v d) = Some v.
Proof.
  induction d as [|[k' v'] d IH]; simpl.
  - now rewrite str_eqb_refl.
  - destruct (str_eqb k k') eqn:E; simpl; rewrite ?str_eqb_refl, ?E; auto.
Qed.

Lemma dict_get_set_other k k' v (d : list (list N * nat)) :
  k <> k' -> dict_get k (dict_set k' v d) = dict_get k d.
Proof.
  intros Hk. induction d as [|[k2 v2] d IH]; simpl.
  - now rewrite str_eqb_neq.
  - destruct (str_eqb k' k2) eqn:E; simpl.
    + apply str_eqb_eq in E. subst k2. now rewrite str_eqb_neq.
    + now rewrite IH.
Qed.

(** Looking a key up in the dictionary of the comprehension is looking for
    its last position in the list. *)
Lemma dict_get_fold s : forall (l : list (list N)) n0 (d : list (list N * nat)),
  dict_get s
    (fold_left (fun d (p : nat * list N) => dict_set (snd p) (fst p) d)
       (combine (seq n0 (length l)) l) d)
  = match last_index s l with
    | Some i => Some (n0 + i)
    | None => dict_get s d
    end.
Proof.
  induction l as [|a l IH]; intros n0 d; simpl; [reflexivity|].
  rewrite IH. destruct (last_index s l) as [i|].
  - f_equal. lia.
  - destruct (str_eqb s a) eqn:E.
    + apply str_eqb_eq in E. subst a.
      now rewrite dict_get_set_same, Nat.add_0_r.
    + apply dict_get_set_other. intros ->. now rewrite str_eqb_refl in E.
Qed.

Lemma symbol_to_id_last_index symbols s :
  dict_get s (_symbol_to_id symbols) = last_index s symbols.
Proof.
  unfold _symbol_to_id, enumerate. rewrite dict_get_fold.
  now destruct (last_index s symbols).
Qed.

Lemma last_index_in s (l : list (list N)) i :
  last_index s l = Some i -> In s l.
Proof.
  revert i. induction l as [|a l IH]; intros i; simpl; [discriminate|].
  destruct (last_index s l) as [i'|].
  - intros _. right. now apply (IH i').
  - destruct (str_eqb s a) eqn:E; [|discriminate].
    intros _. left. symmetry. now apply str_eqb_eq.
Qed.

Lemma last_index_none s (l : list (list N)) :
  last_index s l = None <-> ~ In s l.
Proof.
  induction l as [|a l IH]; simpl; [tauto|].
  destruct (last_index s l) as [i|] eqn:El.
  - split; [discriminate|]. intros H. exfalso. apply H. right.
    now apply (last_index_in _ _ El).
  - destruct (str_eqb s a) eqn:E.
    + apply str_eqb_eq in E. split; [discriminate|]. intros H. exfalso.
      apply H. now left.
    + split; [|reflexivity]. intros _ [->|Hin].
      * now rewrite str_eqb_refl in E.
      * now apply (proj1 IH).
Qed.

Lemma last_index_some s (l : list (list N)) i :
  last_index s l = Some i ->
  i < length l /\ nth i l [] = s /\
  forall j, i < j -> j < length l -> nth j l [] <> s.
Proof.
  revert i. induction l as [|a l IH]; intros i; simpl; [discriminate|].
  destruct (last_index s l) as [i'|] eqn:El.
  - intros E. inversion E; subst. destruct (IH i' eq_refl) as (H1 & H2 & H3).
    split; [lia|]. split; [assumption|].
    intros [|j] Hj Hl; [lia|]. apply H3; lia.
  - destruct (str_eqb s a) eqn:E; [|discriminate].
    intros E'. inversion E'; subst. apply str_eqb_eq in E. subst a.
    split; [lia|]. split; [reflexivity|].
    intros [|j] Hj Hl; [lia|]. intros Hn.
    apply (proj1 (last_index_none s l) El).
    rewrite <- Hn. apply nth_In. lia.
Qed.

Lemma cleaned_text_to_sequence_cons symbols c (text : list N) :
  cleaned_text_to_sequence symbols (c :: text)
  = match last_index [c] symbols with
    | None => inl (KeyError [c])
    | Some i =>
        match cleaned_text_to_sequence symbols text with
        | inl e => inl e
        | inr ids => inr (i :: ids)
        end
    end.
Proof.
  unfold cleaned_text_to_sequence. simpl.
  rewrite symbol_to_id_last_index.
  now destruct (last_index [c] symbols).
Qed.

(** X8.  [cleaned_text_to_sequence] returns a sequence exactly when every
    character of the text is, as a string of length one, in [symbols];
    otherwise it raises [KeyError] for the first character that is not. *)
Theorem sequence_or_key_error (symbols : list (list N)) (text : list N) :
  ((exists ids, cleaned_text_to_sequence symbols text = inr ids)
   <-> Forall (fun c => In [c] symbols) text) /\
  forall pre c post,
    text = pre ++ c :: post ->
    Forall (fun c' => In [c'] symbols) pre -> ~ In [c] symbols ->
    cleaned_text_to_sequence symbols text = inl (KeyError [c]).
Proof.
  split.
  - induction text as [|c text IH].
    + split; [constructor|]. intros _. now exists [].
    + rewrite cleaned_text_to_sequence_cons.
      destruct (last_index [c] symbols) as [i|] eqn:El.
      * pose proof (last_index_in _ _ El) as Hin.
        destruct (cleaned_text_to_sequence symbols text) as [e|ids].
        -- split; [intros [? ?]; discriminate|].
           intros H. inversion H; subst.
           destruct (proj2 IH) as [? ?]; [assumption|discriminate].
        -- split; [|intros _; eauto].
           intros _. constructor; [assumption|]. apply IH. eauto.
      * apply last_index_none in El.
        split; [intros [? ?]; discriminate|].
        intros H. inversion H; subst. contradiction.
  - intros pre c post -> Hpre Hc. induction Hpre as [|c' pre Hc' Hpre IH].
    + simpl. rewrite cleaned_text_to_sequence_cons.
      now rewrite (proj2 (last_index_none [c] symbols) Hc).
    + simpl. rewrite cleaned_text_to_sequence_cons, IH.
      destruct (last_index [c'] symbols) eqn:El; [reflexivity|].
      apply last_index_none in El. contradiction.
Qed.

Lemma sequence_decodes_aux (symbols : list (list N)) (text : list N) ids :
  cleaned_text_to_sequence symbols text = inr ids ->
  length ids = length text /\
  Forall (fun i => i < length symbols) ids /\
  map (fun i => nth i symbols []) ids = map (fun c => [c]) text.
Proof.
  revert ids. induction text as [|c text IH]; intros ids.
  - intros E. inversion E. repeat split. constructor.
  - rewrite cleaned_text_to_sequence_cons.
    destruct (last_index [c] symbols) as [i|] eqn:El; [|discriminate].
    destruct (cleaned_text_to_sequence symbols text) as [e|ids'];
      [discriminate|].
    intros E. inversion E; subst.
    destruct (IH ids' eq_refl) as (H1 & H2 & H3).
    destruct (last_index_some _ _ El) as (L1 & L2 & _).
    simpl. rewrite H1, H3, L2. repeat split. now constructor.
Qed.

(** X9.  A returned sequence has one id for each character of the text, every
    id is a position of [symbols], and the symbol at that position is the
    character: indexing [symbols] with the sequence gives the text back. *)
Theorem sequence_decodes (symbols : list (list N)) (text : list N) ids :
  cleaned_text_to_sequence symbols text = inr ids ->
  length ids = length text /\
  Forall (fun i => i < length symbols) ids /\
  map (fun i => nth i symbols []) ids = map (fun c => [c]) text.
Proof. apply sequence_decodes_aux. Qed.

(** X10.  When a symbol occurs more than once in [symbols], its id is its
    last position: no later position of [symbols] holds the character. *)
Theorem sequence_uses_last_position (symbols : list (list N)) (text : list N)
  ids k :
  cleaned_text_to_sequence symbols text = inr ids ->
  k < length text ->
  forall j, nth k ids 0 < j -> j < length symbols ->
            nth j symbols [] <> [nth k text 0%N].
Proof.
  revert ids k. induction text as [|c text IH]; intros ids k.
  - simpl. lia.
  - rewrite cleaned_text_to_sequence_cons.
    destruct (last_index [c] symbols) as [i|] eqn:El; [|discriminate].
    destruct (cleaned_text_to_sequence symbols text) as [e|ids'];
      [discriminate|].
    intros E Hk. inversion E; subst.
    destruct k as [|k]; simpl.
    + destruct (last_index_some _ _ El) as (_ & _ & L3). exact L3.
    + apply (IH ids' k eq_refl). simpl in Hk. lia.
Qed.

Lemma map_or_raise_app {A B} (f : A -> text_error + B) (xs ys : list A) :
  map_or_raise f (xs ++ ys)
  = match map_or_raise f xs with
    | inl e => inl e
    | inr a =>
        match map_or_raise f ys with
        | inl e => inl e
        | inr b => inr (a ++ b)
        end
    end.
Proof.
  induction xs as [|x xs IH]; simpl.
  - now destruct (map_or_raise f ys).
  - destruct (f x) as [e|y]; [reflexivity|]. rewrite IH.
    destruct (map_or_raise f xs) as [e|a]; [reflexivity|].
    now destruct (map_or_raise f ys).
Qed.

(** X11.  Two texts with the same returned sequence are the same text. *)
Theorem sequence_injective (symbols : list (list N)) (text text' : list N)
  ids :
  cleaned_text_to_sequence symbols text = inr ids ->
  cleaned_text_to_sequence symbols text' = inr ids ->
  text = text'.
Proof.
  intros E E'.
  destruct (sequence_decodes_aux symbols text E) as (_ & _ & H).
  destruct (sequence_decodes_aux symbols text' E') as (_ & _ & H').
  rewrite H in H'. clear - H'.
  revert text' H'. induction text as [|c t IH]; intros [|c' t'] H;
    simpl in H; try discriminate; [reflexivity|].
  inversion H. f_equal. now apply IH.
Qed.

(** X12.  The sequence of a concatenation is the concatenation of the
    sequences, and it fails with the first failure of the two parts. *)
Theorem sequence_concat (symbols : list (list N)) (a b : list N) :
  cleaned_text_to_sequence symbols (a ++ b)
  = match cleaned_text_to_sequence symbols a with
    | inl e => inl e
    | inr ia =>
        match cleaned_text_to_sequence symbols b with
        | inl e => inl e
        | inr ib => inr (ia ++ ib)
        end
    end.
Proof. unfold cleaned_text_to_sequence. apply map_or_raise_app. Qed.

(** The text "ab_" over the table ["_", "a", "b", "a"]. *)
Lemma sequence_decodes_witness :
  cleaned_text_to_sequence ex_symbols [97; 98; 95]%N = inr [3; 2; 0] /\
  map (fun i => nth i ex_symbols []) [3; 2; 0]
  = map (fun c => [c]) [97; 98; 95]%N.
Proof.
  split; [reflexivity|].
  exact (proj2 (proj2 (@sequence_decodes ex_symbols [97; 98; 95]%N [3; 2; 0]
                         eq_refl))).
Defined.

(** "a" is at positions 1 and 3 of the table; its id is 3. *)
Lemma sequence_uses_last_position_witness :
  nth 0 [3; 2; 0] 0 = 3 /\
  forall j, 3 < j -> j < 4 -> nth j ex_symbols [] <> [97%N].
Proof.
  split; [reflexivity|].
  exact (@sequence_uses_last_position ex_symbols [97; 98; 95]%N [3; 2; 0] 0
           eq_refl (Nat.lt_0_succ 2)).
Defined.

Lemma sequence_injective_witness :
  [97; 98; 95]%N = [97; 98; 95]%N.
Proof.
  exact (@sequence_injective ex_symbols [97; 98; 95]%N [97; 98; 95]%N
           [3; 2; 0] eq_refl eq_refl).
Defined.

(** ** [re.sub] with patterns of literal characters *)

Lemma mem_In c (cls : list N) : mem c cls = true <-> In c cls.
Proof.
  induction cls as [|c' cls IH]; simpl; [split; [discriminate|tauto]|].
  rewrite orb_true_iff, N.eqb_eq, IH. split; intros [H|H]; auto.
Qed.

Lemma mem_app c (l l' : list N) : mem c (l ++ l') = mem c l || mem c l'.
Proof.
  induction l as [|a l IH]; simpl; [reflexivity|].
  now rewrite IH, orb_assoc.
Qed.

Lemma flat_map_flat_map {A B C} (f : A -> list B) (h : B -> list C)
  (l : list A) :
  flat_map h (flat_map f l) = flat_map (fun x => flat_map h (f x)) l.
Proof.
  induction l as [|a l IH]; simpl; [reflexivity|].
  now rewrite flat_map_app, IH.
Qed.

(** A pattern of one position replaces character by character. *)
Lemma re_sub_single (cls : list N) (repl s : list N) :
  re_sub [cls] repl s
  = flat_map (fun c => if mem c cls then repl else [c]) s.
Proof.
  unfold re_sub. induction s as [|c s IH]; simpl; [reflexivity|].
  rewrite andb_true_r. destruct (mem c cls); simpl; now rewrite IH.
Qed.

(** What [re.sub] returns is made of characters of the text and of the
    replacement. *)
Lemma re_sub_from_Forall (P : N -> Prop) (pat : list (list N)) repl :
  Forall P repl ->
  forall s skip, Forall P s -> Forall P (re_sub_from skip pat repl s).
Proof.
  intros Hr. induction s as [|c s IH]; intros skip Hs; simpl.
  - destruct skip, pat; auto.
  - inversion Hs; subst. destruct skip as [|k]; [|now apply IH].
    destruct pat as [|cls pat'].
    + apply Forall_app. split; [assumption|]. constructor; auto.
    + destruct (matches (cls :: pat') (c :: s)).
      * apply Forall_app. split; auto.
      * constructor; auto.
Qed.

(** A text without a character for the first position of the pattern is
    left as it is. *)
Lemma re_sub_fixed (cls : list N) (pat' : list (list N)) repl (s : list N) :
  Forall (fun c => mem c cls = false) s ->
  re_sub (cls :: pat') repl s = s.
Proof.
  unfold re_sub. induction 1 as [|c s Hc Hs IH]; [reflexivity|].
  cbn [re_sub_from matches]. rewrite Hc. simpl. now rewrite IH.
Qed.

Lemma spell_unmatched (table : list (list (list N) * list N)) c :
  matched table c = false -> spell table c = [c].
Proof.
  induction table as [|[pat repl] table IH]; simpl; [reflexivity|].
  intros H. apply orb_false_iff in H. destruct H as [-> H]. now apply IH.
Qed.

Lemma spell_fixed (table : list (list (list N) * list N)) (s : list N) :
  Forall (fun c => matched table c = false) s ->
  flat_map (spell table) s = s.
Proof.
  induction 1 as [|c s Hc Hs IH]; simpl; [reflexivity|].
  now rewrite (spell_unmatched _ _ Hc), IH.
Qed.

(** A table of one-character patterns whose replacements are not touched by
    later patterns: the substitutions, one table entry after the other,
    amount to one pass that spells every character. *)
Lemma sub_all_one_pass (table : list (list (list N) * list N)) :
  one_pass table = true ->
  forall s, sub_all table s = flat_map (spell table) s.
Proof.
  unfold sub_all.
  induction table as [|[pat repl] table IH]; intros Hok s.
  - simpl. induction s as [|c s IHs]; simpl; [reflexivity|].
    now rewrite <- IHs.
  - cbn [one_pass] in Hok. apply andb_true_iff in Hok.
    destruct Hok as [Hok Hrest]. apply andb_true_iff in Hok.
    destruct Hok as [Hlen Hrepl]. apply Nat.eqb_eq in Hlen.
    destruct pat as [|cls [|cls' pat']]; try discriminate.
    cbn [fold_left fst snd]. rewrite (IH Hrest), re_sub_single.
    rewrite flat_map_flat_map. apply flat_map_ext. intros c.
    cbn [spell matches]. rewrite andb_true_r.
    destruct (mem c cls).
    + apply spell_fixed. apply Forall_forall. intros c' Hc'.
      rewrite forallb_forall in Hrepl. specialize (Hrepl c' Hc').
      now apply negb_true_iff in Hrepl.
    + simpl. apply app_nil_r.
Qed.

Lemma spell_cases (table : list (list (list N) * list N)) c :
  (matched table c = false /\ spell table c = [c]) \/
  (matched table c = true /\ In (spell table c) (map snd table)).
Proof.
  induction table as [|[pat repl] table IH]; simpl; [left; auto|].
  destruct (matches pat [c]); simpl; [right; auto|].
  destruct IH as [[H1 H2]|[H1 H2]]; [left|right]; auto.
Qed.

(** ** [latin_to_bopomofo] *)

(** The patterns of the Latin table are single lower-case ASCII letters, the
    characters for which [ignorecase_class] is written. *)
Lemma latin_table_letters :
  forallb (fun p => match fst p with
                    | [c] => N.leb 97 c && N.leb c 122
                    | _ => false
                    end)
    latin_table = true.
Proof. vm_compute. reflexivity. Qed.

Lemma latin_one_pass : one_pass _latin_to_bopomofo = true.
Proof. vm_compute. reflexivity. Qed.

Lemma latin_repl_clean :
  forallb (fun repl =>
             forallb (fun c => negb (is_ascii_letter c)
                               && negb (matched _latin_to_bopomofo c))
               repl)
    (map snd _latin_to_bopomofo) = true.
Proof. vm_compute. reflexivity. Qed.

Lemma ascii_letter_matched c :
  is_ascii_letter c = true -> matched _latin_to_bopomofo c = true.
Proof.
  intros H.
  assert (Hin : In c (map N.of_nat (seq 65 26 ++ seq 97 26))).
  { rewrite <- (N2Nat.id c). apply in_map. apply in_or_app.
    unfold is_ascii_letter in H. apply orb_true_iff in H.
    destruct H as [H|H]; apply andb_true_iff in H; destruct H as [H1 H2];
      apply N.leb_le in H1, H2; [left|right]; apply in_seq; lia. }
  assert (Hall : forallb (matched _latin_to_bopomofo)
                   (map N.of_nat (seq 65 26 ++ seq 97 26)) = true)
    by (vm_compute; reflexivity).
  rewrite forallb_forall in Hall. now apply Hall.
Qed.

Lemma latin_spell_clean c c' :
  In c' (spell _latin_to_bopomofo c) ->
  is_ascii_letter c' = false /\ matched _latin_to_bopomofo c' = false.
Proof.
  intros Hin.
  destruct (spell_cases _latin_to_bopomofo c) as [[Hm Hs]|[Hm Hs]].
  - rewrite Hs in Hin. destruct Hin as [<-|[]]. split; [|assumption].
    destruct (is_ascii_letter c) eqn:E; [|reflexivity].
    apply ascii_letter_matched in E. congruence.
  - pose proof latin_repl_clean as Hc. rewrite forallb_forall in Hc.
    specialize (Hc _ Hs). rewrite forallb_forall in Hc.
    specialize (Hc _ Hin). apply andb_true_iff in Hc.
    destruct Hc as [H1 H2]. now apply negb_true_iff in H1, H2.
Qed.

(** X13.  [latin_to_bopomofo] works letter by letter: although it applies
    26 substitutions one after the other, its result is the text with every
    character replaced by its spelling (the replacement of the pattern that
    matches it, or the character itself), so the result of a concatenation
    is the concatenation of the results. *)
Theorem latin_letter_by_letter (text text' : list N) :
  latin_to_bopomofo text = flat_map (spell _latin_to_bopomofo) text /\
  latin_to_bopomofo (text ++ text')
  = latin_to_bopomofo text ++ latin_to_bopomofo text'.
Proof.
  unfold latin_to_bopomofo.
  rewrite !(sub_all_one_pass _ latin_one_pass).
  split; [reflexivity|apply flat_map_app].
Qed.

(** X14.  The result of [latin_to_bopomofo] holds no ASCII letter, capital or
    small, and no character that a pattern of the table matches; applying
    the function again changes nothing. *)
Theorem latin_leaves_no_letter (text : list N) :
  Forall (fun c => is_ascii_letter c = false /\
                   matched _latin_to_bopomofo c = false)
    (latin_to_bopomofo text) /\
  latin_to_bopomofo (latin_to_bopomofo text) = latin_to_bopomofo text.
Proof.
  assert (H : Forall (fun c => is_ascii_letter c = false /\
                               matched _latin_to_bopomofo c = false)
                (latin_to_bopomofo text)).
  { unfold latin_to_bopomofo. rewrite (sub_all_one_pass _ latin_one_pass).
    apply Forall_forall. intros c' Hc'. apply in_flat_map in Hc'.
    destruct Hc' as (c & _ & Hc'). now apply latin_spell_clean with (c := c). }
  split; [exact H|].
  unfold latin_to_bopomofo at 1.
  rewrite (sub_all_one_pass _ latin_one_pass).
  apply spell_fixed. eapply Forall_impl; [|exact H]. now intros c [_ ?].
Qed.

(** ** [bopomofo_to_ipa] *)

(** A table settled by [bad] leaves a text without characters of [bad] as
    it is. *)
Lemma sub_all_fixed (bad : list N) (table : list (list (list N) * list N)) :
  settles bad table = true ->
  forall s, Forall (fun c => mem c bad = false) s -> sub_all table s = s.
Proof.
  unfold sub_all. induction table as [|[pat repl] table IH]; intros Hok s Hs;
    [reflexivity|].
  cbn [settles forallb fst snd] in Hok.
  apply andb_true_iff in Hok. destruct Hok as [Hok Hrest].
  apply andb_true_iff in Hok. destruct Hok as [Hok Hhd].
  apply andb_true_iff in Hok. destruct Hok as [Hne _].
  destruct pat as [|cls pat']; [discriminate|].
  cbn [fold_left fst snd hd] in *. rewrite re_sub_fixed.
  - now apply IH.
  - eapply Forall_impl; [|exact Hs]. intros c Hc.
    destruct (mem c cls) eqn:E; [|reflexivity].
    rewrite forallb_forall in Hhd. apply mem_In in E.
    pose proof (Hhd c E) as Hb. cbv beta in Hc. congruence.
Qed.

(** After the substitutions of a table settled by [bad], the text holds no
    character of a pattern of one position, nor any of the characters [D] of
    [bad] that it did not hold before. *)
Lemma sub_all_clean (bad : list N) (table : list (list (list N) * list N)) :
  settles bad table = true ->
  forall (D : list N) s,
    (forall c, mem c D = true -> mem c bad = true) ->
    Forall (fun c => mem c D = false) s ->
    Forall (fun c => mem c D = false /\ mem c (singles table) = false)
      (sub_all table s).
Proof.
  unfold sub_all. induction table as [|[pat repl] table IH];
    intros Hok D s HD Hs.
  - simpl. eapply Forall_impl; [|exact Hs]. auto.
  - cbn [settles forallb fst snd] in Hok.
    apply andb_true_iff in Hok. destruct Hok as [Hok Hrest].
    apply andb_true_iff in Hok. destruct Hok as [Hok Hhd].
    apply andb_true_iff in Hok. destruct Hok as [Hne Hrepl].
    assert (Hr : Forall (fun c => mem c bad = false) repl).
    { apply Forall_forall. intros c Hc. rewrite forallb_forall in Hrepl.
      specialize (Hrepl c Hc). now apply negb_true_iff in Hrepl. }
    assert (HrD : Forall (fun c => mem c D = false) repl).
    { eapply Forall_impl; [|exact Hr]. intros c Hc.
      destruct (mem c D) eqn:E; [|reflexivity].
      pose proof (HD c E) as Hb. cbv beta in Hc. congruence. }
    pose proof (@re_sub_from_Forall (fun c => mem c D = false) pat repl HrD
                  s 0 Hs) as Hs'.
    fold (re_sub pat repl s) in Hs'.
    cbn [fold_left fst snd].
    destruct pat as [|cls [|cls' pat']]; [discriminate| |].
    + (* a pattern of one position *)
      cbn [hd] in Hhd. rewrite forallb_forall in Hhd.
      assert (Hc : Forall (fun c => mem c (D ++ cls) = false)
                     (re_sub [cls] repl s)).
      { apply Forall_forall. intros c Hin. rewrite mem_app.
        rewrite Forall_forall in Hs'. rewrite (Hs' c Hin). simpl.
        rewrite re_sub_single in Hin. apply in_flat_map in Hin.
        destruct Hin as (c0 & _ & Hin).
        destruct (mem c0 cls) eqn:E0.
        - rewrite Forall_forall in Hr. specialize (Hr c Hin).
          destruct (mem c cls) eqn:E; [|reflexivity].
          apply mem_In in E. pose proof (Hhd c E) as Hb.
          cbv beta in Hr. congruence.
        - destruct Hin as [<-|[]]. exact E0. }
      assert (HD' : forall c, mem c (D ++ cls) = true -> mem c bad = true).
      { intros c. rewrite mem_app, orb_true_iff. intros [E|E]; [auto|].
        apply Hhd. now apply mem_In. }
      pose proof (IH Hrest (D ++ cls) _ HD' Hc) as Hfin.
      eapply Forall_impl; [|exact Hfin]. intros c [H1 H2].
      rewrite mem_app in H1. apply orb_false_iff in H1. destruct H1 as [H1 H3].
      split; [assumption|].
      unfold singles. cbn [flat_map fst]. fold (singles table).
      now rewrite mem_app, H3, H2.
    + (* a longer pattern *)
      pose proof (IH Hrest D _ HD Hs') as Hfin.
      eapply Forall_impl; [|exact Hfin]. intros c [H1 H2].
      split; [assumption|]. exact H2.
Qed.

Lemma bopomofo_settled :
  settles (singles _bopomofo_to_ipa) _bopomofo_to_ipa = true.
Proof. vm_compute. reflexivity. Qed.

Lemma bopomofo_clean (text : list N) :
  Forall (fun c => mem c (singles _bopomofo_to_ipa) = false)
    (bopomofo_to_ipa text).
Proof.
  pose proof (@sub_all_clean _ _ bopomofo_settled [] text
                ltac:(discriminate)
                ltac:(apply Forall_forall; reflexivity)) as H.
  eapply Forall_impl; [|exact H]. now intros c [_ ?].
Qed.

(** X15.  The result of [bopomofo_to_ipa] holds none of the characters that
    the table replaces: no bopomofo letter (U+3105 to U+3129), no tone mark
    and none of the full-width punctuation marks of the table. *)
Theorem bopomofo_leaves_no_bopomofo (text : list N) :
  Forall (fun c => ~ In c (singles _bopomofo_to_ipa) /\
                   ~ (0x3105 <= c <= 0x3129)%N)
    (bopomofo_to_ipa text).
Proof.
  eapply Forall_impl; [|apply bopomofo_clean]. intros c Hc.
  assert (Hn : ~ In c (singles _bopomofo_to_ipa)).
  { intros Hin. apply mem_In in Hin. congruence. }
  split; [exact Hn|]. intros [H1 H2]. apply Hn.
  assert (Hall : forallb (fun c => mem c (singles _bopomofo_to_ipa))
                   (map N.of_nat (seq 0x3105 37)) = true)
    by (vm_compute; reflexivity).
  rewrite forallb_forall in Hall. apply mem_In. apply Hall.
  rewrite <- (N2Nat.id c). apply in_map. apply in_seq. lia.
Qed.

(** X16.  [bopomofo_to_ipa] leaves a text without characters of its table as
    it is, and its result is such a text: applying it twice gives what
    applying it once gives. *)
Theorem bopomofo_to_ipa_idempotent (text : list N) :
  (Forall (fun c => ~ In c (singles _bopomofo_to_ipa)) text ->
   bopomofo_to_ipa text = text) /\
  bopomofo_to_ipa (bopomofo_to_ipa text) = bopomofo_to_ipa text.
Proof.
  split.
  - intros H. apply (@sub_all_fixed _ _ bopomofo_settled).
    eapply Forall_impl; [|exact H]. intros c Hc.
    destruct (mem c (singles _bopomofo_to_ipa)) eqn:E; [|reflexivity].
    apply mem_In in E. contradiction.
  - apply (@sub_all_fixed _ _ bopomofo_settled). apply bopomofo_clean.
Qed.
